(** * Archiver for Google Photos: the archival pipeline of [gparch.py]

    A shallow embedding of the naming helpers ([safe_mkdir], [auto_mkdir],
    [auto_filename]), the download worker ([download_media_item]), the
    pool-draining loop ([download]), the item processor
    ([process_media_items]), the listing loops ([list_media_items],
    [list_albums], [list_shared_albums], [search_favorites]) and the
    functions that archive the library, the favourites and the albums
    ([download_library], [download_favorites], [download_single_album],
    [download_all_albums], [download_all_shared_albums]) of
    [src/gparch.py], with the properties the archive relies on.

    Conventions.  The file system is a finite map from path to node, the
    [media] table is the list of its rows in insertion order, the remote
    service, the operating system's refusals and the XMP toolkit are fields
    of an environment record.  Python exceptions are values of [exn]; a
    computation that may raise returns a [result].  A Python [str] is
    held as its UTF-8 encoding, with lengths, indices and slices counted
    in code points.  Python's recursion is taken as unbounded (the
    interpreter's recursion limit is not modelled). *)

From Stdlib Require Import Ascii.
From stdpp Require Import gmap strings list pretty.


(** ** Python strings *)

Module Py.

(** A Python [str] is a sequence of code points.  It is held here as its
UTF-8 encoding; lengths, indices and slices count code points, as
Python's do. *)

(** [str(n)] for a non-negative integer. *)
Definition str (n : nat) : string := pretty n.

(** The byte continues a code point: it has the form [10xxxxxx]. *)
Definition continuation (a : Ascii.ascii) : bool :=
match a with
| Ascii.Ascii _ _ _ _ _ _ b6 b7 => b7 && negb b6
end.

(** [len(s)] *)
Fixpoint len (s : string) : nat :=
match s with
| EmptyString => 0
| String a s' => if continuation a then len s' else S (len s')
end.

(** The first [k] code points of [s]. *)
Fixpoint take (k : nat) (s : string) : string :=
match s with
| EmptyString => EmptyString
| String a s' =>
if continuation a then String a (take k s')
else
match k with
| O => EmptyString
| S k' => String a (take k' s')
end
end.

(** [s] without its first [k] code points. *)
Fixpoint drop (k : nat) (s : string) : string :=
match s with
| EmptyString => EmptyString
| String a s' =>
if continuation a then drop k s'
else
match k with
| O => s
| S k' => drop k' s'
end
end.

(** [s] is one code point. *)
Definition one_char (s : string) : bool :=
match s with
| EmptyString => false
| String a s' => negb (continuation a) && Nat.eqb (len s') 0
end.

(** A slice bound as Python normalises it: a negative bound counts from
the end, and the result is clamped to [0 .. len]. *)
Definition bound (len : nat) (i : Z) : nat :=
if (i <? 0)%Z then Z.to_nat (Z.max 0 (i + Z.of_nat len))
else Nat.min (Z.to_nat i) len.

(** [s[:i]] *)
Definition slice_to (s : string) (i : Z) : string :=
take (bound (len s) i) s.

(** [s[i:]] *)
Definition slice_from (s : string) (i : Z) : string :=
drop (bound (len s) i) s.

(** [s.rfind(c)] for a one-character needle of the ASCII range: the
highest index of [c] in [s], or [-1].  [i] is the index of the first
code point of [s]. *)
Fixpoint rfind_from (c : Ascii.ascii) (s : string) (i : Z) : Z :=
match s with
| EmptyString => (-1)%Z
| String a s' =>
if continuation a then rfind_from c s' i
else
let r := rfind_from c s' (i + 1)%Z in
if (0 <=? r)%Z then r
else if Ascii.eqb a c then i else (-1)%Z
end.

Definition rfind (c : Ascii.ascii) (s : string) : Z := rfind_from c s 0%Z.

(** [needle in s] for strings. *)
Definition contains (needle s : string) : bool :=
match String.index 0 needle s with
| Some _ => true
| None => false
end.

(** The character [c] occurs in [s]. *)
Fixpoint has_char (c : Ascii.ascii) (s : string) : bool :=
match s with
| EmptyString => false
| String a s' => Ascii.eqb a c || has_char c s'
end.

End Py.

(** ** Exceptions and results *)

Inductive exn :=
  | KeyError (key : string)
  | TypeError
  | OSError (path : string)
  | ConnectionError
  | XMPError
  | ValueError.

Inductive result (A : Type) :=
  | Ok (a : A)
  | Raise (e : exn).
Arguments Ok {A} a.
Arguments Raise {A} e.

#[global] Instance result_bind : MBind result := λ A B k r,
  match r with
  | Ok a => k a
  | Raise e => Raise e
  end.

#[global] Instance result_ret : MRet result := λ A a, Ok a.

(** ** The file system *)

Inductive node :=
  | File (data : string)
  | Dir.

#[global] Instance node_eq_dec : EqDecision node.
Proof. solve_decision. Defined.

Abbreviation filesystem := (gmap string node).

(** [os.path.exists] *)
Definition path_exists (σ : filesystem) (p : string) : bool :=
  match σ !! p with
  | Some _ => true
  | None => false
  end.

(** [os.path.isfile] *)
Definition isfile (σ : filesystem) (p : string) : bool :=
  match σ !! p with
  | Some (File _) => true
  | _ => false
  end.

(** ** Searching the first free candidate name

    [auto_mkdir] and [auto_filename] both recurse on [instance] until the
    candidate name is free.  [first_free] is that search; [fuel] bounds the
    recursion depth. *)

Fixpoint first_free (occupied : string → bool) (cand : nat → string)
    (fuel instance : nat) : option nat :=
  match fuel with
  | O => None
  | S fuel' =>
      if occupied (cand instance) then
        first_free occupied cand fuel' (S instance)
      else Some instance
  end.

(** ** [auto_mkdir] and [auto_filename] *)

Definition mkdir_candidate (path : string) (instance : nat) : string :=
  match instance with
  | O => path
  | S _ => path +:+ " (" +:+ Py.str instance +:+ ")"
  end.

Definition filename_candidate (path : string) (instance : nat) : string :=
  match instance with
  | O => path
  | S _ =>
      let extension_index := Py.rfind "."%char path in
      Py.slice_to path extension_index +:+ " (" +:+ Py.str instance +:+ ")"
        +:+ Py.slice_from path extension_index
  end.

Section Naming.

(** [os.path.abspath], which depends on the working directory, and the
paths the operating system refuses to create (missing parent,
permissions, full disk). *)
Variable abspath : string → string.
Variable os_refuses : string → bool.

(** [os.mkdir] *)
Definition os_mkdir (σ : filesystem) (p : string) : result filesystem :=
if path_exists σ p || os_refuses p then Raise (OSError p)
else Ok (<[p := Dir]> σ).

Fixpoint auto_mkdir_go (fuel : nat) (σ : filesystem) (path : string)
(instance : nat) : option (result string * filesystem) :=
match fuel with
| O => None
| S fuel' =>
let new_path :=
match instance with
| O => path
| S _ => path +:+ " (" +:+ Py.str instance +:+ ")"
end in
if negb (path_exists σ new_path) then
match os_mkdir σ new_path with
| Ok σ' => Some (Ok (abspath new_path), σ')
| Raise e => Some (Raise e, σ)
end
else auto_mkdir_go fuel' σ path (S instance)
end.

(** The recursion visits at most [size σ + 1] candidates (see
[auto_mkdir_go_total]); the default is never used. *)
Definition auto_mkdir (σ : filesystem) (path : string) (instance : nat)
: result string * filesystem :=
default (Raise (OSError path), σ)
(auto_mkdir_go (S (size σ)) σ path instance).

End Naming.

Fixpoint auto_filename_go (fuel : nat) (σ : filesystem) (path : string)
    (instance : nat) : option string :=
  match fuel with
  | O => None
  | S fuel' =>
      let new_path :=
        match instance with
        | O => path
        | S _ =>
            let extension_index := Py.rfind "."%char path in
            Py.slice_to path extension_index +:+ " (" +:+ Py.str instance
              +:+ ")" +:+ Py.slice_from path extension_index
        end in
      if negb (path_exists σ new_path) then Some new_path
      else auto_filename_go fuel' σ path (S instance)
  end.

(** The default is never used, see [auto_filename_go_total]. *)
Definition auto_filename (σ : filesystem) (path : string) (instance : nat)
    : string :=
  default path (auto_filename_go (S (size σ)) σ path instance).

(** ** JSON values of the remote API

    The fields the archiver reads are strings or nested objects; a media
    item is the object (Python dict) the listing call returned. *)

#[warnings="-register-all"]
Inductive jval :=
  | JStr (s : string)
  | JObj (o : gmap string jval).

Abbreviation item := (gmap string jval).

(** [d[k]] on a dict. *)
Definition getitem (d : item) (k : string) : result jval :=
  match d !! k with
  | Some v => Ok v
  | None => Raise (KeyError k)
  end.

(** [v[k]] on a value: a dict is looked up, a string cannot be indexed by
    a string. *)
Definition subscript (v : jval) (k : string) : result jval :=
  match v with
  | JObj o => getitem o k
  | JStr _ => Raise TypeError
  end.

(** A value used where the program needs a string (a SQL parameter, the
    argument of [sanitize], the left operand of [+ "=d"]). *)
Definition as_str (v : jval) : result string :=
  match v with
  | JStr s => Ok s
  | JObj _ => Raise TypeError
  end.

(** [needle in v]: substring test on a string, key test on a dict. *)
Definition py_in (needle : string) (v : jval) : bool :=
  match v with
  | JStr s => Py.contains needle s
  | JObj o => bool_decide (is_Some (o !! needle))
  end.

(** Truth value of an optional JSON value ([None], the empty string and the
    empty dict are false). *)
Definition truthy (v : option jval) : bool :=
  match v with
  | None => false
  | Some (JStr s) => negb (String.eqb s "")
  | Some (JObj o) => negb (bool_decide (o = ∅))
  end.

(** ** The XMP toolkit, the remote service and the operating system *)

(** An XMP packet: properties by (namespace, name). *)
Abbreviation xmp := (gmap (string * string) jval).

Definition XMP_NS_EXIF : string := "http://ns.adobe.com/exif/1.0/".
Definition XMP_NS_XMP : string := "http://ns.adobe.com/xap/1.0/".

(** What the toolkit does on one file.  A [bool] field tells whether the
    call returns ([true]) or raises ([false]). *)
Record xmp_behaviour := {
  (** [libxmp.XMPFiles(file_path=path, open_forupdate=True)] *)
  xb_open : bool;
  (** [xmpfile.get_xmp()] *)
  xb_get_xmp : result (option xmp);
  (** [libxmp.XMPMeta()] *)
  xb_new_meta : bool;
  (** [xmp.set_property(ns, name, value)] *)
  xb_set_property : string → string → jval → bool;
  (** [xmpfile.can_put_xmp(xmp)] *)
  xb_can_put : xmp → result bool;
  (** [xmpfile.put_xmp(xmp)] *)
  xb_put : xmp → bool;
  (** [xmpfile.close_file(close_flags=XMP_CLOSE_SAFEUPDATE)] *)
  xb_close_safe : bool;
  (** the bytes of the file once the packet has been written into it *)
  xb_embed : string → xmp → string;
  (** [xmp.serialize_to_str()] *)
  xb_serialize : xmp → result string;
  (** the cleanup [xmpfile.close_file()] *)
  xb_close : bool
}.

(** The reply to [requests.get(url, stream=True)]: the call raises, or it
    returns a response whose body arrives in [chunks]; when [complete] is
    false the stream breaks after the last chunk. *)
Inductive http_reply :=
  | NoReply
  | Reply (status_code : Z) (chunks : list string) (complete : bool).

Record env := {
  (** [sanitize_filename.sanitize] *)
  sanitize : string → string;
  (** paths the operating system refuses to create or open for writing *)
  os_refuses : string → bool;
  http_get : string → http_reply;
  (** the toolkit's behaviour on the file at a path *)
  toolkit : string → xmp_behaviour;
  (** [datetime.fromisoformat(s.replace("Z", "+00:00")).isoformat()] *)
  isoformat : string → result string
}.

(** ** The archive: file system, [media] table, session counters *)

(** A row of [media (uuid text, path text, album_uuid text)]. *)
Record media_row := {
  row_uuid : string;
  row_path : string;
  row_album_uuid : option string
}.

Record world := {
  fs : filesystem;
  (** the rows of the [media] table, oldest first *)
  media : list media_row;
  (** [self.downloads] *)
  downloads : nat;
  (** the URLs requested so far, oldest first *)
  requested : list string
}.

Definition set_fs (σ : filesystem) (w : world) : world :=
  {| fs := σ; media := media w; downloads := downloads w;
     requested := requested w |}.

(** [select_media_item]: [fetchone] of [SELECT * FROM media WHERE uuid=?]. *)
Definition select_media_item (db : list media_row) (uuid : string)
    : option media_row :=
  List.find (λ r, String.eqb (row_uuid r) uuid) db.

(** [insert_media_item] *)
Definition insert_media_item (w : world) (uuid path : string)
    (album_uuid : option string) : world :=
  {| fs := fs w;
     media := media w ++ [{| row_uuid := uuid; row_path := path;
                             row_album_uuid := album_uuid |}];
     downloads := downloads w; requested := requested w |}.

(** ** Download tasks *)

(** The tuple [(uuid, album_uuid, url, path, description, creation_time)]. *)
Record entry := {
  e_uuid : string;
  e_album_uuid : option string;
  e_url : string;
  e_path : string;
  e_description : option jval;
  e_creation_time : option jval
}.

(** The value [download_media_item] returns: [False], [None] (the function
    falls off its end) or the tuple [(uuid, path, album_uuid)]. *)
Inductive returned :=
  | RFalse
  | RNone
  | RTuple (uuid path : string) (album_uuid : option string).

(** ** The download worker *)

Section Worker.

Variable E : env.

(** [open(path, mode)] for writing: creates the file or truncates it. *)
Definition open_w (σ : filesystem) (path : string) : result filesystem :=
match σ !! path with
| Some Dir => Raise (OSError path)
| _ =>
if os_refuses E path then Raise (OSError path)
else Ok (<[path := File ""]> σ)
end.

(** [f.write(data)] on the file open at [path]. *)
Definition f_write (σ : filesystem) (path data : string) : filesystem :=
match σ !! path with
| Some (File old) => <[path := File (old +:+ data)]> σ
| _ => σ
end.

(** [write_response(r, path)] *)
Definition write_response (chunks : list string) (complete : bool)
(σ : filesystem) (path : string) : result unit * filesystem :=
match open_w σ path with
| Raise e => (Raise e, σ)
| Ok σ1 =>
let σ2 := foldl (λ σ' chunk, f_write σ' path chunk) σ1 chunks in
if complete then (Ok (), σ2) else (Raise ConnectionError, σ2)
end.

(** [xmp.set_property(ns, name, value)] *)
Definition set_property (B : xmp_behaviour) (x : xmp) (ns name : string)
(value : jval) : result xmp :=
if xb_set_property B ns name value then Ok (<[(ns, name) := value]> x)
else Raise XMPError.

(** The statements from [xmp is None] to the second [CreateDate]
property: the packet to be stored. *)
Definition prepare_xmp (B : xmp_behaviour) (found : option xmp)
(description creation_time : option jval) : result xmp :=
x ← match found with
| Some x => Ok x
| None => if xb_new_meta B then Ok ∅ else Raise XMPError
end;
x ← (if truthy description then
 match description with
 | Some d => set_property B x XMP_NS_EXIF "UserComment" d
 | None => Ok x
 end
 else Ok x);
match creation_time with
| Some ct =>
s ← match ct with
  | JStr s => Ok s
  | JObj _ => Raise TypeError
  end;
iso ← isoformat E s;
x ← set_property B x XMP_NS_EXIF "DateTimeOriginal" (JStr iso);
set_property B x XMP_NS_XMP "CreateDate" (JStr iso)
| None => Ok x
end.

(** How the embedding ended. *)
Inductive embedding :=
| InPlace      (** the packet was written into the media file *)
| Sidecar      (** the packet was written to [path + ".xmp"] *)
| NoMetadata.  (** an exception was logged; no metadata was stored *)

(** The inner [try] that writes the packet into the file.  Returns
[saved] together with the file system; [saved] also tells that
[xmpfile] was set to [None]. *)
Definition put_in_place (B : xmp_behaviour) (xmpfile : bool) (x : xmp)
(σ : filesystem) (path : string) : bool * filesystem :=
if xmpfile then
match xb_can_put B x with
| Ok true =>
if xb_put B x then
  if xb_close_safe B then
    match σ !! path with
    | Some (File data) =>
        (true, <[path := File (xb_embed B data x)]> σ)
    | _ => (true, σ)
    end
  else (false, σ)
else (false, σ)
| Ok false => (false, σ)
| Raise _ => (false, σ)
end
else (false, σ).

(** [with open(path + ".xmp", "w") as f: f.write(xmp.serialize_to_str())] *)
Definition write_sidecar (B : xmp_behaviour) (x : xmp) (σ : filesystem)
(path : string) : result unit * filesystem :=
match open_w σ (path +:+ ".xmp") with
| Raise e => (Raise e, σ)
| Ok σ1 =>
match xb_serialize B x with
| Raise e => (Raise e, σ1)
| Ok text => (Ok (), f_write σ1 (path +:+ ".xmp") text)
end
end.

(** The metadata block of the worker, from [xmpfile = None] to the end of
[finally].  The result is [Raise] only when the cleanup
[close_file()] raises: every other exception is caught and logged
inside the block. *)
Definition embed_metadata (σ : filesystem) (path : string)
(description creation_time : option jval)
: result embedding * filesystem :=
let B := toolkit E path in
(* try: xmpfile = XMPFiles(...); xmp = xmpfile.get_xmp() *)
let xmpfile := xb_open B in
let found :=
if xmpfile then
match xb_get_xmp B with
| Ok found => found
| Raise _ => None
end
else None in
let '(xmpfile, how, σ') :=
match prepare_xmp B found description creation_time with
| Raise _ => (xmpfile, NoMetadata, σ)
| Ok x =>
let '(saved, σ1) := put_in_place B xmpfile x σ path in
if saved then (false, InPlace, σ1)
else
  match write_sidecar B x σ1 path with
  | (Ok _, σ2) => (xmpfile, Sidecar, σ2)
  | (Raise _, σ2) => (xmpfile, NoMetadata, σ2)
  end
end in
(* finally: if xmpfile is not None: xmpfile.close_file() *)
if xmpfile then
if xb_close B then (Ok how, σ') else (Raise XMPError, σ')
else (Ok how, σ').

(** The body of the worker's [try]. *)
Definition download_media_item_body (w : world) (e : entry)
: result returned * world :=
if negb (isfile (fs w) (e_path e)) then
let w1 :=
{| fs := fs w; media := media w; downloads := downloads w;
 requested := requested w ++ [e_url e] |} in
match http_get E (e_url e) with
| NoReply => (Raise ConnectionError, w1)
| Reply status_code chunks complete =>
if (status_code =? 200)%Z then
  let path := auto_filename (fs w1) (e_path e) 0 in
  match write_response chunks complete (fs w1) path with
  | (Raise ex, σ2) => (Raise ex, set_fs σ2 w1)
  | (Ok _, σ2) =>
      let '(r, σ3) :=
        if truthy (e_description e)
           || bool_decide (is_Some (e_creation_time e))
        then embed_metadata σ2 path (e_description e)
               (e_creation_time e)
        else (Ok NoMetadata, σ2) in
      match r with
      | Raise ex => (Raise ex, set_fs σ3 w1)
      | Ok _ =>
          (Ok (RTuple (e_uuid e) path (e_album_uuid e)),
           {| fs := σ3; media := media w1;
              downloads := S (downloads w1);
              requested := requested w1 |})
      end
  end
else (Ok RNone, w1)
end
else (Ok RFalse, w).

(** [download_media_item]: the body under [except Exception], which logs
and returns [False]. *)
Definition download_media_item (w : world) (e : entry)
: returned * world :=
match download_media_item_body w e with
| (Ok r, w') => (r, w')
| (Raise _, w') => (RFalse, w')
end.

(** The body of the [for] loop of [download]: a truthy outcome is
recorded. *)
Definition record_outcome (w : world) (downloaded_entry : returned)
: world :=
match downloaded_entry with
| RTuple uuid path album_uuid => insert_media_item w uuid path album_uuid
| RFalse | RNone => w
end.

(** [download] when the workers run one after the other, in submission
order, each outcome being consumed as it is produced. *)
Fixpoint download (w : world) (entries : list entry) : world :=
match entries with
| [] => w
| e :: entries' =>
let '(r, w1) := download_media_item w e in
download (record_outcome w1 r) entries'
end.

(** The outcomes of that run, in the same order. *)
Fixpoint outcomes (w : world) (entries : list entry) : list returned :=
match entries with
| [] => []
| e :: entries' =>
let '(r, w1) := download_media_item w e in
r :: outcomes (record_outcome w1 r) entries'
end.

End Worker.

(** ** The item processor *)

Section Processor.

Variable E : env.

(** One turn of the loop of [process_media_items]: the task appended to
[media], if any.  The assignments to [item["filename"]] and
[item["description"]] change the item in place; the item is not read
again after the call, so the turn is written on the values. *)
Definition process_media_item (db : list media_row)
(save_directory : string) (album_uuid : option string) (it : item)
: result (option entry) :=
id ← getitem it "id" ≫= as_str;
item_path ←
match select_media_item db id with
| None =>
filename ← getitem it "filename" ≫= as_str;
Ok (save_directory +:+ "/" +:+ sanitize E filename)
| Some item_db_entry => Ok (row_path item_db_entry)
end;
let description := it !! "description" in
mime ← getitem it "mimeType";
if py_in "image" mime then
base ← getitem it "baseUrl" ≫= as_str;
creation_time ←
getitem it "mediaMetadata" ≫= λ m, subscript m "creationTime";
Ok (Some {| e_uuid := id; e_album_uuid := album_uuid;
        e_url := base +:+ "=d"; e_path := item_path;
        e_description := description;
        e_creation_time := Some creation_time |})
else if py_in "video" mime then
base ← getitem it "baseUrl" ≫= as_str;
creation_time ←
getitem it "mediaMetadata" ≫= λ m, subscript m "creationTime";
Ok (Some {| e_uuid := id; e_album_uuid := album_uuid;
        e_url := base +:+ "=dv"; e_path := item_path;
        e_description := description;
        e_creation_time := Some creation_time |})
else Ok None.

Fixpoint process_media_items (db : list media_row)
(media_items : list item) (save_directory : string)
(album_uuid : option string) : result (list entry) :=
match media_items with
| [] => Ok []
| it :: rest =>
task ← process_media_item db save_directory album_uuid it;
tasks ← process_media_items db rest save_directory album_uuid;
Ok (match task with
  | Some e => e :: tasks
  | None => tasks
  end)
end.

(** ** The pipeline over collections

A collection is what [download_library], [download_favorites] and
[download_single_album] hand to [process_media_items]: the listed
items, the directory they are saved to and the album, if any. *)
Record collection := {
c_items : list item;
c_directory : string;
c_album : option string
}.

(** The collections are archived one after the other; an exception of
[process_media_items] ends the run. *)
Fixpoint archive (w : world) (cs : list collection) : result unit * world :=
match cs with
| [] => (Ok (), w)
| c :: cs' =>
match process_media_items (media w) (c_items c) (c_directory c)
      (c_album c) with
| Raise ex => (Raise ex, w)
| Ok entries => archive (download E w entries) cs'
end
end.

End Processor.

(** ** Pagination *)

(** A response of a listing call: the dict has neither key when the
    collection is empty. *)
Record page := {
  mediaItems : option (list item);
  nextPageToken : option string
}.

(** [not request] *)
Definition page_is_empty (request : page) : bool :=
  match mediaItems request, nextPageToken request with
  | None, None => true
  | _, _ => false
  end.

Section Pagination.

(** [self.service.mediaItems().list(pageSize=100, pageToken=t).execute()];
the first call carries no token. *)
Variable list_call : option string → result page.

(** The [while True] loop of [list_media_items]; [fuel] bounds the
number of pages read, [None] means the bound was reached. *)
Fixpoint list_loop (fuel : nat) (request : page)
(media_items_list : list item) : option (result (list item)) :=
match fuel with
| O => None
| S fuel' =>
let media_items_list :=
match mediaItems request with
| Some l => media_items_list ++ l
| None => media_items_list
end in
match nextPageToken request with
| Some next_page =>
  match list_call (Some next_page) with
  | Ok request' => list_loop fuel' request' media_items_list
  | Raise ex => Some (Raise ex)
  end
| None => Some (Ok media_items_list)
end
end.

(** [list_media_items] with the debug dumps off.  The empty dict the
source returns for an empty first response is the empty sequence. *)
Definition list_media_items (fuel : nat) : option (result (list item)) :=
match list_call None with
| Raise ex => Some (Raise ex)
| Ok request =>
if page_is_empty request then Some (Ok [])
else list_loop fuel request []
end.

End Pagination.

(** ** Notions used in the statements *)

(** [n] is the first index from [i] on whose candidate is free. *)
Definition least_free (occupied : string → bool) (cand : nat → string)
    (i n : nat) : Prop :=
  i ≤ n ∧ occupied (cand n) = false ∧
  ∀ k, i ≤ k < n → occupied (cand k) = true.

(** The name [path (n)]. *)
Definition suffixed (path : string) (n : nat) : string :=
  path +:+ " (" +:+ Py.str n +:+ ")".

(** The remote collection as the service hands it out: [pages] are the
    responses to the successive calls, starting with the call that carries
    [tok]; every page but the last names the token of the next call. *)
Fixpoint serves (list_call : option string → result page)
    (tok : option string) (pages : list page) : Prop :=
  match pages with
  | [] => False
  | p :: rest =>
      list_call tok = Ok p ∧
      match rest with
      | [] => nextPageToken p = None
      | _ :: _ =>
          match nextPageToken p with
          | Some t => serves list_call (Some t) rest
          | None => False
          end
      end
  end.

(** The items of the pages, in page order. *)
Definition items_of (pages : list page) : list item :=
  concat ((λ p, default [] (mediaItems p)) <$> pages).

(** The identifier of an item, when it is a string. *)
Definition item_id (it : item) : string :=
  match it !! "id" with
  | Some (JStr id) => id
  | _ => ""
  end.

(** The item's MIME type names an image or a video. *)
Definition is_media (it : item) : bool :=
  match it !! "mimeType" with
  | Some mime => py_in "image" mime || py_in "video" mime
  | None => false
  end.

(** The item carries every field [process_media_items] reads from it: the
    identifier and the MIME type, the file name unless the item is indexed,
    and the base URL and creation time when it is an image or a video. *)
Definition well_formed (db : list media_row) (it : item) : Prop :=
  ∃ id mime,
    it !! "id" = Some (JStr id) ∧ it !! "mimeType" = Some mime ∧
    (select_media_item db id = None →
       ∃ filename, it !! "filename" = Some (JStr filename)) ∧
    (is_media it = true →
       ∃ base md ct,
         it !! "baseUrl" = Some (JStr base) ∧
         it !! "mediaMetadata" = Some (JObj md) ∧
         md !! "creationTime" = Some ct).

(** One of those fields is missing. *)
Definition missing_field (db : list media_row) (it : item) : Prop :=
  it !! "id" = None ∨
  (∃ id, it !! "id" = Some (JStr id) ∧ select_media_item db id = None ∧
         it !! "filename" = None) ∨
  it !! "mimeType" = None ∨
  (is_media it = true ∧
     (it !! "baseUrl" = None ∨ it !! "mediaMetadata" = None ∨
      ∃ md, it !! "mediaMetadata" = Some (JObj md) ∧
            md !! "creationTime" = None)).

(** ** Sample data for the examples *)

Module Sample.

(** A toolkit that cannot open the file and writes side-cars. *)
Definition sidecar_toolkit : xmp_behaviour :=
{| xb_open := false; xb_get_xmp := Ok None; xb_new_meta := true;
 xb_set_property := λ _ _ _, true; xb_can_put := λ _, Ok false;
 xb_put := λ _, true; xb_close_safe := true;
 xb_embed := λ data _, data; xb_serialize := λ _, Ok "<xmp/>";
 xb_close := true |}.

(** A toolkit every call of which raises. *)
Definition broken_toolkit : xmp_behaviour :=
{| xb_open := false; xb_get_xmp := Raise XMPError; xb_new_meta := false;
 xb_set_property := λ _ _ _, false;
 xb_can_put := λ _, Raise XMPError; xb_put := λ _, false;
 xb_close_safe := false; xb_embed := λ data _, data;
 xb_serialize := λ _, Raise XMPError; xb_close := false |}.

(** A service that answers every request with the two-chunk body
["JFIF"; "data"]. *)
Definition env_ok : env :=
{| sanitize := id; os_refuses := λ _, false;
 http_get := λ _, Reply 200 ["JFIF"; "data"] true;
 toolkit := λ _, sidecar_toolkit;
 isoformat := λ s, Ok s |}.

(** The same service with the broken toolkit. *)
Definition env_no_xmp : env :=
{| sanitize := id; os_refuses := λ _, false;
 http_get := λ _, Reply 200 ["JFIF"; "data"] true;
 toolkit := λ _, broken_toolkit;
 isoformat := λ s, Ok s |}.

(** The same service, whose stream for [".../cut=d"] breaks after the
first chunk and which answers 404 for [".../gone=d"]. *)
Definition env_flaky : env :=
{| sanitize := id; os_refuses := λ _, false;
 http_get := λ url,
 if String.eqb url "https://photos/cut=d" then Reply 200 ["JFIF"] false
 else if String.eqb url "https://photos/gone=d" then Reply 404 [] true
 else Reply 200 ["JFIF"; "data"] true;
 toolkit := λ _, sidecar_toolkit;
 isoformat := λ s, Ok s |}.

(** An image item as the listing call returns it. *)
Definition photo (id filename : string) : item :=
{[ "id" := JStr id; "filename" := JStr filename;
 "mimeType" := JStr "image/jpeg";
 "baseUrl" := JStr ("https://photos/" +:+ id);
 "mediaMetadata" :=
 JObj {[ "creationTime" := JStr "2020-05-17T10:00:00Z" ]} ]}.

(** The task [process_media_items] derives from [photo id filename] for
the library. *)
Definition task (id filename : string) : entry :=
{| e_uuid := id; e_album_uuid := None;
 e_url := "https://photos/" +:+ id +:+ "=d";
 e_path := "Library/" +:+ filename;
 e_description := None;
 e_creation_time := Some (JStr "2020-05-17T10:00:00Z") |}.

(** A fresh archive: the directories [__init__] creates, empty tables. *)
Definition fresh : world :=
{| fs := {[ "Library" := Dir; "Albums" := Dir; "Favorites" := Dir ]};
 media := []; downloads := 0; requested := [] |}.

End Sample.

(** The letter e with an acute accent, U+00E9: two bytes in UTF-8. *)
Definition e_acute : string := String "195"%char (String "169"%char "").

(** ** Notions about archives *)

(** The bytes of a body received in [chunks]. *)
Definition body_of (chunks : list string) : string :=
  foldl String.append "" chunks.

(** What a run of the pipeline can do to the file system: files stay
    files, directories stay directories, and a free path stays free or
    becomes a file. *)
Definition grows (σ σ' : filesystem) : Prop :=
  ∀ p, match σ !! p with
       | Some (File _) => isfile σ' p = true
       | Some Dir => σ' !! p = Some Dir
       | None => σ' !! p ≠ Some Dir
       end.

(** Every row of the [media] table names a file that exists. *)
Definition backed (w : world) : Prop :=
  ∀ r, r ∈ media w → isfile (fs w) (row_path r) = true.

(** Two archives with the same files and the same table. *)
Definition same_store (w w' : world) : Prop :=
  fs w = fs w' ∧ media w = media w'.

(** The archive once [url] has been requested. *)
Definition after_request (w : world) (url : string) : world :=
  {| fs := fs w; media := media w; downloads := downloads w;
     requested := requested w ++ [url] |}.

(** The archive once a download has been counted. *)
Definition after_download (σ : filesystem) (w : world) : world :=
  {| fs := σ; media := media w; downloads := S (downloads w);
     requested := requested w |}.

(** The task asks for metadata. *)
Definition wants_metadata (e : entry) : bool :=
  truthy (e_description e) || bool_decide (is_Some (e_creation_time e)).

(** The task fails before anything is written: its target is not a file
    and the request raises, is answered with another status than 200, or
    the operating system refuses the file. *)
Definition fails_before_writing (E : env) (w : world) (e : entry) : Prop :=
  isfile (fs w) (e_path e) = false ∧
  match http_get E (e_url e) with
  | NoReply => True
  | Reply status_code _ _ =>
      status_code ≠ 200%Z ∨
      os_refuses E (auto_filename (fs w) (e_path e) 0) = true
  end.

(** The value is not a tuple: the [for] loop of [download] skips it. *)
Definition falsy (r : returned) : Prop :=
  match r with
  | RTuple _ _ _ => False
  | RFalse | RNone => True
  end.

(** The cleanup [close_file()] of the toolkit returns whenever the worker
    can reach it. *)
Definition cleanup_returns (B : xmp_behaviour) : Prop :=
  xb_open B = true → xb_close B = true.

(** The packet the metadata block builds for the file at [path]: the one
    the toolkit finds in the file, or a new one, with the properties set;
    [Raise] when building it raises. *)
Definition packet (E : env) (path : string)
    (description creation_time : option jval) : result xmp :=
  let B := toolkit E path in
  prepare_xmp E B
    (if xb_open B then
       match xb_get_xmp B with
       | Ok found => found
       | Raise _ => None
       end
     else None)
    description creation_time.

(** The toolkit takes the packet into the file: the file was opened and
    [can_put_xmp], [put_xmp] and the closing safe update go through. *)
Definition in_place_ok (B : xmp_behaviour) (x : xmp) : bool :=
  xb_open B &&
  match xb_can_put B x with
  | Ok true => xb_put B x && xb_close_safe B
  | _ => false
  end.

(** The side-car of [path] can be opened for writing. *)
Definition sidecar_writable (E : env) (σ : filesystem) (path : string)
    : bool :=
  negb (bool_decide (σ !! (path +:+ ".xmp") = Some Dir))
  && negb (os_refuses E (path +:+ ".xmp")).

(** The files after a download with metadata, as a decision with
    exclusive branches: [before] is the file system before the download
    and [body] the bytes received.  The packet goes into the media file
    and nothing else is written; or it goes, serialized, into the
    side-car and the media file holds the bytes received; or nothing is
    stored and the media file holds the bytes received (the side-car is
    left empty when it was opened and serializing raised). *)
Definition stored (E : env) (path body : string)
    (description creation_time : option jval) (before after : filesystem)
    : Prop :=
  let B := toolkit E path in
  let σ := <[path := File body]> before in
  match packet E path description creation_time with
  | Raise _ => after = σ
  | Ok x =>
      if in_place_ok B x then
        after = <[path := File (xb_embed B body x)]> σ
      else if sidecar_writable E σ path then
        match xb_serialize B x with
        | Ok text => after = <[path +:+ ".xmp" := File text]> σ
        | Raise _ => after = <[path +:+ ".xmp" := File ""]> σ
        end
      else after = σ
  end.

(** A toolkit that opens the file but cannot write into it: the packet
    goes to the side-car and the cleanup closes the file. *)
Definition fallback_toolkit : xmp_behaviour :=
  {| xb_open := true; xb_get_xmp := Ok None; xb_new_meta := true;
     xb_set_property := λ _ _ _, true; xb_can_put := λ _, Ok false;
     xb_put := λ _, true; xb_close_safe := true;
     xb_embed := λ data _, data; xb_serialize := λ _, Ok "<xmp/>";
     xb_close := true |}.

Definition env_fallback : env :=
  {| sanitize := id; os_refuses := λ _, false;
     http_get := λ _, Reply 200 ["JFIF"; "data"] true;
     toolkit := λ _, fallback_toolkit;
     isoformat := λ s, Ok s |}.

(** A toolkit that opens the file and then fails in every call, the
    cleanup included. *)
Definition failing_cleanup_toolkit : xmp_behaviour :=
  {| xb_open := true; xb_get_xmp := Raise XMPError; xb_new_meta := true;
     xb_set_property := λ _ _ _, true; xb_can_put := λ _, Ok true;
     xb_put := λ _, false; xb_close_safe := false;
     xb_embed := λ data _, data; xb_serialize := λ _, Raise XMPError;
     xb_close := false |}.

Definition env_failing_cleanup : env :=
  {| sanitize := id; os_refuses := λ _, false;
     http_get := λ _, Reply 200 ["JFIF"; "data"] true;
     toolkit := λ _, failing_cleanup_toolkit;
     isoformat := λ s, Ok s |}.



(** The task with another target path. *)
Definition with_path (e : entry) (path : string) : entry :=
  {| e_uuid := e_uuid e; e_album_uuid := e_album_uuid e; e_url := e_url e;
     e_path := path; e_description := e_description e;
     e_creation_time := e_creation_time e |}.

(** Nothing is left to do for the task: its target is a file, or the
    target is free and the download cannot get as far as writing it (the
    request raises, is not answered with 200, or the operating system
    refuses the file). *)
Definition settled (E : env) (σ : filesystem) (e : entry) : Prop :=
  isfile σ (e_path e) = true ∨
  (σ !! e_path e = None ∧
   match http_get E (e_url e) with
   | NoReply => True
   | Reply status_code _ _ =>
       status_code ≠ 200%Z ∨ os_refuses E (e_path e) = true
   end).

(** No item of the collections would be saved under the name of a
    directory. *)
Definition targets_clear (E : env) (σ : filesystem) (cs : list collection)
    : Prop :=
  ∀ c it filename,
    c ∈ cs → it ∈ c_items c → it !! "filename" = Some (JStr filename) →
    σ !! (c_directory c +:+ "/" +:+ sanitize E filename) ≠ Some Dir.

(** The library with two photos, the second of which the service no
    longer has. *)
Definition sample_library : collection :=
  {| c_items := [Sample.photo "a" "a.jpg"; Sample.photo "gone" "g.jpg"];
     c_directory := "Library"; c_album := None |}.


(** ** The pool, step by step

    [download] hands the tasks to a pool of threads and records the
    outcomes in the order they arrive.  The machine below runs the workers
    in any interleaving of their steps; the service, the operating system
    and the toolkit may behave differently at every step. *)

(** Where a worker is in [download_media_item]. *)
Inductive wstate :=
  | Waiting            (** submitted, not started *)
  | Checked            (** the target was not a file; the request is next *)
  | Received (chunks : list string) (complete : bool)
                       (** status 200; the name is resolved next *)
  | Named (path : string) (chunks : list string) (complete : bool)
                       (** [auto_filename] answered; [open] is next *)
  | Writing (path : string) (rest : list string) (complete : bool)
                       (** the file is open; [rest] is still to arrive *)
  | Written (path : string)
                       (** [write_response] returned *)
  | Returned (r : returned)
                       (** the value is with the pool *)
  | Consumed.          (** the [for] loop has taken the value *)

(** One step of the worker of task [e]. *)
Inductive wstep (E : env) (e : entry)
    : wstate → world → wstate → world → Prop :=
  | w_present w :
      isfile (fs w) (e_path e) = true →
      wstep E e Waiting w (Returned RFalse) w
  | w_absent w :
      isfile (fs w) (e_path e) = false →
      wstep E e Waiting w Checked w
  | w_no_reply w :
      http_get E (e_url e) = NoReply →
      wstep E e Checked w (Returned RFalse) (after_request w (e_url e))
  | w_status w status_code chunks complete :
      http_get E (e_url e) = Reply status_code chunks complete →
      status_code ≠ 200%Z →
      wstep E e Checked w (Returned RNone) (after_request w (e_url e))
  | w_ok w chunks complete :
      http_get E (e_url e) = Reply 200 chunks complete →
      wstep E e Checked w (Received chunks complete)
        (after_request w (e_url e))
  | w_name w chunks complete :
      wstep E e (Received chunks complete) w
        (Named (auto_filename (fs w) (e_path e) 0) chunks complete) w
  | w_open w path chunks complete σ :
      open_w E (fs w) path = Ok σ →
      wstep E e (Named path chunks complete) w
        (Writing path chunks complete) (set_fs σ w)
  | w_open_fails w path chunks complete ex :
      open_w E (fs w) path = Raise ex →
      wstep E e (Named path chunks complete) w (Returned RFalse) w
  | w_chunk w path chunk rest complete :
      wstep E e (Writing path (chunk :: rest) complete) w
        (Writing path rest complete) (set_fs (f_write (fs w) path chunk) w)
  | w_eof w path :
      wstep E e (Writing path [] true) w (Written path) w
  | w_broken w path :
      wstep E e (Writing path [] false) w (Returned RFalse) w
  | w_plain w path :
      wants_metadata e = false →
      wstep E e (Written path) w
        (Returned (RTuple (e_uuid e) path (e_album_uuid e)))
        (after_download (fs w) w)
  | w_embedded w path how σ :
      wants_metadata e = true →
      embed_metadata E (fs w) path (e_description e) (e_creation_time e)
        = (Ok how, σ) →
      wstep E e (Written path) w
        (Returned (RTuple (e_uuid e) path (e_album_uuid e)))
        (after_download σ w)
  | w_cleanup_fails w path ex σ :
      wants_metadata e = true →
      embed_metadata E (fs w) path (e_description e) (e_creation_time e)
        = (Raise ex, σ) →
      wstep E e (Written path) w (Returned RFalse) (set_fs σ w).

(** The archive and the tasks of the batch in progress. *)
Record machine := {
  m_world : world;
  m_pool : list (entry * wstate)
}.

Inductive label :=
  | Start (E : env) (c : collection)  (** [process_media_items], [download] *)
  | Work (E : env) (i : nat)          (** a step of the worker of task [i] *)
  | Drain (i : nat).                  (** the [for] loop takes outcome [i] *)

Inductive step : machine → label → machine → Prop :=
  | step_start E c m es :
      Forall (λ t, t.2 = Consumed) (m_pool m) →
      process_media_items E (media (m_world m)) (c_items c) (c_directory c)
        (c_album c) = Ok es →
      step m (Start E c)
        {| m_world := m_world m; m_pool := (λ e, (e, Waiting)) <$> es |}
  | step_work E i m e st st' w' :
      m_pool m !! i = Some (e, st) →
      wstep E e st (m_world m) st' w' →
      step m (Work E i)
        {| m_world := w'; m_pool := <[i := (e, st')]> (m_pool m) |}
  | step_drain i m e r :
      m_pool m !! i = Some (e, Returned r) →
      step m (Drain i)
        {| m_world := record_outcome (m_world m) r;
           m_pool := <[i := (e, Consumed)]> (m_pool m) |}.

(** The machine after the steps [trace]. *)
Inductive steps : machine → list label → machine → Prop :=
  | steps_nil m : steps m [] m
  | steps_snoc m trace m1 l m2 :
      steps m trace m1 → step m1 l m2 → steps m (trace ++ [l]) m2.

(** A run of the pipeline from the archive [w0]: no batch is in
    progress at the start. *)
Definition run (w0 : world) (trace : list label) (m : machine) : Prop :=
  steps {| m_world := w0; m_pool := [] |} trace m.

(** The steps of one worker, as a relation on its state and the archive. *)
Definition wsteps (E : env) (e : entry) : relation (wstate * world) :=
  rtc (λ x y, wstep E e x.1 x.2 y.1 y.2).


(** What a worker's state says of the files. *)
Definition files_of (σ : filesystem) (t : entry * wstate) : Prop :=
  match t.2 with
  | Writing path _ _ | Written path => isfile σ path = true
  | Returned (RTuple uuid path _) => uuid = e_uuid t.1 ∧ isfile σ path = true
  | _ => True
  end.




(** Every row names a file that exists, and so does every worker that
    has opened or written its file. *)
Definition safe (m : machine) : Prop :=
  backed (m_world m) ∧ Forall (files_of (fs (m_world m))) (m_pool m).

(** The step starts a batch. *)
Definition is_start (l : label) : bool :=
  match l with
  | Start _ _ => true
  | _ => false
  end.

(** No task of the pool is in progress. *)
Definition idle (m : machine) : Prop :=
  Forall (λ t, t.2 = Consumed) (m_pool m).




(** ** Directories, albums and favourites

    The rest of [PhotosAccount]: the directories of [__init__], the
    [albums] table, the listing calls for albums and favourites, and the
    functions that archive one kind of collection each. *)

(** [safe_mkdir] *)
Definition safe_mkdir (os_refuses : string → bool) (σ : filesystem)
    (path : string) : result unit * filesystem :=
  if negb (path_exists σ path) then
    match os_mkdir os_refuses σ path with
    | Ok σ' => (Ok (), σ')
    | Raise ex => (Raise ex, σ)
    end
  else (Ok (), σ).

(** Calls of [safe_mkdir] one after the other; an exception ends them. *)
Fixpoint safe_mkdirs (os_refuses : string → bool) (σ : filesystem)
    (paths : list string) : result unit * filesystem :=
  match paths with
  | [] => (Ok (), σ)
  | path :: rest =>
      match safe_mkdir os_refuses σ path with
      | (Ok _, σ') => safe_mkdirs os_refuses σ' rest
      | (Raise ex, σ') => (Raise ex, σ')
      end
  end.

(** A row of [albums (uuid text, path text, title text, is_shared
    integer)]. *)
Record album_row := {
  a_uuid : string;
  a_path : string;
  a_title : string;
  a_is_shared : bool
}.

(** The archive together with the rows of the [albums] table, oldest
    first. *)
Record account := {
  acc_world : world;
  acc_albums : list album_row
}.

Definition set_world (w : world) (a : account) : account :=
  {| acc_world := w; acc_albums := acc_albums a |}.

(** [select_album]: [fetchone] of [SELECT * FROM albums WHERE uuid=?]. *)
Definition select_album (db : list album_row) (uuid : string)
    : option album_row :=
  List.find (λ r, String.eqb (a_uuid r) uuid) db.

(** [insert_album] *)
Definition insert_album (a : account) (uuid path title : string)
    (is_shared : bool) : account :=
  {| acc_world := acc_world a;
     acc_albums := acc_albums a ++ [{| a_uuid := uuid; a_path := path;
                                       a_title := title;
                                       a_is_shared := is_shared |}] |}.

(** A response of [albums().list]. *)
Record albums_page := {
  ap_albums : option (list item);
  ap_nextPageToken : option string
}.

(** A response of [sharedAlbums().list]. *)
Record shared_albums_page := {
  sp_sharedAlbums : option (list item);
  sp_nextPageToken : option string
}.

(** The body of a [mediaItems().search] request: the items of an album,
    or the favourites, from [pageToken] on. *)
Inductive search_body :=
  | ByAlbum (albumId : string) (pageToken : string)
  | ByFavorites (pageToken : string).

(** What a listing function hands back when the bound on the number of
    pages is not reached. *)
Definition listed (A : Type) : Type := option (result A).

Section Service.

Variable E : env.
Variable abspath : string → string.

(** [self.base_dir] *)
Variable directory : string.

(** [mediaItems().list], [albums().list], [sharedAlbums().list] by page
    token ([None] for the first call) and [mediaItems().search] by
    request body. *)
Variable media_list : option string → result page.
Variable albums_list : option string → result albums_page.
Variable shared_albums_list : option string → result shared_albums_page.
Variable media_search : search_body → result page.

Definition lib_dir : string := directory +:+ "/Library".
Definition albums_dir : string := directory +:+ "/Albums".
Definition shared_albums_dir : string := directory +:+ "/Shared Albums".
Definition favorites_dir : string := directory +:+ "/Favorites".

(** The directories [__init__] creates (if not already there), debug
    off. *)
Definition init_directories (σ : filesystem) : result unit * filesystem :=
  safe_mkdirs (os_refuses E) σ
    [directory; lib_dir; albums_dir; shared_albums_dir; favorites_dir].

(** The [while True] loop of [list_albums]. *)
Fixpoint list_albums_loop (fuel : nat) (request : albums_page)
    (album_list : list item) : listed (list item) :=
  match fuel with
  | O => None
  | S fuel' =>
      let album_list :=
        match ap_albums request with
        | Some l => album_list ++ l
        | None => album_list
        end in
      match ap_nextPageToken request with
      | Some next_page =>
          match albums_list (Some next_page) with
          | Ok request' => list_albums_loop fuel' request' album_list
          | Raise ex => Some (Raise ex)
          end
      | None => Some (Ok album_list)
      end
  end.

(** [list_albums], debug off; the empty dict returned for an empty first
    response is the empty sequence. *)
Definition list_albums (fuel : nat) : listed (list item) :=
  match albums_list None with
  | Raise ex => Some (Raise ex)
  | Ok request =>
      match ap_albums request, ap_nextPageToken request with
      | None, None => Some (Ok [])
      | _, _ => list_albums_loop fuel request []
      end
  end.

(** The [while True] loop of [list_shared_albums]:
    [request["sharedAlbums"]] is read without a test for the key. *)
Fixpoint list_shared_albums_loop (fuel : nat) (request : shared_albums_page)
    (shared_album_list : list item) : listed (list item) :=
  match fuel with
  | O => None
  | S fuel' =>
      match sp_sharedAlbums request with
      | None => Some (Raise (KeyError "sharedAlbums"))
      | Some l =>
          let shared_album_list := shared_album_list ++ l in
          match sp_nextPageToken request with
          | Some next_page =>
              match shared_albums_list (Some next_page) with
              | Ok request' =>
                  list_shared_albums_loop fuel' request' shared_album_list
              | Raise ex => Some (Raise ex)
              end
          | None => Some (Ok shared_album_list)
          end
      end
  end.

(** [list_shared_albums], debug off. *)
Definition list_shared_albums (fuel : nat) : listed (list item) :=
  match shared_albums_list None with
  | Raise ex => Some (Raise ex)
  | Ok request =>
      match sp_sharedAlbums request, sp_nextPageToken request with
      | None, None => Some (Ok [])
      | _, _ => list_shared_albums_loop fuel request []
      end
  end.

(** The [while True] loop of [search_favorites] and of
    [download_single_album]: the token of the next page is written into
    the request body [body]. *)
Fixpoint search_loop (body : string → search_body) (fuel : nat)
    (request : page) (found : list item) : listed (list item) :=
  match fuel with
  | O => None
  | S fuel' =>
      let found :=
        match mediaItems request with
        | Some l => found ++ l
        | None => found
        end in
      match nextPageToken request with
      | Some next_page =>
          match media_search (body next_page) with
          | Ok request' => search_loop body fuel' request' found
          | Raise ex => Some (Raise ex)
          end
      | None => Some (Ok found)
      end
  end.

(** [search_favorites], debug off: the first request carries the empty
    token. *)
Definition search_favorites (fuel : nat) : listed (list item) :=
  match media_search (ByFavorites "") with
  | Raise ex => Some (Raise ex)
  | Ok request =>
      if page_is_empty request then Some (Ok [])
      else search_loop ByFavorites fuel request []
  end.

(** [process_media_items] on the listed items, then [download]: the two
    lines of [download_library] and [download_favorites] and the end of
    [download_single_album]. *)
Definition process_and_download (a : account) (media_items : list item)
    (save_directory : string) (album_uuid : option string)
    : result unit * account :=
  match process_media_items E (media (acc_world a)) media_items
          save_directory album_uuid with
  | Raise ex => (Raise ex, a)
  | Ok items => (Ok (), set_world (download E (acc_world a) items) a)
  end.

(** [download_library] *)
Definition download_library (fuel : nat) (a : account)
    : option (result unit * account) :=
  match list_media_items media_list fuel with
  | None => None
  | Some (Raise ex) => Some (Raise ex, a)
  | Some (Ok media_items) =>
      Some (process_and_download a media_items lib_dir None)
  end.

(** [download_favorites] *)
Definition download_favorites (fuel : nat) (a : account)
    : option (result unit * account) :=
  match search_favorites fuel with
  | None => None
  | Some (Raise ex) => Some (Raise ex, a)
  | Some (Ok media_items) =>
      Some (process_and_download a media_items favorites_dir None)
  end.

(** The directory of an album in [download_single_album]: the path of
    its row, or a new directory named after the title, recorded at once. *)
Definition album_directory (a : account) (id title : string) (shared : bool)
    : result string * account :=
  match select_album (acc_albums a) id with
  | Some album_db_entry => (Ok (a_path album_db_entry), a)
  | None =>
      let parent := if shared then shared_albums_dir else albums_dir in
      match auto_mkdir abspath (os_refuses E) (fs (acc_world a))
              (parent +:+ "/" +:+ title) 0 with
      | (Raise ex, σ) => (Raise ex, set_world (set_fs σ (acc_world a)) a)
      | (Ok album_path, σ) =>
          (Ok album_path,
           insert_album (set_world (set_fs σ (acc_world a)) a) id album_path
             title shared)
      end
  end.

(** [download_single_album], debug off.  The assignments to
    [album["title"]] change the dict in place; it is not read again by
    the caller. *)
Definition download_single_album (fuel : nat) (a : account) (album : item)
    (shared : bool) : option (result unit * account) :=
  if negb (bool_decide (is_Some (album !! "mediaItemsCount"))) then
    Some (Ok (), a)
  else
    match as_str (default (JStr "Unnamed Album") (album !! "title")) with
    | Raise ex => Some (Raise ex, a)
    | Ok title0 =>
        let title := sanitize E title0 in
        match getitem album "id" ≫= as_str with
        | Raise ex => Some (Raise ex, a)
        | Ok id =>
            match media_search (ByAlbum id "") with
            | Raise ex => Some (Raise ex, a)
            | Ok request =>
                if page_is_empty request then Some (Ok (), a)
                else
                  match search_loop (ByAlbum id) fuel request [] with
                  | None => None
                  | Some (Raise ex) => Some (Raise ex, a)
                  | Some (Ok album_items) =>
                      match album_directory a id title shared with
                      | (Raise ex, a1) => Some (Raise ex, a1)
                      | (Ok album_path, a1) =>
                          Some (process_and_download a1 album_items
                                  album_path (Some id))
                      end
                  end
            end
        end
    end.

(** The [for] loop of [download_all_albums] and of
    [download_all_shared_albums]. *)
Fixpoint download_albums (fuel : nat) (a : account) (album_list : list item)
    (shared : bool) : option (result unit * account) :=
  match album_list with
  | [] => Some (Ok (), a)
  | album :: rest =>
      match download_single_album fuel a album shared with
      | None => None
      | Some (Raise ex, a') => Some (Raise ex, a')
      | Some (Ok _, a') => download_albums fuel a' rest shared
      end
  end.

(** [download_all_albums] *)
Definition download_all_albums (fuel : nat) (a : account)
    : option (result unit * account) :=
  match list_albums fuel with
  | None => None
  | Some (Raise ex) => Some (Raise ex, a)
  | Some (Ok album_list) => download_albums fuel a album_list false
  end.

(** [download_all_shared_albums] *)
Definition download_all_shared_albums (fuel : nat) (a : account)
    : option (result unit * account) :=
  match list_shared_albums fuel with
  | None => None
  | Some (Raise ex) => Some (Raise ex, a)
  | Some (Ok album_list) => download_albums fuel a album_list true
  end.

End Service.

(** ** Notions about albums and listings *)

(** An albums response, and a shared-albums response, read as a page of
    items. *)
Definition albums_as_page (p : albums_page) : page :=
  {| mediaItems := ap_albums p; nextPageToken := ap_nextPageToken p |}.

Definition shared_as_page (p : shared_albums_page) : page :=
  {| mediaItems := sp_sharedAlbums p; nextPageToken := sp_nextPageToken p |}.

(** A listing call whose responses are read as pages of items. *)
Definition paged {A : Type} (f : A → page) (call : option string → result A)
    (tok : option string) : result page :=
  match call tok with
  | Ok p => Ok (f p)
  | Raise ex => Raise ex
  end.

(** A search whose body carries the page token: the first call carries the
    empty token. *)
Definition searched (media_search : search_body → result page)
    (body : string → search_body) (tok : option string) : result page :=
  media_search (body (default "" tok)).

(** Nothing that exists goes away: files stay files and directories stay
    directories. *)
Definition persists (σ σ' : filesystem) : Prop :=
  ∀ p, match σ !! p with
       | Some (File _) => isfile σ' p = true
       | Some Dir => σ' !! p = Some Dir
       | None => True
       end.

(** The same directories. *)
Definition same_directories (σ σ' : filesystem) : Prop :=
  ∀ p, σ !! p = Some Dir ↔ σ' !! p = Some Dir.

(** Every album row names the absolute path of something that exists. *)
Definition albums_backed (abspath : string → string) (a : account) : Prop :=
  ∀ row, row ∈ acc_albums a →
    ∃ p, a_path row = abspath p ∧ is_Some (fs (acc_world a) !! p).

(** The account only gained: rows were appended to both tables, nothing
    that existed went away and the counter did not fall. *)
Definition extends (a a' : account) : Prop :=
  acc_albums a `prefix_of` acc_albums a' ∧
  media (acc_world a) `prefix_of` media (acc_world a') ∧
  persists (fs (acc_world a)) (fs (acc_world a')) ∧
  downloads (acc_world a) ≤ downloads (acc_world a').

(** The title [download_single_album] works with. *)
Definition album_title (E : env) (album : item) : result string :=
  match as_str (default (JStr "Unnamed Album") (album !! "title")) with
  | Ok title => Ok (sanitize E title)
  | Raise ex => Raise ex
  end.

Module SampleAlbums.

(** An album with a title, one without, and one the account may not
    read. *)
Definition trip : item :=
  {[ "id" := JStr "al1"; "title" := JStr "Trip";
     "mediaItemsCount" := JStr "2" ]}.

Definition untitled : item :=
  {[ "id" := JStr "al2"; "mediaItemsCount" := JStr "1" ]}.

Definition hidden : item :=
  {[ "id" := JStr "al3"; "title" := JStr "Hidden" ]}.

(** A second album with the title of [trip]. *)
Definition trip_again : item :=
  {[ "id" := JStr "al4"; "title" := JStr "Trip";
     "mediaItemsCount" := JStr "1" ]}.

(** The service: [trip] has two pages of one photo each, the other albums
    and the favourites one page. *)
Definition media_search (body : search_body) : result page :=
  match body with
  | ByAlbum albumId pageToken =>
      if String.eqb albumId "al1" then
        if String.eqb pageToken "" then
          Ok {| mediaItems := Some [Sample.photo "a" "a.jpg"];
                nextPageToken := Some "t" |}
        else if String.eqb pageToken "t" then
          Ok {| mediaItems := Some [Sample.photo "b" "b.jpg"];
                nextPageToken := None |}
        else Raise ConnectionError
      else
        Ok {| mediaItems := Some [Sample.photo "c" "c.jpg"];
              nextPageToken := None |}
  | ByFavorites pageToken =>
      if String.eqb pageToken "" then
        Ok {| mediaItems := Some [Sample.photo "a" "a.jpg"];
              nextPageToken := Some "f" |}
      else
        Ok {| mediaItems := Some [Sample.photo "b" "b.jpg"];
              nextPageToken := None |}
  end.

Definition albums_list (tok : option string) : result albums_page :=
  match tok with
  | None => Ok {| ap_albums := Some [trip; hidden];
                  ap_nextPageToken := Some "n" |}
  | Some _ => Ok {| ap_albums := Some [untitled; trip_again];
                    ap_nextPageToken := None |}
  end.

(** A shared-albums listing whose second response has no
    ["sharedAlbums"]. *)
Definition shared_albums_list (tok : option string)
    : result shared_albums_page :=
  match tok with
  | None => Ok {| sp_sharedAlbums := Some [trip];
                  sp_nextPageToken := Some "n" |}
  | Some _ => Ok {| sp_sharedAlbums := None; sp_nextPageToken := None |}
  end.

Definition media_list (tok : option string) : result page :=
  match tok with
  | None => Ok {| mediaItems := Some [Sample.photo "a" "a.jpg"];
                  nextPageToken := None |}
  | Some _ => Raise ConnectionError
  end.

(** The archive in the directory ["arch"] after [__init__]. *)
Definition start : account :=
  {| acc_world :=
       {| fs := {[ "arch" := Dir; "arch/Library" := Dir;
                   "arch/Albums" := Dir; "arch/Shared Albums" := Dir;
                   "arch/Favorites" := Dir ]};
          media := []; downloads := 0; requested := [] |};
     acc_albums := [] |}.

End SampleAlbums.

(** The part of [download_single_album] that does not look at the
    archive: the album is skipped ([Ok None]: no item count, or an empty
    first response), or its identifier, its sanitized title and its items
    are known. *)
Definition album_listing (E : env)
    (media_search : search_body → result page) (fuel : nat) (album : item)
    : listed (option (string * string * list item)) :=
  if negb (bool_decide (is_Some (album !! "mediaItemsCount"))) then
    Some (Ok None)
  else
    match album_title E album with
    | Raise ex => Some (Raise ex)
    | Ok title =>
        match getitem album "id" ≫= as_str with
        | Raise ex => Some (Raise ex)
        | Ok id =>
            match media_search (ByAlbum id "") with
            | Raise ex => Some (Raise ex)
            | Ok request =>
                if page_is_empty request then Some (Ok None)
                else
                  match search_loop media_search (ByAlbum id) fuel request []
                  with
                  | None => None
                  | Some (Raise ex) => Some (Raise ex)
                  | Some (Ok album_items) =>
                      Some (Ok (Some (id, title, album_items)))
                  end
            end
        end
    end.

(** * Properties *)

(** ** Strings *)

Module StrFacts.

#[local] Arguments String.append : simpl nomatch.

Lemma string_length_app (s t : string) :
  String.length (s +:+ t) = String.length s + String.length t.
Proof. induction s as [|a s IH]; simpl; [done | by rewrite IH]. Qed.

Lemma string_app_assoc (s t u : string) : (s +:+ t) +:+ u = s +:+ t +:+ u.
Proof. induction s as [|a s IH]; simpl; [done | by f_equal]. Qed.

Lemma string_app_nil_r (s : string) : s +:+ "" = s.
Proof. induction s as [|a s IH]; simpl; [done | by rewrite IH]. Qed.

(** Two concatenations that agree split at the same place when their
    first parts have the same length. *)
Lemma string_app_inv_length (s1 s2 t1 t2 : string) :
  s1 +:+ t1 = s2 +:+ t2 → String.length s1 = String.length s2 →
  s1 = s2 ∧ t1 = t2.
Proof.
  revert s2; induction s1 as [|a s1 IH]; intros [|b s2]; simpl;
    try done.
  intros [= -> Heq] [= Hlen]. destruct (IH _ Heq Hlen) as [-> ->]. done.
Qed.

Lemma len_app (s t : string) : Py.len (s +:+ t) = Py.len s + Py.len t.
Proof.
  induction s as [|a s IH]; simpl; [done|].
  destruct (Py.continuation a); simpl; by rewrite IH.
Qed.

(** Cutting a string after [k] code points and gluing the halves gives
    it back. *)
Lemma take_drop (k : nat) (s : string) : Py.take k s +:+ Py.drop k s = s.
Proof.
  revert k; induction s as [|a s IH]; intros k; simpl; [done|].
  destruct (Py.continuation a); simpl; [by rewrite IH|].
  destruct k as [|k]; simpl; [done | by rewrite IH].
Qed.

(** The code points of [s] end where the next code point begins. *)
Lemma take_app_lead (s t : string) (a : ascii) :
  Py.continuation a = false → Py.take (Py.len s) (s +:+ String a t) = s.
Proof.
  intros Ha. induction s as [|b s IH]; simpl; [by rewrite Ha|].
  destruct (Py.continuation b); simpl; by rewrite IH.
Qed.

Lemma drop_app_lead (s t : string) (a : ascii) :
  Py.continuation a = false →
  Py.drop (Py.len s) (s +:+ String a t) = String a t.
Proof.
  intros Ha. induction s as [|b s IH]; simpl; [by rewrite Ha|].
  destruct (Py.continuation b); simpl; by rewrite IH.
Qed.

(** One code point is a leading byte and the bytes that continue it. *)
Lemma one_char_inv (c : string) :
  Py.one_char c = true →
  ∃ a rest, c = String a rest ∧ Py.continuation a = false ∧
            Py.len rest = 0 ∧ Py.len c = 1.
Proof.
  destruct c as [|a rest]; [done|]. simpl.
  intros [Ha Hrest%Nat.eqb_eq]%andb_true_iff.
  apply negb_true_iff in Ha. exists a, rest. by rewrite Ha, Hrest.
Qed.

(** A string with a code point ends with one. *)
Lemma last_char (s : string) :
  0 < Py.len s → ∃ body c, s = body +:+ c ∧ Py.one_char c = true.
Proof.
  induction s as [|a s IH]; simpl; [lia|]. intros Hlen.
  destruct (decide (Py.len s = 0)) as [Hzero|Hpos].
  - exists "", (String a s). split; [done|]. simpl.
    destruct (Py.continuation a); [lia|]. by rewrite Hzero.
  - destruct IH as (body & c & -> & Hc); [lia|].
    by exists (String a body), c.
Qed.

Lemma bound_le (len : nat) (i : Z) : Py.bound len i ≤ len.
Proof. unfold Py.bound. destruct (Z.ltb_spec i 0); lia. Qed.

Lemma bound_of_nat (len k : nat) :
  k ≤ len → Py.bound len (Z.of_nat k) = k.
Proof. intros Hk. unfold Py.bound. destruct (Z.ltb_spec (Z.of_nat k) 0); lia. Qed.

Lemma bound_minus_one (len : nat) : Py.bound (S len) (-1) = len.
Proof. unfold Py.bound. destruct (Z.ltb_spec (-1) 0); lia. Qed.

(** [s[:i] + s[i:] == s], for every index. *)
Lemma slice_join (s : string) (i : Z) :
  Py.slice_to s i +:+ Py.slice_from s i = s.
Proof. apply take_drop. Qed.

(** Slicing at the index of a code point. *)
Lemma slice_to_app (s t : string) (a : ascii) :
  Py.continuation a = false →
  Py.slice_to (s +:+ String a t) (Z.of_nat (Py.len s)) = s.
Proof.
  intros Ha. unfold Py.slice_to. rewrite len_app, bound_of_nat by lia.
  by apply take_app_lead.
Qed.

Lemma slice_from_app (s t : string) (a : ascii) :
  Py.continuation a = false →
  Py.slice_from (s +:+ String a t) (Z.of_nat (Py.len s)) = String a t.
Proof.
  intros Ha. unfold Py.slice_from. rewrite len_app, bound_of_nat by lia.
  by apply drop_app_lead.
Qed.

(** The index [-1] cuts before the last code point. *)
Lemma slice_to_last (s c : string) :
  Py.one_char c = true → Py.slice_to (s +:+ c) (-1) = s.
Proof.
  intros (a & rest & -> & Ha & _ & Hone)%one_char_inv.
  unfold Py.slice_to. rewrite len_app, Hone, Nat.add_1_r, bound_minus_one.
  by apply take_app_lead.
Qed.

Lemma slice_from_last (s c : string) :
  Py.one_char c = true → Py.slice_from (s +:+ c) (-1) = c.
Proof.
  intros (a & rest & -> & Ha & _ & Hone)%one_char_inv.
  unfold Py.slice_from. rewrite len_app, Hone, Nat.add_1_r, bound_minus_one.
  by apply drop_app_lead.
Qed.

Lemma has_char_app (c : ascii) (s t : string) :
  Py.has_char c (s +:+ t) = Py.has_char c s || Py.has_char c t.
Proof.
  induction s as [|a s IH]; simpl; [done|].
  by rewrite IH, orb_assoc.
Qed.


(** [rfind] answers [-1] exactly when the character does not occur. *)
Lemma rfind_from_absent (c : ascii) (s : string) (i : Z) :
  Py.has_char c s = false → Py.rfind_from c s i = (-1)%Z.
Proof.
  revert i; induction s as [|a s IH]; intros i; simpl; [done|].
  intros [Ha Hs]%orb_false_iff.
  destruct (Py.continuation a); [by apply IH|]. by rewrite IH, Ha.
Qed.

(** The last occurrence: after it the character does not occur.  Its
    index is the number of code points before it. *)
Lemma rfind_from_last (c : ascii) (s t : string) (i : Z) :
  Py.continuation c = false → (0 ≤ i)%Z → Py.has_char c t = false →
  Py.rfind_from c (s +:+ String c t) i = (i + Z.of_nat (Py.len s))%Z.
Proof.
  intros Hc. revert i; induction s as [|a s IH]; intros i Hi Ht; simpl.
  - rewrite Hc, rfind_from_absent by done. simpl.
    rewrite Ascii.eqb_refl. lia.
  - destruct (Py.continuation a); [by apply IH|].
    rewrite IH by (done || lia).
    destruct (Z.leb_spec 0 (i + 1 + Z.of_nat (Py.len s))); lia.
Qed.

Lemma rfind_absent (c : ascii) (s : string) :
  Py.has_char c s = false → Py.rfind c s = (-1)%Z.
Proof. apply rfind_from_absent. Qed.

Lemma rfind_last (c : ascii) (s t : string) :
  Py.continuation c = false → Py.has_char c t = false →
  Py.rfind c (s +:+ String c t) = Z.of_nat (Py.len s).
Proof. intros Hc Ht. unfold Py.rfind. by rewrite rfind_from_last. Qed.

End StrFacts.

(** ** Candidate names and the search for a free one *)

Section FirstFree.

Variable occupied : string → bool.
Variable cand : nat → string.

Lemma first_free_some (fuel i n : nat) :
  first_free occupied cand fuel i = Some n → least_free occupied cand i n.
Proof.
  revert i; induction fuel as [|fuel IH]; intros i; simpl; [done|].
  destruct (occupied (cand i)) eqn:Hi.
  - intros (Hle & Hfree & Hocc)%IH. split_and!; [lia | done |].
    intros k Hk. destruct (decide (k = i)) as [->|]; [done|].
    apply Hocc. lia.
  - intros [= <-]. split_and!; [lia | done | intros k Hk; lia].
Qed.

Lemma first_free_none (fuel i : nat) :
  first_free occupied cand fuel i = None →
  ∀ k, i ≤ k < i + fuel → occupied (cand k) = true.
Proof.
  revert i; induction fuel as [|fuel IH]; intros i; simpl.
  - intros _ k Hk. lia.
  - destruct (occupied (cand i)) eqn:Hi; [|done].
    intros Hnone k Hk. destruct (decide (k = i)) as [->|]; [done|].
    apply (IH _ Hnone). lia.
Qed.

Lemma least_free_unique (i n m : nat) :
  least_free occupied cand i n → least_free occupied cand i m → n = m.
Proof.
  intros (Hn & Hfn & Hon) (Hm & Hfm & Hom).
  destruct (Nat.lt_trichotomy n m) as [Hlt|[->|Hlt]]; [|done|].
  - rewrite Hom in Hfn by lia. done.
  - rewrite Hon in Hfm by lia. done.
Qed.

(** With enough fuel the search finds the first free candidate. *)
Lemma first_free_complete (fuel i n : nat) :
  least_free occupied cand i n → n < i + fuel →
  first_free occupied cand fuel i = Some n.
Proof.
  intros Hn Hfuel.
  destruct (first_free occupied cand fuel i) as [m|] eqn:Hm.
  - f_equal. eapply least_free_unique; [|done].
    by eapply first_free_some.
  - destruct Hn as (Hle & Hfree & _).
    rewrite (first_free_none _ _ Hm n) in Hfree by lia. done.
Qed.

End FirstFree.

(** Distinct candidates cannot all be names of a finite file system. *)
Lemma first_free_in_filesystem (σ : filesystem) (cand : nat → string)
    (i : nat) :
  Inj (=) (=) cand →
  ∃ n, first_free (path_exists σ) cand (S (size σ)) i = Some n.
Proof.
  intros Hinj.
  destruct (first_free (path_exists σ) cand (S (size σ)) i) as [n|] eqn:Hff;
    [by eexists|].
  exfalso.
  pose proof (first_free_none _ _ _ _ Hff) as Hocc.
  set (names := cand <$> seq i (S (size σ))).
  assert (Hsub : list_to_set (C := gset string) names ⊆ dom σ).
  { intros p [k [-> Hk%elem_of_seq]]%elem_of_list_to_set%list_elem_of_fmap.
    apply elem_of_dom. specialize (Hocc k Hk).
    unfold path_exists in Hocc. destruct (σ !! cand k); [by eexists | done]. }
  apply subseteq_size in Hsub.
  rewrite size_list_to_set, size_dom in Hsub.
  - unfold names in Hsub. rewrite length_fmap, length_seq in Hsub. lia.
  - apply NoDup_fmap_2; [done | apply NoDup_seq].
Qed.

Module NameFacts.

Import StrFacts.
#[local] Arguments String.append : simpl nomatch.

Lemma string_app_inj_r (s t u : string) : s +:+ u = t +:+ u → s = t.
Proof.
  intros Heq. apply (string_app_inv_length s t u u Heq).
  apply (f_equal String.length) in Heq. rewrite !string_length_app in Heq. lia.
Qed.

(** The suffix [" (n)"] determines [n]. *)
Lemma suffix_inj (i j : nat) (rest : string) :
  " (" +:+ Py.str i +:+ ")" +:+ rest = " (" +:+ Py.str j +:+ ")" +:+ rest →
  i = j.
Proof.
  intros Heq. simpl in Heq. injection Heq as Heq.
  apply (inj (pretty (A := nat))).
  apply (string_app_inj_r _ _ (")" +:+ rest)). done.
Qed.

(** A name and the same name with a suffix differ. *)
Lemma suffixed_neq (path d rest : string) :
  path ≠ path +:+ " (" +:+ d +:+ rest.
Proof.
  intros Heq%(f_equal String.length).
  rewrite !string_length_app in Heq. simpl in Heq. lia.
Qed.

#[export] Instance mkdir_candidate_inj (path : string) :
  Inj (=) (=) (mkdir_candidate path).
Proof.
  intros [|i] [|j] Heq; simpl in Heq; [done | | |].
  - by apply suffixed_neq in Heq.
  - symmetry in Heq. by apply suffixed_neq in Heq.
  - apply (inj (String.append path)) in Heq.
    apply (suffix_inj (S i) (S j) ""). by rewrite !string_app_nil_r.
Qed.

#[export] Instance filename_candidate_inj (path : string) :
  Inj (=) (=) (filename_candidate path).
Proof.
  assert (Hlen : ∀ n, path ≠ filename_candidate path (S n)).
  { intros n Heq. unfold filename_candidate in Heq.
    rewrite <- (slice_join path (Py.rfind "." path)) in Heq at 1.
    apply (inj (String.append _)) in Heq.
    apply (f_equal String.length) in Heq.
    rewrite !string_length_app in Heq. simpl in Heq. lia. }
  intros [|i] [|j] Heq; [done | | |].
  - by apply Hlen in Heq.
  - symmetry in Heq. by apply Hlen in Heq.
  - simpl in Heq. apply (inj (String.append _)) in Heq.
    by apply suffix_inj in Heq.
Qed.

(** The recursive functions are the search over their candidates. *)
Lemma auto_filename_go_search (fuel : nat) (σ : filesystem) (path : string)
    (i : nat) :
  auto_filename_go fuel σ path i =
  filename_candidate path
    <$> first_free (path_exists σ) (filename_candidate path) fuel i.
Proof.
  revert i; induction fuel as [|fuel IH]; intros i; [done|].
  cbn [auto_filename_go first_free]. rewrite IH.
  change (match i with
          | 0 => path
          | S _ => _
          end) with (filename_candidate path i).
  by destruct (path_exists σ (filename_candidate path i)).
Qed.

Lemma auto_mkdir_go_search (abspath : string → string)
    (refuses : string → bool) (fuel : nat) (σ : filesystem) (path : string)
    (i : nat) :
  auto_mkdir_go abspath refuses fuel σ path i =
  (λ n, match os_mkdir refuses σ (mkdir_candidate path n) with
        | Ok σ' => (Ok (abspath (mkdir_candidate path n)), σ')
        | Raise e => (Raise e, σ)
        end)
    <$> first_free (path_exists σ) (mkdir_candidate path) fuel i.
Proof.
  revert i; induction fuel as [|fuel IH]; intros i; [done|].
  cbn [auto_mkdir_go first_free]. rewrite IH.
  change (match i with
          | 0 => path
          | S _ => _
          end) with (mkdir_candidate path i).
  destruct (path_exists σ (mkdir_candidate path i)); simpl; [done|].
  by destruct (os_mkdir refuses σ (mkdir_candidate path i)).
Qed.

(** The recursion of [auto_filename] ends within [size σ + 1] calls. *)
Lemma auto_filename_go_total (σ : filesystem) (path : string) (i : nat) :
  ∃ p, auto_filename_go (S (size σ)) σ path i = Some p.
Proof.
  rewrite auto_filename_go_search.
  destruct (first_free_in_filesystem σ (filename_candidate path) i)
    as [n ->]; [apply _|]. by eexists.
Qed.

(** The recursion of [auto_mkdir] ends within [size σ + 1] calls. *)
Lemma auto_mkdir_go_total (abspath : string → string)
    (refuses : string → bool) (σ : filesystem) (path : string) (i : nat) :
  ∃ r, auto_mkdir_go abspath refuses (S (size σ)) σ path i = Some r.
Proof.
  rewrite auto_mkdir_go_search.
  destruct (first_free_in_filesystem σ (mkdir_candidate path) i)
    as [n ->]; [apply _|]. by eexists.
Qed.

(** [auto_filename] returns the first free candidate. *)
Lemma auto_filename_least (σ : filesystem) (path : string) (i : nat) :
  ∃ n, least_free (path_exists σ) (filename_candidate path) i n ∧
       auto_filename σ path i = filename_candidate path n.
Proof.
  unfold auto_filename. rewrite auto_filename_go_search.
  destruct (first_free_in_filesystem σ (filename_candidate path) i)
    as [n Hn]; [apply _|].
  rewrite Hn. exists n. split; [|done]. by eapply first_free_some.
Qed.

Lemma auto_filename_fresh (σ : filesystem) (path : string) (i : nat) :
  σ !! auto_filename σ path i = None.
Proof.
  destruct (auto_filename_least σ path i) as (n & (_ & Hfree & _) & ->).
  unfold path_exists in Hfree. by destruct (σ !! _).
Qed.

Lemma auto_filename_free (σ : filesystem) (path : string) :
  σ !! path = None → auto_filename σ path 0 = path.
Proof.
  intros Hfree. unfold auto_filename.
  cbn [auto_filename_go]. unfold path_exists. by rewrite Hfree.
Qed.

(** [auto_mkdir] creates the first free candidate, when the operating
    system lets it. *)
Lemma auto_mkdir_least (abspath : string → string)
    (refuses : string → bool) (σ : filesystem) (path : string) (i : nat) :
  ∃ n, least_free (path_exists σ) (mkdir_candidate path) i n ∧
       auto_mkdir abspath refuses σ path i =
         if refuses (mkdir_candidate path n)
         then (Raise (OSError (mkdir_candidate path n)), σ)
         else (Ok (abspath (mkdir_candidate path n)),
               <[mkdir_candidate path n := Dir]> σ).
Proof.
  unfold auto_mkdir. rewrite auto_mkdir_go_search.
  destruct (first_free_in_filesystem σ (mkdir_candidate path) i)
    as [n Hn]; [apply _|].
  rewrite Hn. exists n.
  pose proof (first_free_some _ _ _ _ _ Hn) as Hleast.
  split; [done|]. destruct Hleast as (_ & Hfree & _).
  simpl. unfold os_mkdir. rewrite Hfree. simpl.
  by destruct (refuses (mkdir_candidate path n)).
Qed.

End NameFacts.

Import StrFacts NameFacts.

Section NamingTheorems.

#[local] Arguments String.append : simpl nomatch.

Lemma least_free_from_1 (σ : filesystem) (cand : nat → string) (n : nat) :
  is_Some (σ !! cand 0) → least_free (path_exists σ) cand 0 n →
  1 ≤ n ∧ σ !! cand n = None ∧ ∀ k, 1 ≤ k < n → is_Some (σ !! cand k).
Proof.
  intros [x Hx] (_ & Hfree & Hocc). unfold path_exists in *.
  split_and!.
  - destruct n; [|lia]. by rewrite Hx in Hfree.
  - by destruct (σ !! cand n).
  - intros k Hk. specialize (Hocc k). destruct (σ !! cand k); [done|].
    discriminate Hocc. lia.
Qed.

Lemma mkdir_candidate_S (path : string) (n : nat) :
  1 ≤ n → mkdir_candidate path n = suffixed path n.
Proof. by destruct n; [lia|]. Qed.

Variable abspath : string → string.
Variable refuses : string → bool.
Hypothesis permitted : ∀ p, refuses p = false.

Lemma auto_mkdir_absent (σ : filesystem) (path : string) :
  σ !! path = None →
  auto_mkdir abspath refuses σ path 0 =
    (Ok (abspath path), <[path := Dir]> σ).
Proof.
  intros Hfree. unfold auto_mkdir. cbn [auto_mkdir_go].
  unfold path_exists, os_mkdir, path_exists. by rewrite Hfree, permitted.
Qed.

Lemma auto_mkdir_present (σ : filesystem) (path : string) :
  is_Some (σ !! path) →
  ∃ n, 1 ≤ n ∧ σ !! suffixed path n = None ∧
       (∀ k, 1 ≤ k < n → is_Some (σ !! suffixed path k)) ∧
       auto_mkdir abspath refuses σ path 0 =
         (Ok (abspath (suffixed path n)), <[suffixed path n := Dir]> σ).
Proof.
  intros Hpath.
  destruct (auto_mkdir_least abspath refuses σ path 0) as (n & Hn & ->).
  apply least_free_from_1 in Hn as (Hn & Hfree & Hocc); [|done].
  exists n. rewrite permitted, <- mkdir_candidate_S by done.
  split_and!; [done.. | | done].
  intros k Hk. rewrite <- mkdir_candidate_S by lia. by apply Hocc.
Qed.

End NamingTheorems.

(** C6.  [auto_mkdir] (the spec's [ensureDirectory]), when the operating
    system refuses no directory: an absent base path is created and its
    absolute path returned; a present one makes the function create and
    return the first of [path (1)], [path (2)], ... that does not exist;
    called twice for the same free title it creates two different
    directories, the second one being [path (1)]. *)
Theorem auto_mkdir_collision_safe (abspath : string → string)
    (refuses : string → bool) (σ : filesystem) (path : string) :
  (∀ p, refuses p = false) →
  (σ !! path = None →
     auto_mkdir abspath refuses σ path 0 =
       (Ok (abspath path), <[path := Dir]> σ)) ∧
  (is_Some (σ !! path) →
     ∃ n, 1 ≤ n ∧ σ !! suffixed path n = None ∧
          (∀ k, 1 ≤ k < n → is_Some (σ !! suffixed path k)) ∧
          auto_mkdir abspath refuses σ path 0 =
            (Ok (abspath (suffixed path n)),
             <[suffixed path n := Dir]> σ)) ∧
  (σ !! path = None → σ !! (path +:+ " (1)") = None →
     ∃ σ1 σ2,
       auto_mkdir abspath refuses σ path 0 = (Ok (abspath path), σ1) ∧
       auto_mkdir abspath refuses σ1 path 0 =
         (Ok (abspath (path +:+ " (1)")), σ2) ∧
       path ≠ path +:+ " (1)" ∧
       σ2 !! path = Some Dir ∧ σ2 !! (path +:+ " (1)") = Some Dir).
Proof.
  intros permitted. split_and!.
  - by apply auto_mkdir_absent.
  - by apply auto_mkdir_present.
  - intros Hfree Hfree1.
    assert (Hneq : path ≠ path +:+ " (1)") by apply (suffixed_neq path "1" ")").
    exists (<[path := Dir]> σ),
           (<[path +:+ " (1)" := Dir]> (<[path := Dir]> σ)).
    split_and!; [by apply auto_mkdir_absent | | done | |].
    + destruct (auto_mkdir_present abspath refuses permitted
                  (<[path := Dir]> σ) path) as (n & Hn & Hnone & Hocc & ->).
      { rewrite lookup_insert_eq. by eexists. }
      destruct (decide (n = 1)) as [->|]; [done|].
      destruct (Hocc 1) as [x Hx]; [lia|].
      change (suffixed path 1) with (path +:+ " (1)") in Hx.
      rewrite lookup_insert_ne, Hfree1 in Hx by done. done.
    + rewrite lookup_insert_ne by done. apply lookup_insert_eq.
    + apply lookup_insert_eq.
Qed.

Lemma auto_mkdir_collision_safe_witness :
  let σ : filesystem := {[ "Albums" := Dir; "Albums/Trip" := Dir;
                           "Albums/Trip (1)" := Dir ]} in
  auto_mkdir id (λ _, false) σ "Albums/Trip" 0 =
    (Ok "Albums/Trip (2)", <["Albums/Trip (2)" := Dir]> σ) ∧
  auto_mkdir id (λ _, false) σ "Albums/Rome" 0 =
    (Ok "Albums/Rome", <["Albums/Rome" := Dir]> σ).
Proof.
  intros σ.
  destruct (auto_mkdir_collision_safe id (λ _, false) σ "Albums/Trip")
    as (_ & Hpresent & _); [done|].
  destruct (auto_mkdir_collision_safe id (λ _, false) σ "Albums/Rome")
    as (Habsent & _ & _); [done|].
  split; [|by apply Habsent].
  destruct Hpresent as (n & Hn & Hnone & Hocc & ->); [by eexists|].
  destruct (decide (n = 2)) as [->|Hne]; [done|].
  exfalso. destruct (decide (n = 1)) as [->|Hne1]; [done|].
  destruct (Hocc 2) as [x Hx]; [lia | done].
Defined.

Section FilenameTheorems.

#[local] Arguments String.append : simpl nomatch.

(** The candidates of a path without ["."]: the suffix goes before the
    last character. *)
Lemma filename_candidate_no_dot (body c : string) (n : nat) :
  Py.one_char c = true →
  Py.has_char "." (body +:+ c) = false → 1 ≤ n →
  filename_candidate (body +:+ c) n =
    body +:+ " (" +:+ Py.str n +:+ ")" +:+ c.
Proof.
  intros Hc Hdot Hn. destruct n as [|n]; [lia|].
  unfold filename_candidate.
  by rewrite rfind_absent, slice_to_last, slice_from_last.
Qed.

(** The candidates of a path with an extension: the suffix goes before
    the last ["."]. *)
Lemma filename_candidate_dot (stem ext : string) (n : nat) :
  Py.has_char "." ext = false → 1 ≤ n →
  filename_candidate (stem +:+ "." +:+ ext) n =
    stem +:+ " (" +:+ Py.str n +:+ ")" +:+ "." +:+ ext.
Proof.
  intros Hdot Hn. destruct n as [|n]; [lia|].
  unfold filename_candidate.
  change ("." +:+ ext) with (String "." ext).
  by rewrite rfind_last, slice_to_app, slice_from_app.
Qed.

(** Inserting before the last character is not appending. *)
Lemma inserted_not_appended (body d c : string) :
  Py.one_char c = true →
  body +:+ " (" +:+ d +:+ ")" +:+ c ≠ (body +:+ c) +:+ " (" +:+ d +:+ ")".
Proof.
  intros (a & rest & -> & Ha & Hrest & _)%one_char_inv.
  rewrite string_app_assoc. intros Heq%(inj (String.append body)).
  simpl in Heq. injection Heq as <- Heq.
  destruct rest as [|b rest]; simpl in Heq; [by destruct d|].
  injection Heq as <- _. simpl in Hrest. done.
Qed.

End FilenameTheorems.

(** C10.  [auto_filename] on a path that exists.  When the path contains no
    ["."], [rfind] answers [-1] and the suffix [" (n)"] is inserted before
    the last character of the path (its last code point, whatever the
    number of its bytes), which is not the path with the suffix appended;
    every path that has a character ends with one.  When the path has an
    extension, the suffix is inserted before the ["."] of the extension.
    In both cases [n >= 1] is the first number whose name is free. *)
Theorem auto_filename_suffix_position (σ : filesystem) :
  (∀ (body c : string),
     Py.one_char c = true →
     Py.has_char "." (body +:+ c) = false →
     is_Some (σ !! (body +:+ c)) →
     Py.rfind "." (body +:+ c) = (-1)%Z ∧
     ∃ n, 1 ≤ n ∧
       auto_filename σ (body +:+ c) 0 =
         body +:+ " (" +:+ Py.str n +:+ ")" +:+ c ∧
       auto_filename σ (body +:+ c) 0 ≠
         (body +:+ c) +:+ " (" +:+ Py.str n +:+ ")" ∧
       σ !! (body +:+ " (" +:+ Py.str n +:+ ")" +:+ c) = None ∧
       ∀ k, 1 ≤ k < n →
         is_Some (σ !! (body +:+ " (" +:+ Py.str k +:+ ")" +:+ c)))
  ∧
  (∀ path : string,
     0 < Py.len path →
     ∃ body c, path = body +:+ c ∧ Py.one_char c = true)
  ∧
  (∀ (stem ext : string),
     Py.has_char "." ext = false →
     is_Some (σ !! (stem +:+ "." +:+ ext)) →
     ∃ n, 1 ≤ n ∧
       auto_filename σ (stem +:+ "." +:+ ext) 0 =
         stem +:+ " (" +:+ Py.str n +:+ ")" +:+ "." +:+ ext ∧
       σ !! (stem +:+ " (" +:+ Py.str n +:+ ")" +:+ "." +:+ ext) = None ∧
       ∀ k, 1 ≤ k < n →
         is_Some (σ !! (stem +:+ " (" +:+ Py.str k +:+ ")" +:+ "." +:+ ext))).
Proof.
  split_and!.
  - intros body c Hc Hdot Hpath. split; [by apply rfind_absent|].
    destruct (auto_filename_least σ (body +:+ c) 0) as (n & Hn & Heq).
    apply least_free_from_1 in Hn as (Hn & Hfree & Hocc); [|done].
    exists n. rewrite Heq.
    rewrite filename_candidate_no_dot in Hfree |- * by done.
    split_and!; [done | done | by apply inserted_not_appended | done |].
    intros k Hk. rewrite <- filename_candidate_no_dot by (done || lia).
    by apply Hocc.
  - apply last_char.
  - intros stem ext Hdot Hpath.
    destruct (auto_filename_least σ (stem +:+ "." +:+ ext) 0)
      as (n & Hn & Heq).
    apply least_free_from_1 in Hn as (Hn & Hfree & Hocc); [|done].
    exists n. rewrite Heq.
    rewrite filename_candidate_dot in Hfree |- * by done.
    split_and!; [done | done | done |].
    intros k Hk. rewrite <- filename_candidate_dot by (done || lia).
    by apply Hocc.
Qed.


Lemma auto_filename_suffix_position_witness :
  let σ : filesystem := {[ "Library/README" := File "x";
                           "Library/caf" +:+ e_acute := File "w";
                           "Library/a.tar.gz" := File "y";
                           "Library/a.tar (1).gz" := File "z" ]} in
  auto_filename σ "Library/README" 0 = "Library/READM (1)E" ∧
  auto_filename σ ("Library/caf" +:+ e_acute) 0
    = "Library/caf (1)" +:+ e_acute ∧
  auto_filename σ "Library/a.tar.gz" 0 = "Library/a.tar (2).gz".
Proof.
  intros σ.
  destruct (auto_filename_suffix_position σ) as (Hplain & _ & Hext).
  split_and!.
  - destruct (Hplain "Library/READM" "E")
      as (_ & n & Hn & Heq & _ & _ & Hocc);
      [reflexivity | vm_compute; reflexivity | by eexists |].
    assert (n = 1) as ->.
    { destruct (decide (n = 1)) as [|Hne]; [assumption|]. exfalso.
      destruct (Hocc 1) as [x Hx]; [lia|].
      clear -Hx. vm_compute in Hx. discriminate Hx. }
    exact Heq.
  - destruct (Hplain "Library/caf" e_acute)
      as (_ & n & Hn & Heq & _ & _ & Hocc);
      [reflexivity | vm_compute; reflexivity | by eexists |].
    assert (n = 1) as ->.
    { destruct (decide (n = 1)) as [|Hne]; [assumption|]. exfalso.
      destruct (Hocc 1) as [x Hx]; [lia|].
      clear -Hx. vm_compute in Hx. discriminate Hx. }
    exact Heq.
  - destruct (Hext "Library/a.tar" "gz")
      as (n & Hn & Heq & Hfree & Hocc);
      [vm_compute; reflexivity | by eexists |].
    assert (n = 2) as ->.
    { destruct (decide (n = 2)) as [|Hne]; [assumption|]. exfalso.
      destruct (decide (n = 1)) as [->|Hne1].
      - clear -Hfree. vm_compute in Hfree. discriminate Hfree.
      - destruct (Hocc 2) as [x Hx]; [lia|].
        clear -Hx. vm_compute in Hx. discriminate Hx. }
    exact Heq.
Defined.

(** ** Pagination *)

Section PaginationFacts.

Variable list_call : option string → result page.

(** Reading on from a page that the service serves. *)
Lemma list_loop_serves (fuel : nat) (tok : option string) (p : page)
    (rest : list page) (acc : list item) :
  serves list_call tok (p :: rest) → length rest < fuel →
  list_loop list_call fuel p acc = Some (Ok (acc ++ items_of (p :: rest))).
Proof.
  revert tok p acc fuel.
  induction rest as [|q rest IH]; intros tok p acc fuel Hs Hfuel;
    (destruct fuel as [|fuel]; [simpl in Hfuel; lia|]).
  - destruct Hs as [_ Hlast]. cbn [list_loop]. rewrite Hlast.
    unfold items_of. simpl.
    destruct (mediaItems p); simpl; by rewrite ?app_nil_r.
  - destruct Hs as [_ Hnext]. cbn [list_loop].
    destruct (nextPageToken p) as [t|]; [|done].
    pose proof Hnext as [Hq _]. rewrite Hq.
    rewrite (IH (Some t)) by (done || simpl in Hfuel; lia).
    unfold items_of. cbn [fmap list_fmap concat].
    destruct (mediaItems p); simpl; by rewrite ?app_assoc.
Qed.

Lemma items_of_empty_page (p : page) :
  page_is_empty p = true → items_of [p] = [].
Proof.
  unfold page_is_empty, items_of. simpl.
  by destruct (mediaItems p), (nextPageToken p).
Qed.

End PaginationFacts.

(** C5.  [list_media_items] (the spec's [fetchAll]): when the service
    serves the collection as the pages [pages], the loop returns the items
    of all pages in page order, provided it may read that many pages; three
    pages of 100, 100 and 37 items give 237 items; and a first response
    that is the empty dict gives the empty result at once, whatever the
    bound and whatever the service would answer to later calls. *)
Theorem list_media_items_complete (list_call : option string → result page) :
  (∀ (pages : list page) (fuel : nat),
     serves list_call None pages → length pages ≤ fuel →
     list_media_items list_call fuel = Some (Ok (items_of pages))) ∧
  (∀ (l1 l2 l3 : list item) (t1 t2 : string) (fuel : nat),
     length l1 = 100 → length l2 = 100 → length l3 = 37 →
     serves list_call None
       [ {| mediaItems := Some l1; nextPageToken := Some t1 |};
         {| mediaItems := Some l2; nextPageToken := Some t2 |};
         {| mediaItems := Some l3; nextPageToken := None |} ] →
     3 ≤ fuel →
     list_media_items list_call fuel = Some (Ok (l1 ++ l2 ++ l3)) ∧
     length (l1 ++ l2 ++ l3) = 237) ∧
  (∀ (request : page) (fuel : nat),
     list_call None = Ok request → page_is_empty request = true →
     list_media_items list_call fuel = Some (Ok [])).
Proof.
  assert (Hall : ∀ (pages : list page) (fuel : nat),
     serves list_call None pages → length pages ≤ fuel →
     list_media_items list_call fuel = Some (Ok (items_of pages))).
  { intros [|p rest] fuel Hs Hfuel; [done|].
    unfold list_media_items. pose proof Hs as [Hp Hrest]. rewrite Hp.
    destruct (page_is_empty p) eqn:Hempty.
    - destruct rest as [|q rest].
      + by rewrite items_of_empty_page.
      + unfold page_is_empty in Hempty.
        destruct (mediaItems p), (nextPageToken p); done.
    - erewrite list_loop_serves; [done | done |]. simpl in Hfuel. lia. }
  split_and!.
  - exact Hall.
  - intros l1 l2 l3 t1 t2 fuel H1 H2 H3 Hs Hfuel. split.
    + rewrite (Hall _ _ Hs Hfuel). unfold items_of. simpl.
      by rewrite app_nil_r.
    + rewrite !length_app. lia.
  - intros request fuel Hcall Hempty. unfold list_media_items.
    by rewrite Hcall, Hempty.
Qed.

Lemma list_media_items_complete_witness :
  let photo : item := {[ "id" := JStr "p" ]} in
  let list_call (tok : option string) : result page :=
    match tok with
    | None =>
        Ok {| mediaItems := Some (replicate 100 photo);
              nextPageToken := Some "t1" |}
    | Some "t1" =>
        Ok {| mediaItems := Some (replicate 100 photo);
              nextPageToken := Some "t2" |}
    | Some "t2" =>
        Ok {| mediaItems := Some (replicate 37 photo);
              nextPageToken := None |}
    | Some _ => Raise ConnectionError
    end in
  list_media_items list_call 3 =
    Some (Ok (replicate 100 photo ++ replicate 100 photo
                ++ replicate 37 photo)).
Proof.
  intros photo list_call.
  destruct (list_media_items_complete list_call) as (_ & Hthree & _).
  apply (Hthree _ _ _ "t1" "t2" 3).
  - apply length_replicate.
  - apply length_replicate.
  - apply length_replicate.
  - repeat split.
  - apply Nat.le_refl.
Defined.

(** ** The item processor *)

Section ProcessorFacts.

Variable E : env.
Variable db : list media_row.
Variable save_directory : string.
Variable album_uuid : option string.

Lemma bind_ok {A B} (r : result A) (k : A → result B) (b : B) :
  r ≫= k = Ok b ↔ ∃ a, r = Ok a ∧ k a = Ok b.
Proof.
  destruct r as [a|e]; simpl.
  - split; [by exists a | by intros (? & [= ->] & ?)].
  - split; [done | by intros (? & ? & ?)].
Qed.

(** What a turn of the loop answers, by the item's MIME type. *)
Lemma process_media_item_media (it : item) (e : entry) :
  process_media_item E db save_directory album_uuid it = Ok (Some e) →
  is_media it = true ∧ e_uuid e = item_id it ∧
  e_album_uuid e = album_uuid ∧
  e_description e = it !! "description" ∧
  (∃ base, e_url e = base +:+ "=d" ∨ e_url e = base +:+ "=dv") ∧
  e_path e =
    match select_media_item db (item_id it) with
    | Some row => row_path row
    | None =>
        match it !! "filename" with
        | Some (JStr filename) =>
            save_directory +:+ "/" +:+ sanitize E filename
        | _ => ""
        end
    end.
Proof.
  unfold process_media_item, is_media, item_id, getitem, subscript, getitem.
  destruct (it !! "id") as [[id|?]|]; simpl; try done.
  destruct (select_media_item db id) as [row|]; simpl;
    [|destruct (it !! "filename") as [[filename|?]|]; simpl; try done];
    (destruct (it !! "mimeType") as [mime|]; simpl; [|done]);
    (destruct (py_in "image" mime); simpl;
     [|destruct (py_in "video" mime); simpl; [|done]]);
    (destruct (it !! "baseUrl") as [[base|?]|]; simpl; try done);
    (destruct (it !! "mediaMetadata") as [[?|md]|]; simpl; try done);
    (destruct (md !! "creationTime") as [ct|]; simpl; [|done]);
    intros [= <-]; simpl; eauto 10.
Qed.

Lemma process_media_item_dropped (it : item) :
  process_media_item E db save_directory album_uuid it = Ok None →
  is_media it = false.
Proof.
  unfold process_media_item, is_media, item_id, getitem, subscript, getitem.
  destruct (it !! "id") as [[id|?]|]; simpl; try done.
  destruct (select_media_item db id) as [row|]; simpl;
    [|destruct (it !! "filename") as [[filename|?]|]; simpl; try done];
    (destruct (it !! "mimeType") as [mime|]; simpl; [|done]);
    (destruct (py_in "image" mime); simpl;
     [|destruct (py_in "video" mime); simpl; [|done]]);
    (destruct (it !! "baseUrl") as [[base|?]|]; simpl; try done);
    (destruct (it !! "mediaMetadata") as [[?|md]|]; simpl; try done);
    by destruct (md !! "creationTime").
Qed.

(** A well-formed item is processed without an exception. *)
Lemma process_media_item_well_formed (it : item) :
  well_formed db it →
  ∃ task, process_media_item E db save_directory album_uuid it = Ok task.
Proof.
  intros (id & mime & Hid & Hmime & Hname & Hmedia).
  unfold is_media in Hmedia. rewrite Hmime in Hmedia.
  unfold process_media_item, getitem, subscript, getitem.
  rewrite Hid, Hmime. simpl.
  assert (Hpath : ∃ p,
    match select_media_item db id with
    | Some item_db_entry => Ok (row_path item_db_entry)
    | None =>
        (match it !! "filename" with
         | Some v => Ok v
         | None => Raise (KeyError "filename")
         end ≫= as_str) ≫= λ filename,
           Ok (save_directory +:+ "/" +:+ sanitize E filename)
    end = Ok p).
  { destruct (select_media_item db id); [by eexists|].
    destruct Hname as [filename ->]; [done|]. by eexists. }
  destruct Hpath as [p ->]. simpl.
  destruct (py_in "image" mime) eqn:Himage; simpl.
  - destruct Hmedia as (base & md & ct & -> & -> & Hct); [done|].
    simpl. rewrite Hct. by eexists.
  - destruct (py_in "video" mime) eqn:Hvideo; simpl; [|by eexists].
    destruct Hmedia as (base & md & ct & -> & -> & Hct); [done|].
    simpl. rewrite Hct. by eexists.
Qed.

(** An item that misses a field makes its turn of the loop raise. *)
Lemma process_media_item_missing (it : item) :
  missing_field db it →
  ∃ ex, process_media_item E db save_directory album_uuid it = Raise ex.
Proof.
  unfold missing_field, is_media.
  unfold process_media_item, getitem, subscript, getitem.
  intros Hmiss.
  destruct (it !! "id") as [[id|?]|] eqn:Hid; simpl; [|by eexists..].
  destruct (select_media_item db id) as [row|] eqn:Hrow; simpl;
    [|destruct (it !! "filename") as [[filename|?]|] eqn:Hname; simpl;
      [|by eexists..]];
    (destruct (it !! "mimeType") as [mime|] eqn:Hmime; simpl;
      [|by eexists]);
    (destruct (py_in "image" mime); simpl;
     [|destruct (py_in "video" mime); simpl;
       [|exfalso; naive_solver]]);
    (destruct (it !! "baseUrl") as [[base|?]|] eqn:Hbase; simpl;
      [|by eexists..]);
    (destruct (it !! "mediaMetadata") as [[?|md]|] eqn:Hmd; simpl;
      [by eexists| |by eexists]);
    (destruct (md !! "creationTime") as [ct|] eqn:Hct; simpl;
      [exfalso; naive_solver | by eexists]).
Qed.

Lemma process_media_items_cons (it : item) (rest : list item) :
  process_media_items E db (it :: rest) save_directory album_uuid =
  match process_media_item E db save_directory album_uuid it with
  | Raise ex => Raise ex
  | Ok task =>
      match process_media_items E db rest save_directory album_uuid with
      | Raise ex => Raise ex
      | Ok tasks => Ok (from_option (λ e, e :: tasks) tasks task)
      end
  end.
Proof.
  simpl. destruct (process_media_item _ _ _ _ it) as [[e|]|]; simpl;
    [| |done];
    by destruct (process_media_items E db rest save_directory album_uuid).
Qed.

(** The loop raises as soon as one turn raises. *)
Lemma process_media_items_raises (items : list item) (it : item) :
  it ∈ items →
  (∃ ex, process_media_item E db save_directory album_uuid it = Raise ex) →
  ∃ ex, process_media_items E db items save_directory album_uuid = Raise ex.
Proof.
  intros Hin [ex Hex].
  induction items as [|it' rest IH]; [by apply elem_of_nil in Hin|].
  rewrite process_media_items_cons.
  apply elem_of_cons in Hin as [<-|Hin].
  - rewrite Hex. by eexists.
  - destruct (process_media_item _ _ _ _ it'); [|by eexists].
    destruct (IH Hin) as [ex' ->]. by eexists.
Qed.

(** The tasks of a run that returns: those of the images and videos, in
    the order of the items. *)
Lemma process_media_items_tasks (items : list item) (tasks : list entry) :
  process_media_items E db items save_directory album_uuid = Ok tasks →
  e_uuid <$> tasks = item_id <$> List.filter is_media items ∧
  Forall (λ e, ∃ base, e_url e = base +:+ "=d" ∨ e_url e = base +:+ "=dv")
    tasks.
Proof.
  revert tasks; induction items as [|it rest IH]; intros tasks.
  - by intros [= <-].
  - rewrite process_media_items_cons.
    destruct (process_media_item _ _ _ _ it) as [task|] eqn:Hit; [|done].
    destruct (process_media_items _ _ rest _ _) as [tasks'|]; [|done].
    intros [= <-]. destruct (IH _ eq_refl) as [Hids Hurls].
    destruct task as [e|]; simpl.
    + apply process_media_item_media in Hit
        as (Hmedia & Hid & _ & _ & Hurl & _).
      rewrite Hmedia. cbn [fmap list_fmap]. rewrite Hid.
      split; [by f_equal | by constructor].
    + apply process_media_item_dropped in Hit. by rewrite Hit.
Qed.

Lemma process_media_items_well_formed (items : list item) :
  Forall (well_formed db) items →
  ∃ tasks,
    process_media_items E db items save_directory album_uuid = Ok tasks.
Proof.
  induction 1 as [|it rest Hit _ [tasks IH]]; [by eexists|].
  rewrite process_media_items_cons.
  destruct (process_media_item_well_formed it Hit) as [task ->].
  rewrite IH. by eexists.
Qed.

End ProcessorFacts.

(** C8, as the code has it.  [process_media_items] returns normally on a
    collection whose items all carry the fields it reads; the tasks are
    then those of the items whose MIME type names an image or a video, in
    the order of the items, every other item being dropped.  An item that
    misses one of the fields is not dropped: the call raises and no task
    list is produced. *)
Theorem process_media_items_needs_fields (E : env) (db : list media_row)
    (items : list item) (save_directory : string)
    (album_uuid : option string) :
  (Forall (well_formed db) items →
     ∃ tasks,
       process_media_items E db items save_directory album_uuid = Ok tasks ∧
       e_uuid <$> tasks = item_id <$> List.filter is_media items ∧
       Forall (λ e, ∃ base,
                 e_url e = base +:+ "=d" ∨ e_url e = base +:+ "=dv") tasks) ∧
  (∀ it, it ∈ items → missing_field db it →
     ∃ ex,
       process_media_items E db items save_directory album_uuid = Raise ex).
Proof.
  split.
  - intros [tasks Htasks]%(process_media_items_well_formed E db
                             save_directory album_uuid).
    exists tasks. split; [done|]. by eapply process_media_items_tasks.
  - intros it Hin Hmiss. eapply process_media_items_raises; [done|].
    by apply process_media_item_missing.
Qed.

Lemma process_media_items_needs_fields_witness :
  (∃ tasks,
     process_media_items Sample.env_ok []
       [Sample.photo "a" "a.jpg"; {[ "id" := JStr "n";
                                      "filename" := JStr "notes.txt";
                                      "mimeType" := JStr "text/plain" ]}]
       "Library" None = Ok tasks ∧
     e_uuid <$> tasks = ["a"]) ∧
  (∃ ex,
     process_media_items Sample.env_ok []
       [Sample.photo "a" "a.jpg"; delete "filename" (Sample.photo "b" "b.jpg")]
       "Library" None = Raise ex).
Proof.
  split.
  - destruct (process_media_items_needs_fields Sample.env_ok []
                [Sample.photo "a" "a.jpg";
                 {[ "id" := JStr "n"; "filename" := JStr "notes.txt";
                    "mimeType" := JStr "text/plain" ]}] "Library" None)
      as [Hok _].
    destruct Hok as (tasks & Htasks & Hids & _).
    + repeat constructor.
      * exists "a", (JStr "image/jpeg"). split_and!; [done | done | |].
        -- intros _. by exists "a.jpg".
        -- intros _. by eexists _, _, _.
      * exists "n", (JStr "text/plain"). split_and!; [done | done | |].
        -- intros _. by exists "notes.txt".
        -- intros Hmedia. vm_compute in Hmedia. discriminate Hmedia.
    + exists tasks. split; [done|]. rewrite Hids. vm_compute. reflexivity.
  - destruct (process_media_items_needs_fields Sample.env_ok []
                [Sample.photo "a" "a.jpg";
                 delete "filename" (Sample.photo "b" "b.jpg")]
                "Library" None) as [_ Hraise].
    apply (Hraise (delete "filename" (Sample.photo "b" "b.jpg"))).
    + apply elem_of_cons. right. apply elem_of_cons. by left.
    + right. left. exists "b". by split_and!.
Defined.

(** C8, as the claim states it, fails: an image without a file name, or
    without a creation time, is not dropped from the task list; the whole
    call raises [KeyError], and the task of the well-formed item before it
    is lost with it. *)
Lemma process_media_items_raises_on_missing_field :
  process_media_items Sample.env_ok []
    [Sample.photo "a" "a.jpg"; delete "filename" (Sample.photo "b" "b.jpg")]
    "Library" None = Raise (KeyError "filename") ∧
  process_media_items Sample.env_ok []
    [Sample.photo "a" "a.jpg";
     <["mediaMetadata" := JObj ∅]> (Sample.photo "b" "b.jpg")]
    "Library" None = Raise (KeyError "creationTime").
Proof. split; vm_compute; reflexivity. Qed.

Import StrFacts NameFacts.

(** ** The file system under the worker's writes *)

Section GrowthFacts.

Lemma grows_refl (σ : filesystem) : grows σ σ.
Proof.
  intros p. unfold isfile. destruct (σ !! p) as [[d|]|] eqn:Hp;
    by rewrite ?Hp.
Qed.

Lemma grows_trans (σ1 σ2 σ3 : filesystem) :
  grows σ1 σ2 → grows σ2 σ3 → grows σ1 σ3.
Proof.
  intros H12 H23 p. specialize (H12 p). specialize (H23 p).
  unfold isfile in *.
  destruct (σ1 !! p) as [[d1|]|]; destruct (σ2 !! p) as [[d2|]|];
    try done; by destruct (σ3 !! p) as [[d3|]|].
Qed.

(** Writing a file over anything but a directory. *)
Lemma grows_insert_file (σ : filesystem) (p data : string) :
  σ !! p ≠ Some Dir → grows σ (<[p := File data]> σ).
Proof.
  intros Hp q. unfold isfile. destruct (decide (p = q)) as [<-|Hne].
  - rewrite lookup_insert_eq. by destruct (σ !! p) as [[d|]|].
  - rewrite lookup_insert_ne by done.
    destruct (σ !! q) as [[d|]|] eqn:Hq; by rewrite ?Hq.
Qed.

Lemma grows_isfile (σ σ' : filesystem) (p : string) :
  grows σ σ' → isfile σ p = true → isfile σ' p = true.
Proof.
  intros Hg. specialize (Hg p). unfold isfile in *.
  by destruct (σ !! p) as [[d|]|].
Qed.

Lemma grows_dir (σ σ' : filesystem) (p : string) :
  grows σ σ' → (σ !! p = Some Dir ↔ σ' !! p = Some Dir).
Proof.
  intros Hg. specialize (Hg p). unfold isfile in *.
  destruct (σ !! p) as [[d|]|]; destruct (σ' !! p) as [[d'|]|];
    naive_solver.
Qed.

(** A path that is free and then not a file is still free. *)
Lemma grows_free (σ σ' : filesystem) (p : string) :
  grows σ σ' → σ !! p = None → isfile σ' p = false → σ' !! p = None.
Proof.
  intros Hg Hp. specialize (Hg p). rewrite Hp in Hg. unfold isfile.
  by destruct (σ' !! p) as [[d'|]|].
Qed.

End GrowthFacts.

#[export] Instance grows_preorder : PreOrder grows.
Proof. split; [exact grows_refl | exact grows_trans]. Qed.

Section WriteFacts.

Variable E : env.

Lemma open_w_ok (σ σ' : filesystem) (path : string) :
  open_w E σ path = Ok σ' →
  σ !! path ≠ Some Dir ∧ os_refuses E path = false ∧
  σ' = <[path := File ""]> σ.
Proof.
  unfold open_w. destruct (σ !! path) as [[d|]|];
    destruct (os_refuses E path); naive_solver.
Qed.

Lemma open_w_free (σ : filesystem) (path : string) :
  σ !! path ≠ Some Dir → os_refuses E path = false →
  open_w E σ path = Ok (<[path := File ""]> σ).
Proof.
  unfold open_w. intros Hp ->. by destruct (σ !! path) as [[d|]|].
Qed.

Lemma open_w_raise (σ : filesystem) (path : string) (ex : exn) :
  open_w E σ path = Raise ex →
  σ !! path = Some Dir ∨ os_refuses E path = true.
Proof.
  unfold open_w. destruct (σ !! path) as [[d|]|];
    destruct (os_refuses E path); naive_solver.
Qed.

Lemma f_write_file (σ : filesystem) (path old data : string) :
  f_write (<[path := File old]> σ) path data =
  <[path := File (old +:+ data)]> σ.
Proof.
  unfold f_write. rewrite lookup_insert_eq. apply insert_insert_eq.
Qed.

(** Writing the chunks appends them to the file. *)
Lemma write_chunks (σ : filesystem) (path old : string)
    (chunks : list string) :
  foldl (λ σ' chunk, f_write σ' path chunk) (<[path := File old]> σ) chunks
  = <[path := File (foldl String.append old chunks)]> σ.
Proof.
  revert old; induction chunks as [|c chunks IH]; intros old; [done|].
  simpl. by rewrite f_write_file, IH.
Qed.

(** [write_response] leaves the whole body when the stream is complete,
    a truncated file when it breaks, and nothing when the file cannot be
    opened. *)
Lemma write_response_spec (chunks : list string) (complete : bool)
    (σ : filesystem) (path : string) :
  write_response E chunks complete σ path =
    if decide (σ !! path = Some Dir ∨ os_refuses E path = true)
    then (Raise (OSError path), σ)
    else (if complete then Ok () else Raise ConnectionError,
          <[path := File (body_of chunks)]> σ).
Proof.
  unfold write_response, body_of. case_decide as Hd.
  - destruct Hd as [Hd|Hd]; unfold open_w; rewrite Hd; [done|].
    by destruct (σ !! path) as [[d|]|].
  - rewrite open_w_free.
    + rewrite write_chunks. by destruct complete.
    + intros Hdir. apply Hd. by left.
    + destruct (os_refuses E path); [|done]. exfalso. apply Hd. by right.
Qed.

Lemma write_response_grows (chunks : list string) (complete : bool)
    (σ : filesystem) (path : string) :
  grows σ (write_response E chunks complete σ path).2.
Proof.
  rewrite write_response_spec. case_decide as Hd; simpl; [done|].
  destruct complete; apply grows_insert_file; intros Hdir; apply Hd;
    by left.
Qed.

End WriteFacts.

(** ** Metadata embedding *)

Section EmbedFacts.

Variable E : env.

#[local] Arguments String.append : simpl nomatch.

Lemma sidecar_neq (path : string) : path ≠ path +:+ ".xmp".
Proof.
  intros Heq%(f_equal String.length). rewrite string_length_app in Heq.
  simpl in Heq. lia.
Qed.

Lemma put_in_place_spec (B : xmp_behaviour) (xmpfile : bool) (x : xmp)
    (σ : filesystem) (path data : string) :
  σ !! path = Some (File data) →
  put_in_place B xmpfile x σ path =
    (true, <[path := File (xb_embed B data x)]> σ) ∧ xmpfile = true
  ∨ put_in_place B xmpfile x σ path = (false, σ).
Proof.
  intros Hp. unfold put_in_place. rewrite Hp.
  destruct xmpfile; [|by right].
  destruct (xb_can_put B x) as [[|]|]; [|by right..].
  destruct (xb_put B x); [|by right].
  destruct (xb_close_safe B); [by left | by right].
Qed.

Lemma write_sidecar_spec (B : xmp_behaviour) (x : xmp) (σ : filesystem)
    (path : string) :
  let '(r, σ') := write_sidecar E B x σ path in
  grows σ σ' ∧
  (∀ p, p ≠ path +:+ ".xmp" → σ' !! p = σ !! p) ∧
  (r = Ok () →
     ∃ text, xb_serialize B x = Ok text ∧
             σ' !! (path +:+ ".xmp") = Some (File text)).
Proof.
  unfold write_sidecar.
  destruct (open_w E σ (path +:+ ".xmp")) as [σ1|ex] eqn:Hopen.
  - apply open_w_ok in Hopen as (Hdir & _ & ->).
    destruct (xb_serialize B x) as [text|ex].
    + rewrite f_write_file. split_and!.
      * by apply grows_insert_file.
      * intros p Hne. by rewrite lookup_insert_ne.
      * intros _. exists text. by rewrite lookup_insert_eq.
    + split_and!; [by apply grows_insert_file | | done].
      intros p Hne. by rewrite lookup_insert_ne.
  - by split_and!.
Qed.

(** What the metadata block does to the file system, by the way it
    ends.  The block raises only when the cleanup [close_file()] does. *)
Lemma embed_metadata_spec (σ : filesystem) (path data : string)
    (description creation_time : option jval) :
  σ !! path = Some (File data) →
  let B := toolkit E path in
  let '(r, σ') := embed_metadata E σ path description creation_time in
  grows σ σ' ∧
  (∀ p, p ≠ path → p ≠ path +:+ ".xmp" → σ' !! p = σ !! p) ∧
  match r with
  | Ok InPlace =>
      (∃ x, σ' = <[path := File (xb_embed B data x)]> σ) ∧
      xb_open B = true
  | Ok Sidecar =>
      σ' !! path = Some (File data) ∧
      ∃ text, σ' !! (path +:+ ".xmp") = Some (File text)
  | Ok NoMetadata => σ' !! path = Some (File data)
  | Raise _ =>
      σ' !! path = Some (File data) ∧
      xb_open B = true ∧ xb_close B = false
  end.
Proof.
  intros Hp B. unfold embed_metadata. fold B.
  set (found := if xb_open B then _ else _).
  destruct (prepare_xmp E B found description creation_time) as [x|ex].
  - destruct (put_in_place_spec B (xb_open B) x σ path data Hp)
      as [[-> Hopen]| ->].
    + split_and!; [| | by eexists | done].
      * apply grows_insert_file. by rewrite Hp.
      * intros p Hne _. by rewrite lookup_insert_ne.
    + pose proof (write_sidecar_spec B x σ path) as Hside.
      destruct (write_sidecar E B x σ path) as [[[]|ex] σ2].
      * destruct Hside as (Hg & Hsame & Htext).
        assert (σ2 !! path = Some (File data)) as Hmedia
          by (rewrite Hsame; [done | apply sidecar_neq]).
        destruct (Htext eq_refl) as (text & _ & Hxmp).
        destruct (xb_open B); [destruct (xb_close B)|];
          (split; [done|]; split; [by intros; apply Hsame|]; eauto).
      * destruct Hside as (Hg & Hsame & _).
        assert (σ2 !! path = Some (File data)) as Hmedia
          by (rewrite Hsame; [done | apply sidecar_neq]).
        destruct (xb_open B); [destruct (xb_close B)|];
          (split; [done|]; split; [by intros; apply Hsame|]; eauto).
  - destruct (xb_open B); [destruct (xb_close B)|];
      (split; [done|]; split; [done|]; eauto).
Qed.

End EmbedFacts.

(** ** The worker *)

Section WorkerFacts.

Variable E : env.

(** The worker, case by case. *)
Lemma download_media_item_cases (w : world) (e : entry) :
  download_media_item E w e =
  if isfile (fs w) (e_path e) then (RFalse, w)
  else
    let w1 := after_request w (e_url e) in
    match http_get E (e_url e) with
    | NoReply => (RFalse, w1)
    | Reply status_code chunks complete =>
        if (status_code =? 200)%Z then
          let path := auto_filename (fs w) (e_path e) 0 in
          if os_refuses E path then (RFalse, w1)
          else
            let σ2 := <[path := File (body_of chunks)]> (fs w) in
            if complete then
              if wants_metadata e then
                match embed_metadata E σ2 path (e_description e)
                        (e_creation_time e) with
                | (Ok _, σ3) =>
                    (RTuple (e_uuid e) path (e_album_uuid e),
                     after_download σ3 w1)
                | (Raise _, σ3) => (RFalse, set_fs σ3 w1)
                end
              else (RTuple (e_uuid e) path (e_album_uuid e),
                    after_download σ2 w1)
            else (RFalse, set_fs σ2 w1)
        else (RNone, w1)
    end.
Proof.
  unfold download_media_item, download_media_item_body.
  destruct (isfile (fs w) (e_path e)); [done|]. simpl.
  destruct (http_get E (e_url e)) as [|status_code chunks complete];
    [done|].
  destruct (status_code =? 200)%Z; [|done].
  rewrite write_response_spec.
  pose proof (auto_filename_fresh (fs w) (e_path e) 0) as Hfresh.
  case_decide as Hd.
  - destruct Hd as [Hd|Hd]; [by rewrite Hfresh in Hd|]. rewrite Hd.
    by destruct w.
  - destruct (os_refuses E _); [exfalso; apply Hd; by right|].
    destruct complete; [|done].
    fold (wants_metadata e). destruct (wants_metadata e); [|done].
    by destruct (embed_metadata E _ _ _ _) as [[how|ex] σ3].
Qed.

(** The worker never touches the [media] table. *)
Lemma download_media_item_media (w : world) (e : entry) :
  media (download_media_item E w e).2 = media w.
Proof.
  rewrite download_media_item_cases.
  repeat (case_match; simpl; try done).
Qed.

(** A task whose target is a file: [False], nothing fetched, nothing
    changed. *)
Lemma download_media_item_present (w : world) (e : entry) :
  isfile (fs w) (e_path e) = true →
  download_media_item E w e = (RFalse, w).
Proof. intros Hfile. by rewrite download_media_item_cases, Hfile. Qed.

Lemma fresh_file_grows (σ : filesystem) (path data : string) :
  σ !! path = None → grows σ (<[path := File data]> σ).
Proof. intros Hp. apply grows_insert_file. by rewrite Hp. Qed.

(** The worker only adds files and rewrites files. *)
Lemma download_media_item_grows (w : world) (e : entry) :
  grows (fs w) (fs (download_media_item E w e).2).
Proof.
  rewrite download_media_item_cases.
  pose proof (auto_filename_fresh (fs w) (e_path e) 0) as Hfresh.
  repeat (case_match; simpl; try done);
    try (by apply fresh_file_grows).
  all: match goal with
       | H : embed_metadata E ?σ2 ?path ?d ?ct = _ |- _ =>
           pose proof (embed_metadata_spec E σ2 path _ d ct
                         (lookup_insert_eq _ _ _)) as Hspec;
           rewrite H in Hspec; destruct Hspec as [Hg _]
       end.
  all: by etrans; [apply fresh_file_grows|].
Qed.

(** A tuple names a file that exists, at the name [auto_filename] chose,
    and counts one download. *)
Lemma download_media_item_tuple (w w' : world) (e : entry)
    (uuid path : string) (album_uuid : option string) :
  download_media_item E w e = (RTuple uuid path album_uuid, w') →
  uuid = e_uuid e ∧ album_uuid = e_album_uuid e ∧
  path = auto_filename (fs w) (e_path e) 0 ∧
  isfile (fs w) (e_path e) = false ∧
  isfile (fs w') path = true ∧
  downloads w' = S (downloads w) ∧
  requested w' = requested w ++ [e_url e].
Proof.
  rewrite download_media_item_cases.
  repeat (case_match; simpl; try done); intros [= <- <- <- <-]; simpl.
  - match goal with
    | H : embed_metadata E ?σ2 ?path ?d ?ct = _ |- _ =>
        pose proof (embed_metadata_spec E σ2 path _ d ct
                      (lookup_insert_eq _ _ _)) as Hspec;
        rewrite H in Hspec; destruct Hspec as [Hg _]
    end.
    split_and!; try done.
    eapply grows_isfile; [done|]. unfold isfile.
    by rewrite lookup_insert_eq.
  - split_and!; try done. unfold isfile. by rewrite lookup_insert_eq.
Qed.

(** Anything but a tuple leaves the download counter alone. *)
Lemma download_media_item_not_tuple (w : world) (e : entry) :
  (download_media_item E w e).1 = RFalse ∨
  (download_media_item E w e).1 = RNone →
  downloads (download_media_item E w e).2 = downloads w.
Proof.
  rewrite download_media_item_cases.
  repeat (case_match; simpl; try done); naive_solver.
Qed.

End WorkerFacts.

Import StrFacts NameFacts.

(** ** The pool-draining loop *)

Section DownloadFacts.

Variable E : env.

Lemma select_media_item_app (db : list media_row) (r : media_row)
    (uuid : string) :
  select_media_item (db ++ [r]) uuid =
  match select_media_item db uuid with
  | Some r' => Some r'
  | None => if String.eqb (row_uuid r) uuid then Some r else None
  end.
Proof.
  unfold select_media_item. induction db as [|r' db IH]; simpl.
  - by destruct (String.eqb (row_uuid r) uuid).
  - by destruct (String.eqb (row_uuid r') uuid).
Qed.

Lemma select_media_item_some (db : list media_row) (uuid : string)
    (r : media_row) :
  select_media_item db uuid = Some r → r ∈ db ∧ row_uuid r = uuid.
Proof.
  intros [Hin Heq]%find_some. split; [by apply list_elem_of_In|].
  by apply String.eqb_eq.
Qed.

Lemma select_media_item_none (db : list media_row) (uuid : string) :
  select_media_item db uuid = None ↔ uuid ∉ row_uuid <$> db.
Proof.
  unfold select_media_item. induction db as [|r db IH]; simpl.
  - split; [intros _; apply not_elem_of_nil | done].
  - rewrite not_elem_of_cons.
    destruct (String.eqb_spec (row_uuid r) uuid) as [->|Hne].
    + split; [done | by intros [? _]].
    + rewrite IH. naive_solver.
Qed.



Lemma outcomes_length (w : world) (es : list entry) :
  length (outcomes E w es) = length es.
Proof.
  revert w; induction es as [|e es IH]; intros w; [done|].
  simpl. destruct (download_media_item E w e) as [r w1]. simpl.
  by rewrite IH.
Qed.

Lemma record_outcome_fs (w : world) (r : returned) :
  fs (record_outcome w r) = fs w.
Proof. by destruct r. Qed.

Lemma record_outcome_falsy (w : world) (r : returned) :
  falsy r → record_outcome w r = w.
Proof. by destruct r. Qed.

(** One turn of the loop. *)
Lemma turn_grows (w : world) (e : entry) :
  grows (fs w)
    (fs (record_outcome (download_media_item E w e).2
           (download_media_item E w e).1)).
Proof. rewrite record_outcome_fs. apply download_media_item_grows. Qed.

Lemma download_grows (w : world) (es : list entry) :
  grows (fs w) (fs (download E w es)).
Proof.
  revert w; induction es as [|e es IH]; intros w; [done|].
  simpl. pose proof (turn_grows w e) as Hturn.
  destruct (download_media_item E w e) as [r w1]. by etrans.
Qed.

(** The table only gets longer. *)
Lemma download_media_prefix (w : world) (es : list entry) :
  media w `prefix_of` media (download E w es).
Proof.
  revert w; induction es as [|e es IH]; intros w; [done|].
  simpl. pose proof (download_media_item_media E w e) as Hm.
  destruct (download_media_item E w e) as [r w1]. simpl in Hm.
  etrans; [|apply IH]. destruct r; simpl; rewrite Hm; try done.
  by apply prefix_app_r.
Qed.

(** Rows are inserted for files that exist. *)
Lemma turn_backed (w : world) (e : entry) :
  backed w →
  backed (record_outcome (download_media_item E w e).2
            (download_media_item E w e).1).
Proof.
  intros Hb.
  pose proof (download_media_item_grows E w e) as Hg.
  pose proof (download_media_item_media E w e) as Hm.
  destruct (download_media_item E w e) as [r w1] eqn:Hrun. simpl in *.
  assert (Hold : ∀ row, row ∈ media w1 → isfile (fs w1) (row_path row) = true).
  { intros row Hrow. rewrite Hm in Hrow.
    eapply grows_isfile; [done | by apply Hb]. }
  destruct r as [| |uuid path album]; try done.
  apply download_media_item_tuple in Hrun as (_ & _ & _ & _ & Hfile & _).
  intros row. simpl. rewrite elem_of_app, list_elem_of_singleton.
  intros [Hrow| ->]; [by apply Hold | done].
Qed.

Lemma download_backed (w : world) (es : list entry) :
  backed w → backed (download E w es).
Proof.
  revert w; induction es as [|e es IH]; intros w Hb; [done|].
  simpl. pose proof (turn_backed w e Hb) as Hturn.
  destruct (download_media_item E w e) as [r w1]. by apply IH.
Qed.

End DownloadFacts.

(** C1, as the code has it.  A task whose target file exists is detected by
    the first test of the worker, which returns [False] without a request;
    the loop of [download] records nothing for [False].  Hence an item
    without a row, all of whose tasks in the batch find their file, is
    still without a row after the run: the row is not backfilled. *)
Theorem download_does_not_backfill (E : env) (w : world)
    (entries : list entry) (uuid : string) :
  select_media_item (media w) uuid = None →
  (∀ e, e ∈ entries → e_uuid e = uuid → isfile (fs w) (e_path e) = true) →
  (∀ e, e ∈ entries → e_uuid e = uuid →
     download_media_item E w e = (RFalse, w)) ∧
  select_media_item (media (download E w entries)) uuid = None.
Proof.
  intros Hnone Hfiles. split.
  { intros e He Hid. apply download_media_item_present. by apply Hfiles. }
  revert w Hnone Hfiles.
  induction entries as [|e es IH]; intros w Hnone Hfiles; [done|].
  simpl.
  pose proof (download_media_item_grows E w e) as Hg.
  pose proof (download_media_item_media E w e) as Hm.
  destruct (download_media_item E w e) as [r w1] eqn:Hrun. simpl in *.
  apply IH.
  - destruct r as [| |u path album]; simpl; rewrite Hm; try done.
    rewrite select_media_item_app, Hnone. simpl.
    apply download_media_item_tuple in Hrun as (-> & _ & _ & Hnofile & _).
    destruct (String.eqb_spec (e_uuid e) uuid) as [Heq|]; [|done].
    rewrite Hfiles in Hnofile; [done | apply elem_of_cons; by left | done].
  - intros e' He' Hid. rewrite record_outcome_fs.
    eapply grows_isfile; [done|]. apply Hfiles; [|done].
    apply elem_of_cons. by right.
Qed.

Lemma download_does_not_backfill_witness :
  let w := set_fs (<["Library/a.jpg" := File "JFIFold"]> (fs Sample.fresh))
             Sample.fresh in
  select_media_item
    (media (download Sample.env_ok w
              [Sample.task "a" "a.jpg"; Sample.task "b" "b.jpg"])) "a" = None.
Proof.
  intros w.
  apply (download_does_not_backfill Sample.env_ok w
           [Sample.task "a" "a.jpg"; Sample.task "b" "b.jpg"] "a").
  - reflexivity.
  - intros e [->|[->|[]%elem_of_nil]%elem_of_cons]%elem_of_cons Hid.
    + vm_compute. reflexivity.
    + vm_compute in Hid. discriminate Hid.
Defined.

(** C1, as the claim states it, fails: the file of item ["a"] is on disk
    and the item has no row; the worker returns [False] and after the run
    the item still has no row. *)
Lemma existing_file_gets_no_row :
  let w := set_fs (<["Library/a.jpg" := File "JFIFold"]> (fs Sample.fresh))
             Sample.fresh in
  isfile (fs w) (e_path (Sample.task "a" "a.jpg")) = true ∧
  select_media_item (media w) "a" = None ∧
  download_media_item Sample.env_ok w (Sample.task "a" "a.jpg") = (RFalse, w) ∧
  select_media_item
    (media (download Sample.env_ok w [Sample.task "a" "a.jpg"])) "a" = None.
Proof. vm_compute. by split_and!. Qed.

(** ** Two archives with the same files and the same table *)

Section SameStore.

Variable E : env.

#[export] Instance same_store_equiv : Equivalence same_store.
Proof.
  unfold same_store. split.
  - by intros w.
  - intros w1 w2 [Hfs Hmedia]. by rewrite Hfs, Hmedia.
  - intros w1 w2 w3 [Hfs Hmedia] [Hfs' Hmedia'].
    by rewrite Hfs, Hmedia, Hfs', Hmedia'.
Qed.

(** The worker reads the archive through its files only. *)
Lemma download_media_item_same_store (w1 w2 : world) (e : entry) :
  same_store w1 w2 →
  (download_media_item E w1 e).1 = (download_media_item E w2 e).1 ∧
  same_store (download_media_item E w1 e).2 (download_media_item E w2 e).2.
Proof.
  destruct w1 as [σ1 db1 n1 log1], w2 as [σ2 db2 n2 log2].
  intros [Hfs Hmedia]. simpl in *. subst σ2 db2.
  rewrite !download_media_item_cases. unfold same_store. simpl.
  repeat (case_match; simpl; try done).
Qed.

Lemma record_outcome_same_store (w1 w2 : world) (r : returned) :
  same_store w1 w2 → same_store (record_outcome w1 r) (record_outcome w2 r).
Proof.
  intros [Hfs Hmedia]. destruct r; simpl; try done.
  split; simpl; [done | by rewrite Hmedia].
Qed.

Lemma download_same_store (w1 w2 : world) (es : list entry) :
  same_store w1 w2 →
  outcomes E w1 es = outcomes E w2 es ∧
  same_store (download E w1 es) (download E w2 es).
Proof.
  revert w1 w2; induction es as [|e es IH]; intros w1 w2 Hsame; [done|].
  simpl.
  destruct (download_media_item_same_store w1 w2 e Hsame) as [Hr Hw].
  destruct (download_media_item E w1 e) as [r1 w1'].
  destruct (download_media_item E w2 e) as [r2 w2']. simpl in *. subst r2.
  destruct (IH (record_outcome w1' r1) (record_outcome w2' r1)) as [-> ?];
    [by apply record_outcome_same_store | done].
Qed.

(** A task that fails before writing leaves files and table alone. *)
Lemma fails_before_writing_quiet (w : world) (e : entry) :
  fails_before_writing E w e →
  falsy (download_media_item E w e).1 ∧
  same_store (download_media_item E w e).2 w ∧
  downloads (download_media_item E w e).2 = downloads w.
Proof.
  intros [Hnofile Hfail]. rewrite download_media_item_cases, Hnofile.
  destruct (http_get E (e_url e)) as [|status chunks complete];
    simpl; [done|].
  destruct (Z.eqb_spec status 200) as [->|Hne]; [|done].
  destruct Hfail as [?| ->]; done.
Qed.

End SameStore.

Import StrFacts NameFacts.

Section Stored.

Variable E : env.

(** The metadata block on a file that holds the bytes received: when
    its cleanup returns, it ends without an exception and with the files
    of [stored]. *)
Lemma embed_metadata_stored (σ : filesystem) (path body : string)
    (description creation_time : option jval) :
  cleanup_returns (toolkit E path) →
  ∃ how σ',
    embed_metadata E (<[path := File body]> σ) path description
      creation_time = (Ok how, σ') ∧
    stored E path body description creation_time σ σ'.
Proof.
  intros Hclean. unfold cleanup_returns in Hclean.
  unfold embed_metadata, stored, packet, in_place_ok, sidecar_writable.
  set (B := toolkit E path) in *.
  set (σ2 := <[path := File body]> σ).
  set (found := if xb_open B then _ else _).
  destruct (prepare_xmp E B found description creation_time) as [x|ex].
  2:{ destruct (xb_open B); [rewrite Hclean by done|]; by eexists _, _. }
  unfold put_in_place, write_sidecar, open_w.
  assert (σ2 !! path = Some (File body)) as -> by apply lookup_insert_eq.
  destruct (xb_open B) eqn:Hopen; simpl.
  - rewrite Hclean by done.
    destruct (xb_can_put B x) as [[|]|];
      [destruct (xb_put B x); [destruct (xb_close_safe B)|]|..]; simpl;
      try (by eexists _, _);
      (destruct (σ2 !! (path +:+ ".xmp")) as [[data|]|] eqn:Hside;
       [rewrite bool_decide_false by done
       |rewrite bool_decide_true by done
       |rewrite bool_decide_false by done]; simpl;
       [|by eexists _, _|];
       (destruct (os_refuses E (path +:+ ".xmp")); simpl;
        [by eexists _, _|];
        destruct (xb_serialize B x) as [text|ex']; simpl;
        [rewrite f_write_file|]; by eexists _, _)).
  - destruct (σ2 !! (path +:+ ".xmp")) as [[data|]|] eqn:Hside;
      [rewrite bool_decide_false by done
      |rewrite bool_decide_true by done
      |rewrite bool_decide_false by done]; simpl;
      [|by eexists _, _|];
      (destruct (os_refuses E (path +:+ ".xmp")); simpl;
       [by eexists _, _|];
       destruct (xb_serialize B x) as [text|ex']; simpl;
       [rewrite f_write_file|]; by eexists _, _).
Qed.

End Stored.

(** X26 (what the code does for C7).  A task with a description or a
    creation time, whose body arrives whole and whose file can be
    written, is [Downloaded] whatever the toolkit's calls do, provided the
    cleanup [close_file()] returns: the tuple is returned and the download
    counted.  Its files are those of exactly one branch of [stored]: the
    packet is written into the media file and the side-car is as it was;
    or the media file holds the received bytes and the side-car
    [path + ".xmp"] the serialized packet; or nothing is stored, the media
    file holds the received bytes and the side-car is as it was or an
    empty file.  No other path changes. *)
Theorem metadata_failures_keep_the_download (E : env) (w : world) (e : entry)
    (chunks : list string) :
  let path := auto_filename (fs w) (e_path e) 0 in
  isfile (fs w) (e_path e) = false →
  http_get E (e_url e) = Reply 200 chunks true →
  os_refuses E path = false →
  wants_metadata e = true →
  cleanup_returns (toolkit E path) →
  ∃ w',
    download_media_item E w e =
      (RTuple (e_uuid e) path (e_album_uuid e), w') ∧
    downloads w' = S (downloads w) ∧
    stored E path (body_of chunks) (e_description e) (e_creation_time e)
      (fs w) (fs w') ∧
    (fs w' !! path = Some (File (body_of chunks)) ∨
     ∃ x, packet E path (e_description e) (e_creation_time e) = Ok x ∧
          in_place_ok (toolkit E path) x = true ∧
          fs w' !! path
            = Some (File (xb_embed (toolkit E path) (body_of chunks) x)) ∧
          fs w' !! (path +:+ ".xmp") = fs w !! (path +:+ ".xmp")) ∧
    (∀ p, p ≠ path → p ≠ path +:+ ".xmp" → fs w' !! p = fs w !! p).
Proof.
  intros path Hnofile Hget Hos Hwants Hclean.
  rewrite download_media_item_cases, Hnofile, Hget. simpl.
  fold path. rewrite Hos, Hwants.
  destruct (embed_metadata_stored E (fs w) path (body_of chunks)
              (e_description e) (e_creation_time e) Hclean)
    as (how & σ3 & Hrun & Hstored).
  rewrite Hrun.
  exists (after_download σ3 (after_request w (e_url e))).
  split_and!; [done | done | done | |]; simpl.
  - unfold stored in Hstored.
    destruct (packet E path _ _) as [x|ex].
    + destruct (in_place_ok (toolkit E path) x) eqn:Hin.
      * right. exists x. rewrite Hstored.
        split_and!; [done | done | apply lookup_insert_eq |].
        rewrite !lookup_insert_ne; [done | apply sidecar_neq..].
      * left. destruct (sidecar_writable E _ path);
          [destruct (xb_serialize (toolkit E path) x)|]; rewrite Hstored;
          rewrite ?(lookup_insert_ne _ (path +:+ ".xmp"))
            by (intros Heq; by apply (sidecar_neq path));
          apply lookup_insert_eq.
    + left. rewrite Hstored. apply lookup_insert_eq.
  - intros p Hp Hp'. unfold stored in Hstored.
    destruct (packet E path _ _) as [x|ex];
      [destruct (in_place_ok (toolkit E path) x);
       [|destruct (sidecar_writable E _ path);
         [destruct (xb_serialize (toolkit E path) x)|]]|];
      rewrite Hstored; by rewrite !lookup_insert_ne.
Qed.

Lemma metadata_failures_keep_the_download_witness :
  ∃ w',
    download_media_item env_fallback Sample.fresh (Sample.task "a" "a.jpg")
      = (RTuple "a" "Library/a.jpg" None, w') ∧
    fs w' = <["Library/a.jpg.xmp" := File "<xmp/>"]>
              (<["Library/a.jpg" := File "JFIFdata"]> (fs Sample.fresh)).
Proof.
  destruct (metadata_failures_keep_the_download env_fallback Sample.fresh
              (Sample.task "a" "a.jpg") ["JFIF"; "data"])
    as (w' & Hrun & _ & Hstored & _).
  - reflexivity.
  - reflexivity.
  - reflexivity.
  - reflexivity.
  - intros _. reflexivity.
  - exists w'. split; [exact Hrun | exact Hstored].
Defined.

(** C7, as the claim states it, fails when the cleanup raises: the file
    was opened by the toolkit, every embedding stage fails and so does the
    [close_file()] of the [finally] block; its exception reaches the outer
    handler.  The media file is on disk with the received bytes, yet the
    worker returns [False] and the download is neither counted nor
    recorded. *)
Lemma failing_cleanup_fails_the_download :
  let w' := (download_media_item env_failing_cleanup Sample.fresh
               (Sample.task "a" "a.jpg")).2 in
  download_media_item env_failing_cleanup Sample.fresh
    (Sample.task "a" "a.jpg") = (RFalse, w') ∧
  fs w' !! "Library/a.jpg" = Some (File "JFIFdata") ∧
  downloads w' = 0 ∧
  media (download env_failing_cleanup Sample.fresh
           [Sample.task "a" "a.jpg"]) = [].
Proof. vm_compute. by split_and!. Qed.

Section Containment.

Variable E : env.



(** *** What a worker depends on

    A worker reads the file system only under the names its task looks
    at, and changes it only there. *)










End Containment.


Section Apart.

#[local] Arguments String.append : simpl nomatch.


End Apart.



Import StrFacts NameFacts.

(** ** Running the pipeline again *)

Section Settled.

Variable E : env.

(** A settled task is skipped or fails again, and changes nothing. *)
Lemma settled_quiet (w : world) (e : entry) :
  settled E (fs w) e →
  falsy (download_media_item E w e).1 ∧
  same_store (download_media_item E w e).2 w ∧
  downloads (download_media_item E w e).2 = downloads w.
Proof.
  intros [Hfile|[Hfree Hfail]].
  - by rewrite download_media_item_present.
  - apply fails_before_writing_quiet. split.
    + unfold isfile. by rewrite Hfree.
    + rewrite auto_filename_free by done. done.
Qed.

Lemma settled_stable (σ σ' : filesystem) (e : entry) :
  grows σ σ' → settled E σ e → settled E σ' e.
Proof.
  intros Hg [Hfile|[Hfree Hfail]].
  - left. by eapply grows_isfile.
  - destruct (isfile σ' (e_path e)) eqn:Hfile; [by left|].
    right. split; [|done]. by eapply grows_free.
Qed.

(** Once the worker has run on a task whose target is not a directory,
    the task is settled. *)
Lemma download_media_item_settles (w : world) (e : entry) :
  fs w !! e_path e ≠ Some Dir →
  settled E (fs (download_media_item E w e).2) e.
Proof.
  intros Hdir. unfold settled.
  pose proof (download_media_item_grows E w e) as Hg.
  rewrite download_media_item_cases in Hg |- *.
  destruct (isfile (fs w) (e_path e)) eqn:Hfile; [by left|].
  assert (Hfree : fs w !! e_path e = None).
  { unfold isfile in Hfile. by destruct (fs w !! e_path e) as [[d|]|]. }
  rewrite auto_filename_free in Hg |- * by done.
  destruct (http_get E (e_url e)) as [|status chunks complete]; simpl;
    [by right|].
  destruct (Z.eqb_spec status 200) as [->|Hne]; simpl; [|right; by split; [|left]].
  destruct (os_refuses E (e_path e)) eqn:Hos; simpl;
    [right; by split; [|right]|].
  left.
  assert (Hnew : isfile (<[e_path e := File (body_of chunks)]> (fs w))
                   (e_path e) = true).
  { unfold isfile. by rewrite lookup_insert_eq. }
  destruct complete; simpl; [|done].
  destruct (wants_metadata e); simpl; [|done].
  pose proof (embed_metadata_spec E _ (e_path e) (body_of chunks)
                (e_description e) (e_creation_time e)
                (lookup_insert_eq (fs w) (e_path e) _)) as Hspec.
  destruct (embed_metadata E _ _ _ _) as [[how|ex] σ3];
    destruct Hspec as [Hg' _]; simpl; by eapply grows_isfile.
Qed.

Lemma download_settles (w : world) (es : list entry) :
  (∀ e, e ∈ es → fs w !! e_path e ≠ Some Dir) →
  ∀ e, e ∈ es → settled E (fs (download E w es)) e.
Proof.
  revert w; induction es as [|e es IH]; intros w Hdirs e' He';
    [by apply elem_of_nil in He'|].
  simpl.
  pose proof (download_media_item_settles w e) as Hset.
  pose proof (download_media_item_grows E w e) as Hg.
  destruct (download_media_item E w e) as [r w1]. simpl in *.
  assert (Hdirs1 : ∀ e0, e0 ∈ es →
            fs (record_outcome w1 r) !! e_path e0 ≠ Some Dir).
  { intros e0 He0. rewrite record_outcome_fs.
    rewrite <- (grows_dir _ _ _ Hg). apply Hdirs, elem_of_cons. by right. }
  apply elem_of_cons in He' as [->|He']; [|by apply IH].
  eapply settled_stable; [apply download_grows|].
  rewrite record_outcome_fs. apply Hset, Hdirs, elem_of_cons. by left.
Qed.

(** A batch of settled tasks leaves the archive as it is. *)
Lemma download_settled (w : world) (es : list entry) :
  (∀ e, e ∈ es → settled E (fs w) e) →
  same_store (download E w es) w ∧
  downloads (download E w es) = downloads w ∧
  Forall falsy (outcomes E w es).
Proof.
  revert w; induction es as [|e es IH]; intros w Hset; [done|].
  simpl.
  destruct (settled_quiet w e) as (Hfalsy & Hsame & Hcount);
    [apply Hset, elem_of_cons; by left|].
  destruct (download_media_item E w e) as [r w1]. simpl in *.
  rewrite record_outcome_falsy by done.
  destruct (IH w1) as (Hsame' & Hcount' & Hall).
  { intros e' He'. destruct Hsame as [-> _].
    apply Hset, elem_of_cons. by right. }
  split_and!; [by etrans | congruence | by constructor].
Qed.

End Settled.

Section Reprocess.

Variable E : env.
Variable save_directory : string.
Variable album_uuid : option string.

(** The turn of the loop reads the table through one lookup only. *)
Lemma process_media_item_select (db db' : list media_row) (it : item) :
  select_media_item db (item_id it) = select_media_item db' (item_id it) →
  process_media_item E db save_directory album_uuid it =
  process_media_item E db' save_directory album_uuid it.
Proof.
  unfold process_media_item, item_id, getitem.
  destruct (it !! "id") as [[id|?]|]; simpl; try done.
  by intros ->.
Qed.

(** The target of a task: the path of the item's first row, or the file
    name under the directory when the item has no row. *)
Lemma process_media_item_path (db : list media_row) (it : item) (e : entry) :
  process_media_item E db save_directory album_uuid it = Ok (Some e) →
  (∃ row, select_media_item db (item_id it) = Some row ∧
          e_path e = row_path row) ∨
  (select_media_item db (item_id it) = None ∧
   ∃ filename, it !! "filename" = Some (JStr filename) ∧
               e_path e = save_directory +:+ "/" +:+ sanitize E filename).
Proof.
  unfold process_media_item, item_id, getitem, subscript, getitem.
  destruct (it !! "id") as [[id|?]|]; simpl; try done.
  destruct (select_media_item db id) as [row|]; simpl;
    [|destruct (it !! "filename") as [[filename|?]|]; simpl; try done];
    (destruct (it !! "mimeType") as [mime|]; simpl; [|done]);
    (destruct (py_in "image" mime); simpl;
     [|destruct (py_in "video" mime); simpl; [|done]]);
    (destruct (it !! "baseUrl") as [[base|?]|]; simpl; try done);
    (destruct (it !! "mediaMetadata") as [[?|md]|]; simpl; try done);
    (destruct (md !! "creationTime") as [ct|]; simpl; [|done]);
    intros [= <-]; simpl; eauto 10.
Qed.

(** An item that was processed is processed again once it has a row; the
    task is the same but for its target, which is the path of the row. *)
Lemma process_media_item_indexed (db db' : list media_row) (it : item)
    (task : option entry) (row : media_row) :
  process_media_item E db save_directory album_uuid it = Ok task →
  select_media_item db' (item_id it) = Some row →
  process_media_item E db' save_directory album_uuid it =
    Ok ((λ e, with_path e (row_path row)) <$> task).
Proof.
  unfold process_media_item, item_id, getitem, subscript, getitem.
  destruct (it !! "id") as [[id|?]|]; simpl; try done.
  intros Hrun ->. simpl. revert Hrun.
  destruct (select_media_item db id) as [row0|]; simpl;
    [|destruct (it !! "filename") as [[filename|?]|]; simpl; try done];
    (destruct (it !! "mimeType") as [mime|]; simpl; [|done]);
    (destruct (py_in "image" mime); simpl;
     [|destruct (py_in "video" mime); simpl; [|by intros [= <-]]]);
    (destruct (it !! "baseUrl") as [[base|?]|]; simpl; try done);
    (destruct (it !! "mediaMetadata") as [[?|md]|]; simpl; try done);
    (destruct (md !! "creationTime") as [ct|]; simpl; [|done]);
    by intros [= <-].
Qed.

Lemma select_media_item_prefix (db db' : list media_row) (uuid : string) :
  db `prefix_of` db' → select_media_item db' uuid = None →
  select_media_item db uuid = None.
Proof.
  intros [rest ->]. rewrite !select_media_item_none, fmap_app.
  rewrite not_elem_of_app. by intros [? _].
Qed.

(** Processing a collection again, against a longer table whose rows
    name files of [σ]: it returns again, and each task either targets a
    file or is a task of the first run. *)
Lemma process_media_items_again (db db' : list media_row) (σ : filesystem)
    (items : list item) (es : list entry) :
  db `prefix_of` db' →
  (∀ row, row ∈ db' → isfile σ (row_path row) = true) →
  process_media_items E db items save_directory album_uuid = Ok es →
  ∃ es',
    process_media_items E db' items save_directory album_uuid = Ok es' ∧
    ∀ e', e' ∈ es' → isfile σ (e_path e') = true ∨ e' ∈ es.
Proof.
  intros Hprefix Hfiles. revert es.
  induction items as [|it items IH]; intros es.
  - intros [= <-]. exists []. split; [done|]. by intros e' ?%elem_of_nil.
  - rewrite !process_media_items_cons.
    destruct (process_media_item E db _ _ it) as [task|] eqn:Hit; [|done].
    destruct (process_media_items E db items _ _) as [tasks|]; [|done].
    intros [= <-]. destruct (IH _ eq_refl) as (tasks' & -> & Htasks').
    destruct (select_media_item db' (item_id it)) as [row|] eqn:Hrow.
    + rewrite (process_media_item_indexed _ _ _ _ _ Hit Hrow).
      eexists. split; [done|].
      apply select_media_item_some in Hrow as [Hrow _].
      destruct task as [e|]; simpl.
      * intros e' [->|He']%elem_of_cons.
        -- left. simpl. by apply Hfiles.
        -- destruct (Htasks' e' He'); [by left|].
           right. apply elem_of_cons. by right.
      * done.
    + rewrite <- (process_media_item_select db db'), Hit.
      * eexists. split; [done|].
        destruct task as [e|]; simpl; [|done].
        intros e' [->|He']%elem_of_cons.
        -- right. apply elem_of_cons. by left.
        -- destruct (Htasks' e' He'); [by left|].
           right. apply elem_of_cons. by right.
      * rewrite Hrow. by apply (select_media_item_prefix db db').
Qed.

(** The tasks of a collection come from its items. *)
Lemma process_media_items_from (db : list media_row) (items : list item)
    (es : list entry) (e : entry) :
  process_media_items E db items save_directory album_uuid = Ok es →
  e ∈ es →
  ∃ it, it ∈ items ∧
        process_media_item E db save_directory album_uuid it = Ok (Some e).
Proof.
  revert es; induction items as [|it items IH]; intros es.
  - intros [= <-] ?%elem_of_nil. done.
  - rewrite process_media_items_cons.
    destruct (process_media_item E db _ _ it) as [task|] eqn:Hit; [|done].
    destruct (process_media_items E db items _ _) as [tasks|]; [|done].
    intros [= <-] He.
    assert (e ∈ tasks → ∃ it0, it0 ∈ it :: items ∧
              process_media_item E db save_directory album_uuid it0
                = Ok (Some e)) as Hrest.
    { intros (it0 & Hin & Hrun)%(IH _ eq_refl). exists it0.
      split; [apply elem_of_cons; by right | done]. }
    destruct task as [e0|]; simpl in He; [|by apply Hrest].
    apply elem_of_cons in He as [->|He]; [|by apply Hrest].
    exists it. split; [apply elem_of_cons; by left | done].
Qed.

End Reprocess.

Section Idempotence.

Variable E : env.

Lemma archive_cons (w : world) (c : collection) (cs : list collection) :
  archive E w (c :: cs) =
  match process_media_items E (media w) (c_items c) (c_directory c)
          (c_album c) with
  | Raise ex => (Raise ex, w)
  | Ok entries => archive E (download E w entries) cs
  end.
Proof. done. Qed.

(** A run only adds files and rows, and keeps the rows backed. *)
Lemma archive_grows (w : world) (cs : list collection) :
  grows (fs w) (fs (archive E w cs).2) ∧
  media w `prefix_of` media (archive E w cs).2 ∧
  (backed w → backed (archive E w cs).2).
Proof.
  revert w; induction cs as [|c cs IH]; intros w; [done|].
  rewrite archive_cons.
  destruct (process_media_items _ _ _ _ _) as [es|ex]; [|done].
  destruct (IH (download E w es)) as (Hg & Hp & Hb).
  split_and!.
  - etrans; [apply download_grows | done].
  - etrans; [apply download_media_prefix | done].
  - intros Hbacked. by apply Hb, download_backed.
Qed.

(** The tasks of a collection do not target directories. *)
Lemma tasks_clear (w : world) (c : collection) (cs : list collection)
    (es : list entry) :
  backed w → targets_clear E (fs w) (c :: cs) →
  process_media_items E (media w) (c_items c) (c_directory c) (c_album c)
    = Ok es →
  ∀ e, e ∈ es → fs w !! e_path e ≠ Some Dir.
Proof.
  intros Hb Hclear Hes e He.
  destruct (process_media_items_from E _ _ _ _ _ e Hes He)
    as (it & Hit & Hrun).
  apply process_media_item_path in Hrun
    as [(row & Hrow & ->)|(_ & filename & Hname & ->)].
  - apply select_media_item_some in Hrow as [Hrow _].
    specialize (Hb row Hrow). unfold isfile in Hb.
    by destruct (fs w !! row_path row) as [[d|]|].
  - eapply Hclear; [apply elem_of_cons; by left | done..].
Qed.

Lemma targets_clear_grows (σ σ' : filesystem) (c : collection)
    (cs : list collection) :
  grows σ σ' → targets_clear E σ (c :: cs) → targets_clear E σ' cs.
Proof.
  intros Hg Hclear c' it filename Hc' Hit Hname.
  rewrite <- (grows_dir _ _ _ Hg).
  eapply Hclear; [apply elem_of_cons; by right | done..].
Qed.

(** Running the pipeline again from the archive a run has left (or from
    one with the same files and rows) ends in the same way and changes
    neither files, rows nor the download counter. *)
Lemma archive_again (cs : list collection) (w0 w2 : world) :
  backed w0 → targets_clear E (fs w0) cs →
  same_store w2 (archive E w0 cs).2 →
  (archive E w2 cs).1 = (archive E w0 cs).1 ∧
  same_store (archive E w2 cs).2 w2 ∧
  downloads (archive E w2 cs).2 = downloads w2.
Proof.
  revert w0 w2; induction cs as [|c cs IH]; intros w0 w2 Hb Hclear Hsame;
    [done|].
  rewrite !archive_cons in Hsame |- *.
  destruct (process_media_items E (media w0) _ _ _) as [es|ex] eqn:Hes.
  - set (wa := download E w0 es) in *.
    destruct (archive_grows wa cs) as (Hg1 & Hp1 & Hb1).
    pose proof (download_grows E w0 es) as Hga.
    pose proof (download_media_prefix E w0 es) as Hpa.
    pose proof (download_backed E w0 es Hb) as Hba.
    fold wa in Hga, Hpa, Hba. specialize (Hb1 Hba).
    destruct Hsame as [Hfs2 Hmedia2].
    destruct (process_media_items_again E (c_directory c) (c_album c)
                (media w0) (media w2) (fs w2) (c_items c) es)
      as (es2 & -> & Hes2); [| |done|].
    { rewrite Hmedia2. by etrans. }
    { intros row Hrow. rewrite Hfs2. apply Hb1. by rewrite <- Hmedia2. }
    destruct (download_settled E w2 es2) as (Hsame2 & Hcount2 & _).
    { intros e2 He2. destruct (Hes2 e2 He2) as [Hfile|Hin]; [by left|].
      rewrite Hfs2. eapply settled_stable; [exact Hg1|].
      apply download_settles; [|done].
      by eapply tasks_clear. }
    destruct (IH wa (download E w2 es2)) as (Hr & Hstore & Hcount);
      [done | by eapply targets_clear_grows | |].
    { etrans; [exact Hsame2 | by split]. }
    rewrite (archive_cons w0 c cs), Hes.
    split_and!; [exact Hr | by etrans | congruence].
  - destruct Hsame as [_ Hmedia2]. simpl in Hmedia2.
    by rewrite (archive_cons w0 c cs), Hmedia2, Hes.
Qed.

End Idempotence.

(** C4, amended.  A task whose target path holds a file makes the worker
    return [False] (the spec's [AlreadyPresent]) with the archive, the log
    of requests included, unchanged.  And running the pipeline a second
    time over the same collections, with the service answering as in the
    first run and the workers run in submission order, creates no file
    and no row and counts no download, when the rows of the table name
    files that exist and no item is to be saved under the name of a
    directory. *)
Theorem pipeline_is_idempotent (E : env) :
  (∀ w e, isfile (fs w) (e_path e) = true →
          download_media_item E w e = (RFalse, w)) ∧
  (∀ w0 cs,
     backed w0 → targets_clear E (fs w0) cs →
     let w1 := (archive E w0 cs).2 in
     let w2 := (archive E w1 cs).2 in
     fs w2 = fs w1 ∧ media w2 = media w1 ∧ downloads w2 = downloads w1).
Proof.
  split; [apply download_media_item_present|].
  intros w0 cs Hb Hclear w1 w2.
  destruct (archive_again E cs w0 w1 Hb Hclear) as (_ & [Hfs Hmedia] & Hcount);
    done.
Qed.

Lemma pipeline_is_idempotent_witness :
  let w1 := (archive Sample.env_flaky Sample.fresh [sample_library]).2 in
  let w2 := (archive Sample.env_flaky w1 [sample_library]).2 in
  fs w2 = fs w1 ∧ media w2 = media w1 ∧ downloads w2 = downloads w1.
Proof.
  destruct (pipeline_is_idempotent Sample.env_flaky) as [_ Hagain].
  apply (Hagain Sample.fresh [sample_library]).
  - intros row Hrow. by apply elem_of_nil in Hrow.
  - intros c it filename ->%list_elem_of_singleton Hit Hname.
    apply elem_of_cons in Hit as [->|Hit].
    { vm_compute in Hname. injection Hname as <-. vm_compute. discriminate. }
    apply list_elem_of_singleton in Hit as ->.
    vm_compute in Hname. injection Hname as <-. vm_compute. discriminate.
Defined.

(** C4, as the claim states it, fails: a directory has the name of an
    item's target and the stream of the item breaks.  The first run
    writes the partial file under the next free name, [c (1).jpg], and
    records nothing; the second run finds the target still not a file,
    asks again and creates a new file, [c (2).jpg]. *)
Lemma second_run_creates_a_file :
  let w0 := set_fs (<["Library/c.jpg" := Dir]> (fs Sample.fresh))
              Sample.fresh in
  let c := {| c_items := [Sample.photo "cut" "c.jpg"];
              c_directory := "Library"; c_album := None |} in
  let w1 := (archive Sample.env_flaky w0 [c]).2 in
  let w2 := (archive Sample.env_flaky w1 [c]).2 in
  fs w1 !! "Library/c (1).jpg" = Some (File "JFIF") ∧
  fs w1 !! "Library/c (2).jpg" = None ∧
  fs w2 !! "Library/c (2).jpg" = Some (File "JFIF") ∧
  media w2 = [] ∧
  requested w1 = ["https://photos/cut=d"] ∧
  requested w2 = ["https://photos/cut=d"; "https://photos/cut=d"].
Proof. vm_compute. by split_and!. Qed.

Import StrFacts NameFacts.

(** ** Invariants of the pool *)

Section WorkerSteps.

Variable E : env.

Lemma f_write_grows (σ : filesystem) (path data : string) :
  grows σ (f_write σ path data).
Proof.
  unfold f_write. destruct (σ !! path) as [[old|]|] eqn:Hp; [|done..].
  apply grows_insert_file. by rewrite Hp.
Qed.

Lemma put_in_place_grows (B : xmp_behaviour) (xmpfile : bool) (x : xmp)
    (σ : filesystem) (path : string) :
  grows σ (put_in_place B xmpfile x σ path).2.
Proof.
  unfold put_in_place.
  destruct xmpfile; [|done].
  destruct (xb_can_put B x) as [[|]|]; [|done..].
  destruct (xb_put B x); [|done].
  destruct (xb_close_safe B); [|done].
  destruct (σ !! path) as [[data|]|] eqn:Hp; [|done..].
  apply grows_insert_file. by rewrite Hp.
Qed.

(** The metadata block only adds or rewrites files, whatever it finds. *)
Lemma embed_metadata_grows (σ : filesystem) (path : string)
    (description creation_time : option jval) :
  grows σ (embed_metadata E σ path description creation_time).2.
Proof.
  unfold embed_metadata.
  set (B := toolkit E path). set (found := if xb_open B then _ else _).
  destruct (prepare_xmp E B found description creation_time) as [x|ex].
  - pose proof (put_in_place_grows B (xb_open B) x σ path) as Hput.
    destruct (put_in_place B (xb_open B) x σ path) as [[|] σ1]; simpl in *.
    + done.
    + pose proof (write_sidecar_spec E B x σ1 path) as Hside.
      destruct (write_sidecar E B x σ1 path) as [[[]|ex] σ2];
        destruct Hside as [Hg _];
        (destruct (xb_open B); [destruct (xb_close B)|]); simpl;
        by etrans.
  - destruct (xb_open B); [destruct (xb_close B)|]; done.
Qed.

(** A step of a worker only adds or rewrites files, and leaves the table
    alone. *)
Lemma wstep_grows (e : entry) (st st' : wstate) (w w' : world) :
  wstep E e st w st' w' → grows (fs w) (fs w') ∧ media w' = media w.
Proof.
  destruct 1 as [| | | | | |w path chunks complete σ Hopen| | | | |
                 |w path how σ Hwants Hembed|w path ex σ Hwants Hembed];
    simpl; try done.
  - apply open_w_ok in Hopen as (Hdir & _ & ->). split; [|done].
    by apply grows_insert_file.
  - split; [apply f_write_grows | done].
  - split; [|done].
    pose proof (embed_metadata_grows (fs w) path (e_description e)
                  (e_creation_time e)) as Hg. by rewrite Hembed in Hg.
  - split; [|done].
    pose proof (embed_metadata_grows (fs w) path (e_description e)
                  (e_creation_time e)) as Hg. by rewrite Hembed in Hg.
Qed.

Lemma files_of_grows (σ σ' : filesystem) (t : entry * wstate) :
  grows σ σ' → files_of σ t → files_of σ' t.
Proof.
  intros Hg. unfold files_of.
  destruct t.2 as [| | | | | |[]|]; try done.
  - by apply grows_isfile.
  - by apply grows_isfile.
  - intros [? ?]. split; [done|]. by eapply grows_isfile.
Qed.

(** A worker that has opened its file, written it or returned a tuple has
    its file on disk. *)
Lemma wstep_files (e : entry) (st st' : wstate) (w w' : world) :
  wstep E e st w st' w' →
  files_of (fs w) (e, st) → files_of (fs w') (e, st').
Proof.
  intros Hstep. pose proof (wstep_grows _ _ _ _ _ Hstep) as [Hg _].
  destruct Hstep as [| | | | | |w path chunks complete σ Hopen| | | | |
                     |w path how σ Hwants Hembed|];
    unfold files_of in *; simpl in *; try done.
  - intros _. apply open_w_ok in Hopen as (_ & _ & ->).
    unfold isfile. by rewrite lookup_insert_eq.
  - by apply grows_isfile.
  - intros Hfile. split; [done|]. by eapply grows_isfile.
Qed.

End WorkerSteps.

Section MachineSafety.

Lemma backed_grows (w w' : world) :
  grows (fs w) (fs w') → media w' = media w → backed w → backed w'.
Proof.
  intros Hg Hmedia Hb row Hrow. rewrite Hmedia in Hrow.
  eapply grows_isfile; [done | by apply Hb].
Qed.

Lemma step_safe (m m' : machine) (l : label) :
  safe m → step m l m' → safe m'.
Proof.
  intros [Hb Hpool] Hstep.
  destruct Hstep as [E c m es Hdone Hes|E i m e st st' w' Hi Hw|i m e r Hi];
    split; simpl.
  - done.
  - apply Forall_fmap, Forall_forall. by intros e _.
  - destruct (wstep_grows _ _ _ _ _ _ Hw) as [Hg Hmedia].
    by eapply backed_grows.
  - destruct (wstep_grows _ _ _ _ _ _ Hw) as [Hg Hmedia].
    apply Forall_insert.
    + eapply Forall_impl; [done|]. intros t. by apply files_of_grows.
    + eapply wstep_files; [done|].
      by apply (Forall_lookup_1 _ _ _ _ Hpool Hi).
  - pose proof (Forall_lookup_1 _ _ _ _ Hpool Hi) as Hfiles.
    destruct r as [| |uuid path album]; try done.
    destruct Hfiles as [_ Hfile]. intros row. simpl.
    rewrite elem_of_app, list_elem_of_singleton.
    intros [Hrow| ->]; [by apply Hb | done].
  - rewrite record_outcome_fs. by apply Forall_insert.
Qed.

Lemma run_safe (w0 : world) (trace : list label) (m : machine) :
  backed w0 → run w0 trace m → safe m.
Proof.
  intros Hb. unfold run.
  remember {| m_world := w0; m_pool := [] |} as m0 eqn:Hm0.
  induction 1 as [m|m trace m1 l m2 _ IH Hstep].
  - subst m. split; [done | constructor].
  - eapply step_safe; [|done]. by apply IH.
Qed.

(** A row appears through the [for] loop only, from a tuple that a worker
    has returned. *)
Lemma step_new_row (m m' : machine) (l : label) (row : media_row) :
  step m l m' → row ∈ media (m_world m') → row ∉ media (m_world m) →
  ∃ i e, l = Drain i ∧
    m_pool m !! i =
      Some (e, Returned (RTuple (row_uuid row) (row_path row)
                           (row_album_uuid row))).
Proof.
  destruct 1 as [E c m es Hdone Hes|E i m e st st' w' Hi Hw|i m e r Hi];
    simpl.
  - done.
  - destruct (wstep_grows _ _ _ _ _ _ Hw) as [_ ->]. done.
  - destruct r as [| |uuid path album]; simpl; try done.
    rewrite elem_of_app, list_elem_of_singleton.
    intros [?| ->] Hnew; [done|]. by exists i, e.
Qed.

End MachineSafety.

(** C9.  In every state the pool can reach from an archive whose rows
    name existing files, every row names a file that exists.  A row is
    inserted by the [for] loop only, for a tuple a worker has returned,
    and the file of that tuple is on disk before the insert.  So stopping
    the run in any state leaves no row without its file. *)
Theorem rows_follow_files (w0 : world) (trace : list label) (m : machine) :
  backed w0 → run w0 trace m →
  backed (m_world m) ∧
  ∀ l m' row,
    step m l m' → row ∈ media (m_world m') → row ∉ media (m_world m) →
    isfile (fs (m_world m)) (row_path row) = true ∧
    ∃ i e, l = Drain i ∧
      m_pool m !! i =
        Some (e, Returned (RTuple (row_uuid row) (row_path row)
                             (row_album_uuid row))).
Proof.
  intros Hb Hrun. destruct (run_safe w0 trace m Hb Hrun) as [Hbacked Hpool].
  split; [done|]. intros l m' row Hstep Hin Hnew.
  destruct (step_new_row m m' l row Hstep Hin Hnew) as (i & e & -> & Hi).
  split; [|by exists i, e].
  by destruct (Forall_lookup_1 _ _ _ _ Hpool Hi) as [_ Hfile].
Qed.

Import StrFacts NameFacts.

(** ** The sequential loop is a run of the pool *)

Section Schedule.

Variable E : env.

Lemma wsteps_step (e : entry) (st st' st'' : wstate) (w w' w'' : world) :
  wstep E e st w st' w' → wsteps E e (st', w') (st'', w'') →
  wsteps E e (st, w) (st'', w'').
Proof. intros Hstep Hrest. by apply (rtc_l _ _ (st', w')). Qed.

(** Writing the chunks that are still to arrive. *)
Lemma wsteps_chunks (e : entry) (path : string) (rest : list string)
    (complete : bool) (w : world) :
  wsteps E e (Writing path rest complete, w)
    (Writing path [] complete,
     set_fs (foldl (λ σ chunk, f_write σ path chunk) (fs w) rest) w).
Proof.
  revert w; induction rest as [|chunk rest IH]; intros w; simpl.
  - destruct w. apply rtc_refl.
  - eapply wsteps_step; [apply w_chunk|]. apply (IH (set_fs _ w)).
Qed.

(** The worker, from [Waiting] to the value it returns, is a sequence of
    its steps. *)
Lemma download_media_item_wsteps (w : world) (e : entry) :
  wsteps E e (Waiting, w)
    (Returned (download_media_item E w e).1, (download_media_item E w e).2).
Proof.
  rewrite download_media_item_cases.
  destruct (isfile (fs w) (e_path e)) eqn:Hfile; simpl.
  { eapply wsteps_step; [by apply w_present|]. apply rtc_refl. }
  eapply wsteps_step; [by apply w_absent|].
  destruct (http_get E (e_url e)) as [|status chunks complete] eqn:Hget;
    simpl.
  { eapply wsteps_step; [by apply w_no_reply|]. apply rtc_refl. }
  destruct (Z.eqb_spec status 200) as [->|Hne]; simpl.
  2:{ eapply wsteps_step; [by eapply w_status|]. apply rtc_refl. }
  eapply wsteps_step; [by apply w_ok|].
  eapply wsteps_step; [apply w_name|]. simpl.
  set (path := auto_filename (fs w) (e_path e) 0).
  pose proof (auto_filename_fresh (fs w) (e_path e) 0) as Hfresh.
  fold path in Hfresh.
  destruct (os_refuses E path) eqn:Hos; simpl.
  { eapply wsteps_step; [|apply rtc_refl].
    eapply (w_open_fails _ _ _ _ _ _ (OSError path)).
    unfold open_w. simpl. by rewrite Hfresh, Hos. }
  eapply wsteps_step.
  { apply w_open. apply open_w_free; [|done]. simpl. by rewrite Hfresh. }
  etrans; [apply wsteps_chunks|]. simpl.
  rewrite write_chunks. fold (body_of chunks).
  destruct complete; simpl.
  2:{ eapply wsteps_step; [apply w_broken|]. apply rtc_refl. }
  simpl.
  eapply wsteps_step; [apply w_eof|].
  set (σ2 := <[path := File (body_of chunks)]> (fs w)).
  set (w2 := set_fs σ2 (set_fs _ (after_request w (e_url e)))).
  destruct (wants_metadata e) eqn:Hwants; simpl.
  - destruct (embed_metadata E σ2 path _ _) as [[how|ex] σ3] eqn:Hembed.
    + change (after_download σ3 (after_request w (e_url e)))
        with (after_download σ3 w2).
      eapply wsteps_step; [|apply rtc_refl].
      by eapply (w_embedded _ _ w2 path how σ3).
    + change (set_fs σ3 (after_request w (e_url e))) with (set_fs σ3 w2).
      eapply wsteps_step; [|apply rtc_refl].
      by eapply (w_cleanup_fails _ _ w2 path ex σ3).
  - change (after_download σ2 (after_request w (e_url e)))
      with (after_download (fs w2) w2).
    eapply wsteps_step; [|apply rtc_refl]. by apply (w_plain _ _ w2 path).
Qed.

End Schedule.

Section Lifting.

Lemma steps_app (m m1 m2 : machine) (t1 t2 : list label) :
  steps m t1 m1 → steps m1 t2 m2 → steps m (t1 ++ t2) m2.
Proof.
  intros H1. induction 1 as [|m1 t2 m2 l m3 _ IH Hstep].
  - by rewrite app_nil_r.
  - rewrite app_assoc. eapply steps_snoc; [by apply IH | done].
Qed.

Lemma steps_one (m m' : machine) (l : label) : step m l m' → steps m [l] m'.
Proof. intros Hstep. apply (steps_snoc m [] m); [constructor | done]. Qed.

Variable E : env.

(** The steps of the worker of task [i] are steps of the machine. *)
Lemma work_steps (e : entry) (i : nat) (x y : wstate * world) :
  wsteps E e x y →
  ∀ pool, pool !! i = Some (e, x.1) →
  ∃ trace,
    Forall (λ l, is_start l = false) trace ∧
    steps {| m_world := x.2; m_pool := pool |} trace
      {| m_world := y.2; m_pool := <[i := (e, y.1)]> pool |}.
Proof.
  induction 1 as [x|x y z Hxy _ IH]; intros pool Hi.
  - exists []. rewrite list_insert_id by done. split; constructor.
  - destruct (IH (<[i := (e, y.1)]> pool)) as (trace & Hwork & Htrace).
    { apply list_lookup_insert_eq. by eapply lookup_lt_Some. }
    exists ([Work E i] ++ trace). split; [by constructor|].
    rewrite list_insert_insert_eq in Htrace.
    eapply steps_app; [|exact Htrace].
    apply steps_one.
    by apply (step_work E i {| m_world := x.2; m_pool := pool |} e x.1).
Qed.

Lemma pool_advance (before es : list entry) (e : entry) (st : wstate) :
  <[length before := (e, Consumed)]>
    (((λ e, (e, Consumed)) <$> before)
       ++ (e, st) :: ((λ e, (e, Waiting)) <$> es)) =
  ((λ e, (e, Consumed)) <$> before ++ [e]) ++ ((λ e, (e, Waiting)) <$> es).
Proof.
  rewrite insert_app_r_alt by (by rewrite length_fmap).
  rewrite length_fmap, Nat.sub_diag. simpl.
  by rewrite fmap_app, <- app_assoc.
Qed.

(** The tasks [before] are done, the tasks [es] wait: running the workers
    of [es] one after the other, each outcome being taken at once, is a
    sequence of steps that ends in the archive [download] computes. *)
Lemma download_steps (before es : list entry) (w : world) :
  ∃ trace,
    Forall (λ l, is_start l = false) trace ∧
    steps
      {| m_world := w;
         m_pool := ((λ e, (e, Consumed)) <$> before)
                     ++ ((λ e, (e, Waiting)) <$> es) |}
      trace
      {| m_world := download E w es;
         m_pool := (λ e, (e, Consumed)) <$> (before ++ es) |}.
Proof.
  revert before w; induction es as [|e es IH]; intros before w.
  - exists []. simpl. rewrite !app_nil_r. split; constructor.
  - set (i := length before).
    set (pool := ((λ e, (e, Consumed)) <$> before)
                   ++ ((λ e, (e, Waiting)) <$> e :: es)).
    assert (Hi : pool !! i = Some (e, Waiting)).
    { unfold i, pool. rewrite lookup_app_r by (by rewrite length_fmap).
      by rewrite length_fmap, Nat.sub_diag. }
    destruct (work_steps e i _ _ (download_media_item_wsteps E w e) _ Hi)
      as (trace1 & Hwork1 & Hwork).
    simpl in Hwork.
    destruct (download_media_item E w e) as [r w1] eqn:Hrun. simpl in *.
    destruct (IH (before ++ [e]) (record_outcome w1 r))
      as (trace2 & Hwork2 & Hrest).
    exists (trace1 ++ [Drain i] ++ trace2).
    split; [apply Forall_app; split; [done | by constructor]|].
    eapply steps_app; [exact Hwork|]. eapply steps_app.
    + apply steps_one. eapply (step_drain i _ e r). simpl.
      apply list_lookup_insert_eq. by eapply lookup_lt_Some.
    + simpl. rewrite list_insert_insert_eq.
      unfold pool, i. cbn [fmap list_fmap]. 
      change (list_fmap _ _ ?f ?l) with (f <$> l). rewrite pool_advance.
      rewrite <- app_assoc in Hrest. rewrite Hrun. exact Hrest.
Qed.

(** The sequential pipeline is a run of the pool: the collections are
    started one after the other, the workers of each batch run one at a
    time. *)
Lemma archive_steps (cs : list collection) (m0 : machine) :
  idle m0 →
  ∃ trace m,
    steps m0 trace m ∧ idle m ∧
    m_world m = (archive E (m_world m0) cs).2 ∧
    ∀ E' c, Start E' c ∈ trace → c ∈ cs.
Proof.
  revert m0; induction cs as [|c cs IH]; intros m0 Hidle.
  - exists [], m0. split_and!; [constructor | done | done |].
    by intros E' c ?%elem_of_nil.
  - simpl.
    destruct (process_media_items E _ _ _ _) as [es|ex] eqn:Hes.
    + destruct (download_steps [] es (m_world m0))
        as (trace1 & Hwork1 & Hsteps1).
      destruct (IH {| m_world := download E (m_world m0) es;
                      m_pool := (λ e, (e, Consumed)) <$> [] ++ es |})
        as (trace2 & m & Hsteps2 & Hidle2 & Hworld & Hstarts).
      { apply Forall_fmap, Forall_forall. by intros e _. }
      exists ([Start E c] ++ trace1 ++ trace2), m.
      split_and!; [|done|done|].
      * eapply steps_app; [apply steps_one; by apply step_start|].
        eapply steps_app; [exact Hsteps1 | exact Hsteps2].
      * intros E' c' Hin.
        apply elem_of_app in Hin as [Hin|Hin].
        { apply list_elem_of_singleton in Hin as [= -> ->].
          apply elem_of_cons. by left. }
        apply elem_of_app in Hin as [Hin|Hin].
        { rewrite Forall_forall in Hwork1. by apply Hwork1 in Hin. }
        apply elem_of_cons. right. by eapply Hstarts.
    + exists [], m0. split_and!; [constructor | done | done |].
      by intros E' c' ?%elem_of_nil.
Qed.

End Lifting.

Import StrFacts NameFacts.

(** ** One row per item *)

Section Counting.








End Counting.

Section Uniqueness.






End Uniqueness.

Section RunInvariant.



End RunInvariant.



Lemma rows_follow_files_witness :
  backed (archive Sample.env_ok Sample.fresh [sample_library]).2.
Proof.
  destruct (archive_steps Sample.env_ok [sample_library]
              {| m_world := Sample.fresh; m_pool := [] |})
    as (trace & m & Hsteps & _ & Hworld & _); [constructor|].
  cbn [m_world] in Hworld. rewrite <- Hworld.
  apply (rows_follow_files Sample.fresh trace m).
  - intros row Hrow. by apply elem_of_nil in Hrow.
  - exact Hsteps.
Defined.

Import StrFacts NameFacts.

(** ** Two workers on one item *)

Section Race.

Variable E : env.


End Race.


Import StrFacts NameFacts.

(** * The rest of the program *)

(** ** Listings *)

Section Listings.

(** [list_media_items] on a collection that is served as [pages]. *)
Lemma list_media_items_serves (list_call : option string → result page)
    (pages : list page) (fuel : nat) :
  serves list_call None pages → length pages ≤ fuel →
  list_media_items list_call fuel = Some (Ok (items_of pages)).
Proof.
  destruct pages as [|p rest]; [done|]. intros Hs Hfuel.
  unfold list_media_items. pose proof Hs as [Hp Hrest]. rewrite Hp.
  destruct (page_is_empty p) eqn:Hempty.
  - destruct rest as [|q rest].
    + by rewrite items_of_empty_page.
    + unfold page_is_empty in Hempty.
      destruct (mediaItems p), (nextPageToken p); done.
  - erewrite list_loop_serves; [done | done |]. simpl in Hfuel. lia.
Qed.

Lemma list_albums_loop_paged (albums_list : option string → result albums_page)
    (fuel : nat) (request : albums_page) (acc : list item) :
  list_albums_loop albums_list fuel request acc =
  list_loop (paged albums_as_page albums_list) fuel (albums_as_page request)
    acc.
Proof.
  revert request acc; induction fuel as [|fuel IH]; intros request acc;
    [done|].
  cbn [list_albums_loop list_loop albums_as_page mediaItems nextPageToken].
  destruct (ap_nextPageToken request) as [t|]; [|done].
  unfold paged at 1. destruct (albums_list (Some t)); [|done]. apply IH.
Qed.

Lemma search_loop_paged (media_search : search_body → result page)
    (body : string → search_body) (fuel : nat) (request : page)
    (acc : list item) :
  search_loop media_search body fuel request acc =
  list_loop (searched media_search body) fuel request acc.
Proof.
  revert request acc; induction fuel as [|fuel IH]; intros request acc;
    [done|].
  cbn [search_loop list_loop].
  destruct (nextPageToken request) as [t|]; [|done].
  unfold searched at 1. simpl.
  destruct (media_search (body t)); [|done]. apply IH.
Qed.

(** While the responses carry ["sharedAlbums"], the loop of
    [list_shared_albums] is the loop of [list_media_items]; at the first
    response without the key it raises. *)
Lemma list_shared_albums_loop_serves
    (shared_albums_list : option string → result shared_albums_page)
    (fuel : nat) (tok : option string) (p : shared_albums_page)
    (rest : list page) (acc : list item) :
  serves (paged shared_as_page shared_albums_list) tok
    (shared_as_page p :: rest) →
  length rest < fuel →
  list_shared_albums_loop shared_albums_list fuel p acc =
    if forallb (λ q, bool_decide (is_Some (mediaItems q)))
         (shared_as_page p :: rest)
    then Some (Ok (acc ++ items_of (shared_as_page p :: rest)))
    else Some (Raise (KeyError "sharedAlbums")).
Proof.
  revert tok p acc fuel.
  induction rest as [|q rest IH]; intros tok p acc fuel Hs Hfuel;
    (destruct fuel as [|fuel]; [simpl in Hfuel; lia|]).
  - destruct Hs as [_ Hlast]. simpl in Hlast.
    cbn [list_shared_albums_loop forallb shared_as_page mediaItems].
    destruct (sp_sharedAlbums p) as [l|] eqn:Hl; [|done]. rewrite Hlast.
    simpl. unfold items_of. simpl. by rewrite Hl, app_nil_r.
  - destruct Hs as [_ Hnext]. simpl in Hnext.
    cbn [list_shared_albums_loop].
    change (forallb _ (shared_as_page p :: q :: rest)) with
      (bool_decide (is_Some (sp_sharedAlbums p))
       && forallb (λ q, bool_decide (is_Some (mediaItems q))) (q :: rest)).
    destruct (sp_sharedAlbums p) as [l|] eqn:Hl; [|done].
    destruct (sp_nextPageToken p) as [t|]; [|done].
    pose proof Hnext as [Hq _]. unfold paged in Hq.
    destruct (shared_albums_list (Some t)) as [p'|]; [|done].
    injection Hq as <-.
    rewrite (IH (Some t)) by (done || simpl in Hfuel; lia).
    rewrite bool_decide_true by (by eexists). cbn [andb].
    destruct (forallb _ (shared_as_page p' :: rest)); [|done].
    unfold items_of. cbn [fmap list_fmap concat shared_as_page mediaItems].
    rewrite Hl. simpl. by rewrite <- app_assoc.
Qed.

End Listings.

(** X1.  [list_albums] pages through the albums exactly as
    [list_media_items] pages through the library: on every service and
    for every bound it is [list_media_items] over the albums call, the
    list under ["albums"] read where that one reads ["mediaItems"].  So an
    album listing that is served as [pages] yields the albums of all
    pages, in page order. *)
Theorem list_albums_pages_like_the_library
    (albums_list : option string → result albums_page) (fuel : nat) :
  list_albums albums_list fuel =
    list_media_items (paged albums_as_page albums_list) fuel ∧
  ∀ pages,
    serves (paged albums_as_page albums_list) None pages →
    length pages ≤ fuel →
    list_albums albums_list fuel = Some (Ok (items_of pages)).
Proof.
  assert (list_albums albums_list fuel =
          list_media_items (paged albums_as_page albums_list) fuel) as Heq.
  { unfold list_albums, list_media_items, paged.
    destruct (albums_list None) as [request|]; [|done].
    unfold page_is_empty. simpl.
    destruct (ap_albums request) eqn:Ha, (ap_nextPageToken request) eqn:Ht;
      try apply list_albums_loop_paged.
    done. }
  split; [done|]. intros pages Hs Hfuel. rewrite Heq.
  by apply list_media_items_serves.
Qed.

(** X2.  [search_favorites] is [list_media_items] over the search call,
    the first request carrying the empty page token; favourites served as
    [pages] are returned whole, in page order. *)
Theorem search_favorites_pages_like_the_library
    (media_search : search_body → result page) (fuel : nat) :
  search_favorites media_search fuel =
    list_media_items (searched media_search ByFavorites) fuel ∧
  ∀ pages,
    serves (searched media_search ByFavorites) None pages →
    length pages ≤ fuel →
    search_favorites media_search fuel = Some (Ok (items_of pages)).
Proof.
  assert (search_favorites media_search fuel =
          list_media_items (searched media_search ByFavorites) fuel) as Heq.
  { unfold search_favorites, list_media_items, searched. simpl.
    destruct (media_search (ByFavorites "")) as [request|]; [|done].
    destruct (page_is_empty request); [done|]. apply search_loop_paged. }
  split; [done|]. intros pages Hs Hfuel. rewrite Heq.
  by apply list_media_items_serves.
Qed.

(** [list_shared_albums] on a listing that is served as pages. *)
Lemma list_shared_albums_cases
    (shared_albums_list : option string → result shared_albums_page)
    (first : shared_albums_page) (rest : list page) (fuel : nat) :
  serves (paged shared_as_page shared_albums_list) None
    (shared_as_page first :: rest) →
  page_is_empty (shared_as_page first) = false →
  S (length rest) ≤ fuel →
  (Forall (λ q, is_Some (mediaItems q)) (shared_as_page first :: rest) →
   list_shared_albums shared_albums_list fuel =
     Some (Ok (items_of (shared_as_page first :: rest)))) ∧
  (Exists (λ q, mediaItems q = None) (shared_as_page first :: rest) →
   list_shared_albums shared_albums_list fuel =
     Some (Raise (KeyError "sharedAlbums"))).
Proof.
  intros Hs Hfirst Hfuel.
  assert (list_shared_albums shared_albums_list fuel =
          list_shared_albums_loop shared_albums_list fuel first []) as ->.
  { unfold list_shared_albums. pose proof Hs as [Hp _]. unfold paged in Hp.
    destruct (shared_albums_list None) as [p|]; [|done].
    injection Hp as Hp1 Hp2.
    assert (p = first) as ->.
    { destruct p, first. simpl in Hp1, Hp2. by subst. }
    unfold page_is_empty in Hfirst. simpl in Hfirst.
    by destruct (sp_sharedAlbums first), (sp_nextPageToken first). }
  rewrite (list_shared_albums_loop_serves _ _ None _ rest) by (done || lia).
  split.
  - intros Hall.
    assert (forallb (λ q, bool_decide (is_Some (mediaItems q)))
              (shared_as_page first :: rest) = true) as ->; [|done].
    apply forallb_forall. intros q Hq%list_elem_of_In.
    rewrite Forall_forall in Hall. by apply bool_decide_eq_true, Hall.
  - intros Hsome.
    assert (forallb (λ q, bool_decide (is_Some (mediaItems q)))
              (shared_as_page first :: rest) = false) as ->; [|done].
    apply not_true_is_false. intros Hall.
    apply Exists_exists in Hsome as (q & Hin & Hnone).
    rewrite forallb_forall in Hall.
    specialize (Hall q (proj1 (list_elem_of_In _ _) Hin)).
    apply bool_decide_eq_true in Hall. rewrite Hnone in Hall.
    by destruct Hall.
Qed.

(** X3.  [list_shared_albums] reads [request["sharedAlbums"]] without
    testing for the key.  When the listing is served as [pages] and the
    first response is not the empty dict: if every response carries the
    key, the albums of all pages are returned in page order; if some
    response lacks it, the call raises [KeyError] and returns no album,
    also none of the pages read before. *)
Theorem list_shared_albums_needs_the_key
    (shared_albums_list : option string → result shared_albums_page)
    (first : shared_albums_page) (rest : list page) (fuel : nat) :
  serves (paged shared_as_page shared_albums_list) None
    (shared_as_page first :: rest) →
  page_is_empty (shared_as_page first) = false →
  S (length rest) ≤ fuel →
  (Forall (λ q, is_Some (mediaItems q)) (shared_as_page first :: rest) →
   list_shared_albums shared_albums_list fuel =
     Some (Ok (items_of (shared_as_page first :: rest)))) ∧
  (Exists (λ q, mediaItems q = None) (shared_as_page first :: rest) →
   list_shared_albums shared_albums_list fuel =
     Some (Raise (KeyError "sharedAlbums"))).
Proof. apply list_shared_albums_cases. Qed.

Lemma list_shared_albums_needs_the_key_witness :
  list_shared_albums SampleAlbums.shared_albums_list 2 =
    Some (Raise (KeyError "sharedAlbums")).
Proof.
  refine (proj2 (list_shared_albums_needs_the_key
                   SampleAlbums.shared_albums_list
                   {| sp_sharedAlbums := Some [SampleAlbums.trip];
                      sp_nextPageToken := Some "n" |}
                   [{| mediaItems := None; nextPageToken := None |}] 2
                   _ _ _) _).
  - repeat split.
  - reflexivity.
  - simpl. lia.
  - apply Exists_cons_tl, Exists_cons_hd. reflexivity.
Defined.

(** ** Directories *)

Section Directories.

Lemma persists_refl (σ : filesystem) : persists σ σ.
Proof.
  intros p. unfold isfile. by destruct (σ !! p) as [[]|].
Qed.

Lemma persists_trans (σ1 σ2 σ3 : filesystem) :
  persists σ1 σ2 → persists σ2 σ3 → persists σ1 σ3.
Proof.
  intros H12 H23 p. specialize (H12 p). specialize (H23 p).
  unfold isfile in *.
  destruct (σ1 !! p) as [[]|]; [| |done].
  - by destruct (σ2 !! p) as [[]|].
  - by rewrite H12 in H23.
Qed.

Lemma grows_persists (σ σ' : filesystem) : grows σ σ' → persists σ σ'.
Proof.
  intros Hg p. specialize (Hg p). by destruct (σ !! p) as [[]|].
Qed.

Lemma persists_mkdir (σ : filesystem) (p : string) :
  σ !! p = None → persists σ (<[p := Dir]> σ).
Proof.
  intros Hfree q. destruct (decide (q = p)) as [->|Hne].
  - by rewrite Hfree.
  - unfold isfile. rewrite lookup_insert_ne by done.
    by destruct (σ !! q) as [[]|].
Qed.

Lemma persists_some (σ σ' : filesystem) (p : string) :
  persists σ σ' → is_Some (σ !! p) → is_Some (σ' !! p).
Proof.
  intros Hp [x Hx]. specialize (Hp p). rewrite Hx in Hp.
  unfold isfile in Hp. destruct x, (σ' !! p) as [[]|]; by eauto.
Qed.

Lemma safe_mkdir_cases (refuses : string → bool) (σ : filesystem)
    (path : string) :
  safe_mkdir refuses σ path =
  match σ !! path with
  | Some _ => (Ok (), σ)
  | None =>
      if refuses path then (Raise (OSError path), σ)
      else (Ok (), <[path := Dir]> σ)
  end.
Proof.
  unfold safe_mkdir, os_mkdir, path_exists.
  destruct (σ !! path); [done|]. simpl. by destruct (refuses path).
Qed.

Lemma safe_mkdirs_spec (refuses : string → bool) (paths : list string)
    (σ σ' : filesystem) (r : result unit) :
  safe_mkdirs refuses σ paths = (r, σ') →
  persists σ σ' ∧
  (∀ p, p ∉ paths → σ' !! p = σ !! p) ∧
  (∀ p, σ' !! p = σ !! p ∨ σ !! p = None ∧ σ' !! p = Some Dir) ∧
  (r = Ok () → Forall (λ p, is_Some (σ' !! p)) paths).
Proof.
  revert σ; induction paths as [|path paths IH]; intros σ; simpl.
  - intros [= <- <-]. split_and!; [apply persists_refl | done | by left |].
    by constructor.
  - rewrite safe_mkdir_cases.
    destruct (σ !! path) as [x|] eqn:Hpath.
    + intros Hrest. destruct (IH _ Hrest) as (Hp & Hout & Hstep & Hall).
      split_and!; [done | | done |].
      * intros p Hp'. apply Hout. intros Hin. apply Hp'. by right.
      * intros ->. constructor; [|by apply Hall].
        eapply persists_some; [done|]. by rewrite Hpath.
    + destruct (refuses path).
      { intros [= <- <-].
        split_and!; [apply persists_refl | done | by left | done]. }
      intros Hrest. destruct (IH _ Hrest) as (Hp & Hout & Hstep & Hall).
      split_and!.
      * eapply persists_trans; [by apply persists_mkdir | done].
      * intros p Hp'. rewrite Hout by (intros Hin; apply Hp'; by right).
        apply lookup_insert_ne. intros ->. apply Hp'. by left.
      * intros p. destruct (Hstep p) as [Heq|[Hnone Hdir]].
        -- rewrite Heq. destruct (decide (p = path)) as [->|Hne].
           ++ right. by rewrite lookup_insert_eq.
           ++ left. by rewrite lookup_insert_ne.
        -- destruct (decide (p = path)) as [->|Hne].
           ++ by rewrite lookup_insert_eq in Hnone.
           ++ rewrite lookup_insert_ne in Hnone by done. by right.
      * intros ->. constructor; [|by apply Hall].
        eapply persists_some; [done|]. rewrite lookup_insert_eq. by eexists.
Qed.

Lemma safe_mkdirs_present (refuses : string → bool) (paths : list string)
    (σ : filesystem) :
  Forall (λ p, is_Some (σ !! p)) paths →
  safe_mkdirs refuses σ paths = (Ok (), σ).
Proof.
  induction 1 as [|path paths [x Hx] _ IH]; [done|]. simpl.
  by rewrite safe_mkdir_cases, Hx.
Qed.

End Directories.

(** X4.  [safe_mkdir] touches the file system only when nothing is at the
    path: whatever is there, a directory or a file, makes the call return
    with the file system as it was and without an error; an absent path
    becomes a directory, or the error of [os.mkdir] leaves the function
    with nothing changed.  After a call that returned, something is at the
    path and a second call changes nothing. *)
Theorem safe_mkdir_only_when_absent (refuses : string → bool)
    (σ : filesystem) (path : string) :
  (is_Some (σ !! path) → safe_mkdir refuses σ path = (Ok (), σ)) ∧
  (σ !! path = None → refuses path = false →
     safe_mkdir refuses σ path = (Ok (), <[path := Dir]> σ)) ∧
  (σ !! path = None → refuses path = true →
     safe_mkdir refuses σ path = (Raise (OSError path), σ)) ∧
  (∀ σ', safe_mkdir refuses σ path = (Ok (), σ') →
     is_Some (σ' !! path) ∧ persists σ σ' ∧
     safe_mkdir refuses σ' path = (Ok (), σ')).
Proof.
  rewrite safe_mkdir_cases. split_and!.
  - by intros [x ->].
  - by intros -> ->.
  - by intros -> ->.
  - intros σ'. destruct (σ !! path) as [x|] eqn:Hpath.
    + intros [= <-]. rewrite safe_mkdir_cases, Hpath.
      split_and!; [by eexists | apply persists_refl | done].
    + destruct (refuses path); [done|]. intros [= <-].
      rewrite safe_mkdir_cases, lookup_insert_eq.
      split_and!; [by eexists | by apply persists_mkdir | done].
Qed.

(** X5.  The directories of [__init__]: when the five calls of
    [safe_mkdir] return, the archive directory and its four
    sub-directories exist, everything that existed before is still there,
    every path whose entry changed was free and is now a directory, and
    no other path was touched; starting the program again on the result
    creates nothing. *)
Theorem init_directories_idempotent (E : env) (directory : string)
    (σ σ' : filesystem) :
  init_directories E directory σ = (Ok (), σ') →
  Forall (λ p, is_Some (σ' !! p))
    [directory; lib_dir directory; albums_dir directory;
     shared_albums_dir directory; favorites_dir directory] ∧
  persists σ σ' ∧
  (∀ p, σ' !! p = σ !! p ∨ σ !! p = None ∧ σ' !! p = Some Dir) ∧
  (∀ p, p ∉ [directory; lib_dir directory; albums_dir directory;
             shared_albums_dir directory; favorites_dir directory] →
        σ' !! p = σ !! p) ∧
  init_directories E directory σ' = (Ok (), σ').
Proof.
  unfold init_directories. intros Hrun.
  destruct (safe_mkdirs_spec _ _ _ _ _ Hrun) as (Hp & Hout & Hstep & Hall).
  specialize (Hall eq_refl).
  split_and!; [done..|]. by apply safe_mkdirs_present.
Qed.

Lemma init_directories_idempotent_witness :
  init_directories Sample.env_ok "arch" (fs (acc_world SampleAlbums.start))
    = (Ok (), fs (acc_world SampleAlbums.start)).
Proof.
  assert (init_directories Sample.env_ok "arch" ∅
          = (Ok (), fs (acc_world SampleAlbums.start))) as Hfirst.
  { vm_compute. reflexivity. }
  apply (init_directories_idempotent Sample.env_ok "arch" ∅
           (fs (acc_world SampleAlbums.start)) Hfirst).
Defined.

(** ** Albums *)

Section Albums.

Variable E : env.
Variable abspath : string → string.
Variable directory : string.
Variable media_search : search_body → result page.

Lemma select_album_app (db : list album_row) (r : album_row)
    (uuid : string) :
  select_album (db ++ [r]) uuid =
  match select_album db uuid with
  | Some r' => Some r'
  | None => if String.eqb (a_uuid r) uuid then Some r else None
  end.
Proof.
  unfold select_album. induction db as [|r' db IH]; simpl.
  - by destruct (String.eqb _ _).
  - by destruct (String.eqb (a_uuid r') uuid).
Qed.

Lemma select_album_some (db : list album_row) (uuid : string)
    (r : album_row) :
  select_album db uuid = Some r → r ∈ db ∧ a_uuid r = uuid.
Proof.
  unfold select_album. intros Hfind. apply find_some in Hfind as [Hin Heq].
  split; [by apply list_elem_of_In | by apply String.eqb_eq].
Qed.

Lemma select_album_none (db : list album_row) (uuid : string) :
  select_album db uuid = None ↔ uuid ∉ a_uuid <$> db.
Proof.
  unfold select_album. induction db as [|r db IH]; simpl.
  - split; [intros _ Hin; by apply elem_of_nil in Hin | done].
  - destruct (String.eqb_spec (a_uuid r) uuid) as [Heq|Hne].
    + split; [done|]. intros Hnot. exfalso. apply Hnot. rewrite Heq. by left.
    + rewrite IH. rewrite not_elem_of_cons. naive_solver.
Qed.

Lemma set_world_id (a : account) : set_world (acc_world a) a = a.
Proof. by destruct a. Qed.

Lemma set_fs_id (w : world) : set_fs (fs w) w = w.
Proof. by destruct w. Qed.

Lemma download_counter (w : world) (es : list entry) :
  downloads w ≤ downloads (download E w es).
Proof.
  revert w; induction es as [|e es IH]; intros w; simpl; [done|].
  destruct (download_media_item E w e) as [r w1] eqn:Hrun.
  etrans; [|apply IH].
  destruct r as [| |uuid path album].
  - pose proof (download_media_item_not_tuple E w e) as Hsame.
    rewrite Hrun in Hsame. simpl in *. rewrite Hsame by (by left). done.
  - pose proof (download_media_item_not_tuple E w e) as Hsame.
    rewrite Hrun in Hsame. simpl in *. rewrite Hsame by (by right). done.
  - apply download_media_item_tuple in Hrun as (_ & _ & _ & _ & _ & Hd & _).
    simpl. lia.
Qed.

Lemma extends_refl (a : account) : extends a a.
Proof. split_and!; [done | done | apply persists_refl | done]. Qed.

Lemma extends_trans (a1 a2 a3 : account) :
  extends a1 a2 → extends a2 a3 → extends a1 a3.
Proof.
  intros (Ha & Hm & Hp & Hd) (Ha' & Hm' & Hp' & Hd').
  split_and!; [by etrans | by etrans | by eapply persists_trans | lia].
Qed.

(** Processing and downloading add media rows and files only. *)
Lemma process_and_download_spec (a a' : account) (media_items : list item)
    (save_directory : string) (album_uuid : option string)
    (r : result unit) :
  process_and_download E a media_items save_directory album_uuid = (r, a') →
  extends a a' ∧ acc_albums a' = acc_albums a ∧
  grows (fs (acc_world a)) (fs (acc_world a')).
Proof.
  unfold process_and_download.
  destruct (process_media_items E _ _ _ _) as [items|ex].
  - intros [= <- <-]. simpl.
    split_and!; [split_and! | done | apply download_grows]; simpl.
    + done.
    + apply download_media_prefix.
    + apply grows_persists, download_grows.
    + apply download_counter.
  - intros [= <- <-].
    split_and!; [apply extends_refl | done | apply grows_refl].
Qed.

(** The directory of an album: the one of its row, or the first free
    candidate, created and recorded. *)
Lemma album_directory_cases (a : account) (id title : string)
    (shared : bool) :
  let parent :=
    if shared then shared_albums_dir directory else albums_dir directory in
  match select_album (acc_albums a) id with
  | Some row => album_directory E abspath directory a id title shared
                  = (Ok (a_path row), a)
  | None =>
      ∃ n, least_free (path_exists (fs (acc_world a)))
             (mkdir_candidate (parent +:+ "/" +:+ title)) 0 n ∧
           let dir := mkdir_candidate (parent +:+ "/" +:+ title) n in
           album_directory E abspath directory a id title shared =
             if os_refuses E dir then (Raise (OSError dir), a)
             else (Ok (abspath dir),
                   insert_album
                     (set_world (set_fs (<[dir := Dir]> (fs (acc_world a)))
                                   (acc_world a)) a)
                     id (abspath dir) title shared)
  end.
Proof.
  intros parent. unfold album_directory. fold parent.
  destruct (select_album (acc_albums a) id); [done|].
  destruct (auto_mkdir_least abspath (os_refuses E) (fs (acc_world a))
              (parent +:+ "/" +:+ title) 0) as (n & Hleast & ->).
  exists n. split; [done|]. simpl.
  destruct (os_refuses E _); [|done].
  by rewrite set_fs_id, set_world_id.
Qed.

(** What [download_single_album] does, when it does anything: it finds
    the identifier and the title, lists the items, settles the directory
    and hands the items over. *)
Lemma download_single_album_cases (fuel : nat) (a a' : account)
    (album : item) (shared : bool) (r : result unit) :
  download_single_album E abspath directory media_search fuel a album shared
    = Some (r, a') →
  a' = a ∨
  ∃ id title album_items album_path a1,
    is_Some (album !! "mediaItemsCount") ∧
    album !! "id" = Some (JStr id) ∧
    album_title E album = Ok title ∧
    album_directory E abspath directory a id title shared
      = (Ok album_path, a1) ∧
    process_and_download E a1 album_items album_path (Some id) = (r, a').
Proof.
  unfold download_single_album, album_title.
  case_bool_decide as Hcount; simpl; [|intros [= <- <-]; by left].
  destruct (as_str _) as [title0|ex]; [|intros [= <- <-]; by left].
  destruct (getitem album "id" ≫= as_str) as [id|ex] eqn:Hid;
    [|intros [= <- <-]; by left].
  destruct (media_search (ByAlbum id "")) as [request|ex];
    [|intros [= <- <-]; by left].
  destruct (page_is_empty request); [intros [= <- <-]; by left|].
  destruct (search_loop _ _ _ _ _) as [[album_items|ex]|];
    [|intros [= <- <-]; by left|done].
  destruct (album_directory _ _ _ _ _ _ _) as [[album_path|ex] a1] eqn:Hdir.
  - intros [= Hrun]. right.
    exists id, (sanitize E title0), album_items, album_path, a1.
    split_and!; [done | | done | done | done].
    unfold getitem in Hid. destruct (album !! "id") as [[s|o]|]; [|done..].
    simpl in Hid. by injection Hid as ->.
  - intros [= <- <-]. left.
    pose proof (album_directory_cases a id (sanitize E title0) shared)
      as Hcases.
    simpl in Hcases. destruct (select_album (acc_albums a) id).
    + by rewrite Hdir in Hcases.
    + destruct Hcases as (n & _ & Hcases). rewrite Hdir in Hcases.
      destruct (os_refuses E _); [|done]. by injection Hcases as _ <-.
Qed.

End Albums.

Section AlbumSteps.

Variable E : env.
Variable abspath : string → string.
Variable directory : string.
Variable media_search : search_body → result page.

(** The two ways [album_directory] answers. *)
Lemma album_directory_ok (a a1 : account) (id title album_path : string)
    (shared : bool) :
  album_directory E abspath directory a id title shared
    = (Ok album_path, a1) →
  (∃ row, select_album (acc_albums a) id = Some row ∧
          album_path = a_path row ∧ a1 = a) ∨
  (select_album (acc_albums a) id = None ∧
   ∃ dir, fs (acc_world a) !! dir = None ∧ album_path = abspath dir ∧
          a1 = insert_album
                 (set_world (set_fs (<[dir := Dir]> (fs (acc_world a)))
                               (acc_world a)) a)
                 id (abspath dir) title shared).
Proof.
  intros Hdir.
  pose proof (album_directory_cases E abspath directory a id title shared)
    as Hcases.
  simpl in Hcases. destruct (select_album (acc_albums a) id) as [row|].
  - left. exists row. rewrite Hdir in Hcases. by injection Hcases as -> ->.
  - right. split; [done|]. destruct Hcases as (n & Hleast & Hcases).
    rewrite Hdir in Hcases. destruct (os_refuses E _); [done|].
    injection Hcases as -> ->. eexists. split; [|done].
    destruct Hleast as (_ & Hfree & _). unfold path_exists in Hfree.
    by destruct (fs (acc_world a) !! _).
Qed.

(** A property of accounts that [album_directory] and
    [process_and_download] keep is kept by the loop over the albums. *)
Lemma download_albums_invariant (P : account → Prop) (fuel : nat)
    (shared : bool) :
  (∀ a a1 id title album_path,
     P a →
     album_directory E abspath directory a id title shared
       = (Ok album_path, a1) → P a1) →
  (∀ a a' items dir album r,
     P a → process_and_download E a items dir album = (r, a') → P a') →
  ∀ album_list a a' r,
    P a →
    download_albums E abspath directory media_search fuel a album_list shared
      = Some (r, a') →
    P a'.
Proof.
  intros Hdir Hdown. induction album_list as [|album rest IH];
    intros a a' r HP; simpl.
  - by intros [= _ <-].
  - destruct (download_single_album _ _ _ _ _ _ _ _)
      as [[[[]|ex] a1]|] eqn:Hone; [| |done].
    + intros Hrest. apply (IH a1 a' r); [|done].
      apply download_single_album_cases in Hone
        as [->|(id & title & items & path & a0 & _ & _ & _ & H1 & H2)];
        [done|].
      eapply Hdown; [|exact H2]. by eapply Hdir.
    + intros [= _ <-].
      apply download_single_album_cases in Hone
        as [->|(id & title & items & path & a0 & _ & _ & _ & H1 & H2)];
        [done|].
      eapply Hdown; [|exact H2]. by eapply Hdir.
Qed.

End AlbumSteps.

(** X6.  An album that has a row keeps its directory, whatever its title
    is now.  With the items of the album listed, [download_single_album]
    is [process_media_items] and [download] on exactly these items, saved
    to the path stored in the row; and however the call ends, it adds no
    album row and creates and removes no directory. *)
Theorem known_album_keeps_its_directory (E : env)
    (abspath : string → string) (directory : string)
    (media_search : search_body → result page) (fuel : nat)
    (a : account) (album : item) (shared : bool)
    (id : string) (row : album_row) :
  album !! "id" = Some (JStr id) →
  select_album (acc_albums a) id = Some row →
  (∀ title request album_items,
     is_Some (album !! "mediaItemsCount") →
     album_title E album = Ok title →
     media_search (ByAlbum id "") = Ok request →
     page_is_empty request = false →
     search_loop media_search (ByAlbum id) fuel request []
       = Some (Ok album_items) →
     download_single_album E abspath directory media_search fuel a album
       shared
     = Some (process_and_download E a album_items (a_path row) (Some id))) ∧
  (∀ r a',
     download_single_album E abspath directory media_search fuel a album
       shared = Some (r, a') →
     acc_albums a' = acc_albums a ∧
     same_directories (fs (acc_world a)) (fs (acc_world a'))).
Proof.
  intros Hid Hrow. split.
  - intros title request items Hcount Htitle Hfirst Hnonempty Hlist.
    unfold download_single_album. rewrite bool_decide_true by done. simpl.
    unfold album_title in Htitle.
    destruct (as_str _) as [title0|]; [|done]. injection Htitle as Htitle.
    unfold getitem. rewrite Hid. simpl. rewrite Hfirst, Hnonempty, Hlist.
    pose proof (album_directory_cases E abspath directory a id
                  (sanitize E title0) shared) as Hcases.
    simpl in Hcases. rewrite Hrow in Hcases. by rewrite Hcases.
  - intros r a' Hrun.
    apply download_single_album_cases in Hrun
      as [->|(id' & title & items & path & a1 & _ & Hid' & _ & Hdir & Hdown)];
      [done|].
    rewrite Hid in Hid'. injection Hid' as <-.
    apply album_directory_ok in Hdir
      as [(row' & Hrow' & -> & ->)|[Hnone _]]; [|by rewrite Hrow in Hnone].
    destruct (process_and_download_spec _ _ _ _ _ _ _ Hdown)
      as (_ & Halbums & Hgrows).
    split; [done|]. intros p. by apply grows_dir.
Qed.

Lemma known_album_keeps_its_directory_witness :
  let a : account :=
    {| acc_world := acc_world SampleAlbums.start;
       acc_albums := [{| a_uuid := "al1"; a_path := "arch/Albums/Old name";
                         a_title := "Old name"; a_is_shared := false |}] |} in
  download_single_album Sample.env_ok id "arch" SampleAlbums.media_search
    2 a SampleAlbums.trip false
  = Some (process_and_download Sample.env_ok a
            [Sample.photo "a" "a.jpg"; Sample.photo "b" "b.jpg"]
            "arch/Albums/Old name" (Some "al1")).
Proof.
  intros a.
  refine (proj1 (known_album_keeps_its_directory Sample.env_ok id "arch"
                   SampleAlbums.media_search 2 a SampleAlbums.trip
                   false "al1"
                   {| a_uuid := "al1"; a_path := "arch/Albums/Old name";
                      a_title := "Old name"; a_is_shared := false |}
                   _ _)
            "Trip"
            {| mediaItems := Some [Sample.photo "a" "a.jpg"];
               nextPageToken := Some "t" |}
            [Sample.photo "a" "a.jpg"; Sample.photo "b" "b.jpg"]
            _ _ _ _ _).
  - reflexivity.
  - reflexivity.
  - by eexists.
  - reflexivity.
  - reflexivity.
  - reflexivity.
  - reflexivity.
Defined.

(** X7.  An album seen for the first time gets its directory and its row
    before any of its items is processed: with the items listed and no
    directory refused by the operating system, [download_single_album]
    creates the first free of [title], [title (1)], ... under the albums
    directory (the shared one for a shared album), appends exactly one
    album row holding the absolute path of that directory and the
    sanitized title, and only then processes the items; when
    [process_media_items] raises, the call raises too and the directory
    and the row stay. *)
Theorem new_album_is_recorded_before_its_items (E : env)
    (abspath : string → string) (directory : string)
    (media_search : search_body → result page) (fuel : nat) (a : account)
    (album : item) (shared : bool) (id title : string) (request : page)
    (album_items : list item) :
  is_Some (album !! "mediaItemsCount") →
  album !! "id" = Some (JStr id) →
  album_title E album = Ok title →
  media_search (ByAlbum id "") = Ok request →
  page_is_empty request = false →
  search_loop media_search (ByAlbum id) fuel request [] = Some (Ok album_items) →
  select_album (acc_albums a) id = None →
  (∀ p, os_refuses E p = false) →
  ∃ n r a',
    let parent :=
      if shared then shared_albums_dir directory
      else albums_dir directory in
    let dir := mkdir_candidate (parent +:+ "/" +:+ title) n in
    least_free (path_exists (fs (acc_world a)))
      (mkdir_candidate (parent +:+ "/" +:+ title)) 0 n ∧
    download_single_album E abspath directory media_search fuel a album
      shared = Some (r, a') ∧
    acc_albums a' =
      acc_albums a ++ [{| a_uuid := id; a_path := abspath dir;
                          a_title := title; a_is_shared := shared |}] ∧
    fs (acc_world a') !! dir = Some Dir ∧
    (∀ ex,
       process_media_items E (media (acc_world a)) album_items (abspath dir)
         (Some id) = Raise ex →
       r = Raise ex).
Proof.
  intros Hcount Hid Htitle Hfirst Hnonempty Hlist Hnew Hos.
  pose proof (album_directory_cases E abspath directory a id title shared)
    as Hcases.
  simpl in Hcases. rewrite Hnew in Hcases.
  destruct Hcases as (n & Hleast & Hdir). rewrite Hos in Hdir.
  set (parent := if shared then shared_albums_dir directory
                 else albums_dir directory) in *.
  set (dir := mkdir_candidate (parent +:+ "/" +:+ title) n) in *.
  set (a1 := insert_album _ id (abspath dir) title shared) in Hdir.
  destruct (process_and_download E a1 album_items (abspath dir) (Some id))
    as [r a'] eqn:Hdown.
  exists n, r, a'. simpl. fold parent dir.
  assert (download_single_album E abspath directory media_search fuel a
            album shared = Some (r, a')) as Hrun.
  { unfold download_single_album. rewrite bool_decide_true by done. simpl.
    unfold album_title in Htitle.
    destruct (as_str _) as [title0|]; [|done]. injection Htitle as Htitle.
    unfold getitem. rewrite Hid. simpl. rewrite Hfirst, Hnonempty, Hlist.
    rewrite Htitle, Hdir. by rewrite Hdown. }
  split_and!; [done | done | | |].
  - by destruct (process_and_download_spec _ _ _ _ _ _ _ Hdown)
      as (_ & -> & _).
  - destruct (process_and_download_spec _ _ _ _ _ _ _ Hdown)
      as (_ & _ & Hgrows).
    apply (grows_dir _ _ dir Hgrows). subst a1. simpl.
    apply lookup_insert_eq.
  - intros ex Hraise. unfold process_and_download in Hdown.
    subst a1. simpl in Hdown. rewrite Hraise in Hdown.
    by injection Hdown as <- _.
Qed.

Lemma new_album_is_recorded_before_its_items_witness :
  ∃ n r a',
    least_free (path_exists (fs (acc_world SampleAlbums.start)))
      (mkdir_candidate "arch/Albums/Trip") 0 n ∧
    download_single_album Sample.env_ok id "arch" SampleAlbums.media_search
      2 SampleAlbums.start SampleAlbums.trip false = Some (r, a') ∧
    acc_albums a' =
      [{| a_uuid := "al1";
          a_path := mkdir_candidate "arch/Albums/Trip" n;
          a_title := "Trip"; a_is_shared := false |}] ∧
    fs (acc_world a') !! mkdir_candidate "arch/Albums/Trip" n = Some Dir ∧
    (∀ ex,
       process_media_items Sample.env_ok [] 
         [Sample.photo "a" "a.jpg"; Sample.photo "b" "b.jpg"]
         (mkdir_candidate "arch/Albums/Trip" n) (Some "al1") = Raise ex →
       r = Raise ex).
Proof.
  apply (new_album_is_recorded_before_its_items Sample.env_ok id "arch"
           SampleAlbums.media_search 2 SampleAlbums.start SampleAlbums.trip
           false "al1" "Trip"
           {| mediaItems := Some [Sample.photo "a" "a.jpg"];
              nextPageToken := Some "t" |}
           [Sample.photo "a" "a.jpg"; Sample.photo "b" "b.jpg"]).
  - by eexists.
  - reflexivity.
  - reflexivity.
  - reflexivity.
  - reflexivity.
  - reflexivity.
  - reflexivity.
  - reflexivity.
Defined.

(** X8.  Albums without ["mediaItemsCount"] are skipped: dropping them
    from the list changes neither the result of the loop over the albums
    nor the archive it leaves. *)
Theorem albums_without_count_are_skipped (E : env)
    (abspath : string → string) (directory : string)
    (media_search : search_body → result page) (fuel : nat) (a : account)
    (album_list : list item) (shared : bool) :
  download_albums E abspath directory media_search fuel a
    (List.filter (λ album, bool_decide (is_Some (album !! "mediaItemsCount")))
       album_list) shared =
  download_albums E abspath directory media_search fuel a album_list shared.
Proof.
  revert a; induction album_list as [|album rest IH]; intros a; [done|].
  cbn [List.filter]. case_bool_decide as Hcount.
  - cbn [download_albums].
    destruct (download_single_album _ _ _ _ _ _ _ _) as [[[[]|ex] a1]|];
      [apply IH | done | done].
  - rewrite IH. cbn [download_albums]. unfold download_single_album.
    by rewrite bool_decide_false.
Qed.

(** X9.  The [albums] table holds at most one row per album, however
    often an album is listed: when the album identifiers of the rows are
    distinct before the loop over a listing, they are distinct after it. *)
Theorem one_row_per_album (E : env) (abspath : string → string)
    (directory : string) (media_search : search_body → result page)
    (fuel : nat) (a a' : account) (album_list : list item) (shared : bool)
    (r : result unit) :
  NoDup (a_uuid <$> acc_albums a) →
  download_albums E abspath directory media_search fuel a album_list shared
    = Some (r, a') →
  NoDup (a_uuid <$> acc_albums a').
Proof.
  intros Hnodup Hrun.
  eapply (download_albums_invariant E abspath directory media_search
            (λ a, NoDup (a_uuid <$> acc_albums a)));
    [| |exact Hnodup|exact Hrun].
  - intros a0 a1 id title path Ha0 Hdir.
    apply album_directory_ok in Hdir
      as [(row & _ & _ & ->)|(Hnone & dir & _ & _ & ->)]; [done|].
    simpl. rewrite fmap_app. apply NoDup_app. split_and!; [done | |].
    + intros x Hx Hx'. apply list_elem_of_singleton in Hx' as ->.
      by apply select_album_none in Hnone.
    + apply NoDup_singleton.
  - intros a0 a1 items dir album r0 Ha0 Hdown.
    by destruct (process_and_download_spec _ _ _ _ _ _ _ Hdown)
      as (_ & -> & _).
Qed.

Lemma one_row_per_album_witness :
  ∃ r a',
    download_albums Sample.env_ok id "arch" SampleAlbums.media_search 2
      SampleAlbums.start [SampleAlbums.trip; SampleAlbums.trip] false
      = Some (r, a') ∧
    NoDup (a_uuid <$> acc_albums a').
Proof.
  destruct (download_albums Sample.env_ok id "arch"
              SampleAlbums.media_search 2 SampleAlbums.start
              [SampleAlbums.trip; SampleAlbums.trip] false)
    as [[r a']|] eqn:Hrun.
  - exists r, a'. split; [reflexivity|].
    apply (one_row_per_album Sample.env_ok id "arch"
             SampleAlbums.media_search 2 SampleAlbums.start a'
             [SampleAlbums.trip; SampleAlbums.trip] false r);
      [constructor | exact Hrun].
  - exfalso. clear -Hrun. vm_compute in Hrun. discriminate Hrun.
Defined.

(** The loop over the albums only adds. *)
Lemma download_albums_extends (E : env) (abspath : string → string)
    (directory : string) (media_search : search_body → result page)
    (fuel : nat) (a a' : account) (album_list : list item) (shared : bool)
    (r : result unit) :
  download_albums E abspath directory media_search fuel a album_list shared
    = Some (r, a') →
  extends a a'.
Proof.
  intros Hrun.
  eapply (download_albums_invariant E abspath directory media_search
            (λ a0, extends a a0)); [| |apply extends_refl|exact Hrun].
  - intros a0 a1 id title path Ha0 Hdir.
    apply album_directory_ok in Hdir
      as [(row & _ & _ & ->)|(Hnone & dir & Hfree & _ & ->)]; [done|].
    eapply extends_trans; [exact Ha0|].
    split_and!; simpl; [by apply prefix_app_r | done | | done].
    by apply persists_mkdir.
  - intros a0 a1 items dir album r0 Ha0 Hdown.
    eapply extends_trans; [exact Ha0|].
    by destruct (process_and_download_spec _ _ _ _ _ _ _ Hdown) as [? _].
Qed.

(** X10.  Archiving the albums of a listing only adds: the rows of both
    tables are kept, in their order, with new rows after them; every file
    is still a file and every directory a directory; the download counter
    does not fall.  This holds also when the loop ends by an exception. *)
Theorem albums_only_add (E : env) (abspath : string → string)
    (directory : string) (media_search : search_body → result page)
    (fuel : nat) (a a' : account) (album_list : list item) (shared : bool)
    (r : result unit) :
  download_albums E abspath directory media_search fuel a album_list shared
    = Some (r, a') →
  extends a a'.
Proof. apply download_albums_extends. Qed.

Lemma albums_only_add_witness :
  ∃ r a',
    download_albums Sample.env_ok id "arch" SampleAlbums.media_search 2
      SampleAlbums.start [SampleAlbums.trip; SampleAlbums.untitled] false
      = Some (r, a') ∧
    extends SampleAlbums.start a'.
Proof.
  destruct (download_albums Sample.env_ok id "arch"
              SampleAlbums.media_search 2 SampleAlbums.start
              [SampleAlbums.trip; SampleAlbums.untitled] false)
    as [[r a']|] eqn:Hrun.
  - exists r, a'. split; [reflexivity|].
    exact (albums_only_add Sample.env_ok id "arch"
             SampleAlbums.media_search 2 SampleAlbums.start a'
             [SampleAlbums.trip; SampleAlbums.untitled] false r Hrun).
  - exfalso. clear -Hrun. vm_compute in Hrun. discriminate Hrun.
Defined.

(** X11.  No two albums share a directory.  When [os.path.abspath] maps
    different paths to different paths, every album row names a path that
    exists and the directories of the rows are distinct, then the same
    holds after the loop over a listing: two albums whose titles sanitize
    to the same name are stored in different directories. *)
Theorem albums_have_directories_of_their_own (E : env)
    (abspath : string → string) (directory : string)
    (media_search : search_body → result page) (fuel : nat)
    (a a' : account) (album_list : list item) (shared : bool)
    (r : result unit) :
  (∀ p q, abspath p = abspath q → p = q) →
  albums_backed abspath a →
  NoDup (a_path <$> acc_albums a) →
  download_albums E abspath directory media_search fuel a album_list shared
    = Some (r, a') →
  albums_backed abspath a' ∧ NoDup (a_path <$> acc_albums a').
Proof.
  intros Hinj Hbacked Hnodup Hrun.
  eapply (download_albums_invariant E abspath directory media_search
            (λ a, albums_backed abspath a ∧ NoDup (a_path <$> acc_albums a)));
    [| |split; [exact Hbacked|exact Hnodup]|exact Hrun].
  - intros a0 a1 id title path [Hb Hn] Hdir.
    apply album_directory_ok in Hdir
      as [(row & _ & _ & ->)|(Hnone & dir & Hfree & _ & ->)]; [done|].
    split.
    + intros row Hrow. simpl in Hrow.
      apply elem_of_app in Hrow as [Hrow|Hrow].
      * destruct (Hb row Hrow) as (p & Hp & Hsome). exists p.
        split; [done|]. simpl.
        eapply persists_some; [by apply persists_mkdir | done].
      * apply list_elem_of_singleton in Hrow as ->. exists dir.
        split; [done|]. simpl. rewrite lookup_insert_eq. by eexists.
    + simpl. rewrite fmap_app. apply NoDup_app. split_and!; [done | |].
      * intros x Hx Hx'. apply list_elem_of_singleton in Hx'. simpl in Hx'.
        subst x. apply list_elem_of_fmap in Hx as (row & Hpath & Hrow).
        destruct (Hb row Hrow) as (p & Hp & [y Hy]).
        rewrite Hp in Hpath. apply Hinj in Hpath as ->.
        by rewrite Hfree in Hy.
      * apply NoDup_singleton.
  - intros a0 a1 items dir album r0 [Hb Hn] Hdown.
    destruct (process_and_download_spec _ _ _ _ _ _ _ Hdown)
      as ((_ & _ & Hpers & _) & Halbums & _).
    rewrite Halbums. split; [|done].
    intros row Hrow. rewrite Halbums in Hrow.
    destruct (Hb row Hrow) as (p & Hp & Hsome). exists p.
    split; [done|]. by eapply persists_some.
Qed.

Lemma albums_have_directories_of_their_own_witness :
  ∃ r a',
    download_albums Sample.env_ok id "arch" SampleAlbums.media_search 2
      SampleAlbums.start [SampleAlbums.trip; SampleAlbums.trip_again] false
      = Some (r, a') ∧
    albums_backed id a' ∧ NoDup (a_path <$> acc_albums a').
Proof.
  destruct (download_albums Sample.env_ok id "arch"
              SampleAlbums.media_search 2 SampleAlbums.start
              [SampleAlbums.trip; SampleAlbums.trip_again] false)
    as [[r a']|] eqn:Hrun.
  - exists r, a'. split; [reflexivity|].
    apply (albums_have_directories_of_their_own Sample.env_ok id "arch"
             SampleAlbums.media_search 2 SampleAlbums.start a'
             [SampleAlbums.trip; SampleAlbums.trip_again] false r).
    + intros p q Heq. exact Heq.
    + intros row Hrow. clear -Hrow. exfalso.
      exact (proj1 (elem_of_nil row) Hrow).
    + constructor.
    + exact Hrun.
  - exfalso. clear -Hrun. vm_compute in Hrun. discriminate Hrun.
Defined.

(** ** The library and the favourites *)

Section Again.

Variable E : env.

(** [process_and_download] is the pipeline on one collection. *)
Lemma process_and_download_archive (a : account) (media_items : list item)
    (dir : string) :
  process_and_download E a media_items dir None =
  ((archive E (acc_world a)
      [{| c_items := media_items; c_directory := dir; c_album := None |}]).1,
   set_world
     (archive E (acc_world a)
        [{| c_items := media_items; c_directory := dir;
            c_album := None |}]).2 a).
Proof.
  unfold process_and_download. simpl.
  destruct (process_media_items E _ _ _ _); simpl; [done|].
  by rewrite set_world_id.
Qed.

(** Processing and downloading the same items again adds nothing. *)
Lemma process_and_download_again (a : account) (media_items : list item)
    (dir : string) :
  backed (acc_world a) →
  targets_clear E (fs (acc_world a))
    [{| c_items := media_items; c_directory := dir; c_album := None |}] →
  ∃ r a1 a2,
    process_and_download E a media_items dir None = (r, a1) ∧
    process_and_download E a1 media_items dir None = (r, a2) ∧
    fs (acc_world a2) = fs (acc_world a1) ∧
    media (acc_world a2) = media (acc_world a1) ∧
    downloads (acc_world a2) = downloads (acc_world a1) ∧
    acc_albums a2 = acc_albums a ∧ acc_albums a1 = acc_albums a.
Proof.
  intros Hb Hclear.
  set (c := {| c_items := media_items; c_directory := dir;
               c_album := None |}) in *.
  set (w1 := (archive E (acc_world a) [c]).2).
  destruct (archive_again E [c] (acc_world a) w1 Hb Hclear)
    as (Hres & [Hfs Hmedia] & Hcount); [done|].
  exists (archive E (acc_world a) [c]).1, (set_world w1 a),
         (set_world (archive E w1 [c]).2 (set_world w1 a)).
  rewrite !process_and_download_archive. fold c w1.
  change (acc_world (set_world w1 a)) with w1.
  rewrite Hres. by split_and!.
Qed.

End Again.

(** X12.  The library and the favourites a second time.  With the items
    listed, the rows of the table naming files that exist and no item to
    be saved under the name of a directory, [download_library] run twice
    returns the same result both times, and the second run creates no
    file, adds no row and counts no download; the [albums] table is
    touched by neither.  The same holds of [download_favorites]. *)
Theorem library_second_run_adds_nothing (E : env) (directory : string)
    (media_list : option string → result page)
    (media_search : search_body → result page) (fuel : nat) (a : account)
    (media_items : list item) :
  backed (acc_world a) →
  (list_media_items media_list fuel = Some (Ok media_items) →
   targets_clear E (fs (acc_world a))
     [{| c_items := media_items; c_directory := lib_dir directory;
         c_album := None |}] →
   ∃ r a1 a2,
     download_library E directory media_list fuel a = Some (r, a1) ∧
     download_library E directory media_list fuel a1 = Some (r, a2) ∧
     fs (acc_world a2) = fs (acc_world a1) ∧
     media (acc_world a2) = media (acc_world a1) ∧
     downloads (acc_world a2) = downloads (acc_world a1) ∧
     acc_albums a2 = acc_albums a ∧ acc_albums a1 = acc_albums a) ∧
  (search_favorites media_search fuel = Some (Ok media_items) →
   targets_clear E (fs (acc_world a))
     [{| c_items := media_items; c_directory := favorites_dir directory;
         c_album := None |}] →
   ∃ r a1 a2,
     download_favorites E directory media_search fuel a = Some (r, a1) ∧
     download_favorites E directory media_search fuel a1 = Some (r, a2) ∧
     fs (acc_world a2) = fs (acc_world a1) ∧
     media (acc_world a2) = media (acc_world a1) ∧
     downloads (acc_world a2) = downloads (acc_world a1) ∧
     acc_albums a2 = acc_albums a ∧ acc_albums a1 = acc_albums a).
Proof.
  intros Hb. split; intros Hlist Hclear.
  - destruct (process_and_download_again E a media_items (lib_dir directory)
                Hb Hclear) as (r & a1 & a2 & H1 & H2 & Hrest).
    exists r, a1, a2. unfold download_library. rewrite Hlist, H1, H2.
    split; [done|]. split; [done|]. exact Hrest.
  - destruct (process_and_download_again E a media_items
                (favorites_dir directory) Hb Hclear)
      as (r & a1 & a2 & H1 & H2 & Hrest).
    exists r, a1, a2. unfold download_favorites. rewrite Hlist, H1, H2.
    split; [done|]. split; [done|]. exact Hrest.
Qed.

Lemma library_second_run_adds_nothing_witness :
  ∃ r a1 a2,
    download_library Sample.env_ok "arch" SampleAlbums.media_list 1
      SampleAlbums.start = Some (r, a1) ∧
    download_library Sample.env_ok "arch" SampleAlbums.media_list 1 a1
      = Some (r, a2) ∧
    fs (acc_world a2) = fs (acc_world a1) ∧
    media (acc_world a2) = media (acc_world a1).
Proof.
  destruct (library_second_run_adds_nothing Sample.env_ok "arch"
              SampleAlbums.media_list SampleAlbums.media_search 1
              SampleAlbums.start [Sample.photo "a" "a.jpg"])
    as [Hlibrary _].
  { intros row Hrow. exfalso. exact (proj1 (elem_of_nil row) Hrow). }
  destruct Hlibrary as (r & a1 & a2 & H1 & H2 & Hfs & Hmedia & _).
  - reflexivity.
  - intros c it filename Hc Hit Hname.
    apply list_elem_of_singleton in Hc as ->.
    apply list_elem_of_singleton in Hit as ->.
    vm_compute in Hname. injection Hname as <-. vm_compute. discriminate.
  - by exists r, a1, a2.
Defined.

(** ** The worker and the loop of [download] *)

Section WorkerFacts.

Variable E : env.

(** What one call of the worker leaves. *)
Lemma download_media_item_effects (w : world) (e : entry) :
  let '(r, w') := download_media_item E w e in
  media w' = media w ∧ grows (fs w) (fs w') ∧
  (isfile (fs w) (e_path e) = true → r = RFalse ∧ w' = w) ∧
  (isfile (fs w) (e_path e) = false →
     requested w' = requested w ++ [e_url e]) ∧
  downloads w' =
    match r with
    | RTuple _ _ _ => S (downloads w)
    | _ => downloads w
    end.
Proof.
  pose proof (download_media_item_media E w e) as Hmedia.
  pose proof (download_media_item_grows E w e) as Hgrows.
  pose proof (download_media_item_not_tuple E w e) as Hnot.
  pose proof (download_media_item_cases E w e) as Hcases.
  destruct (download_media_item E w e) as [r w'] eqn:Hrun. simpl in *.
  split_and!; [done | done | | |].
  - intros Hfile. rewrite Hfile in Hcases. by injection Hcases as -> ->.
  - intros Hfile. rewrite Hfile in Hcases.
    destruct (http_get E (e_url e)) as [|status chunks complete];
      [by injection Hcases as _ ->|].
    destruct (status =? 200)%Z; [|by injection Hcases as _ ->].
    simpl in Hcases. destruct (os_refuses E _); [by injection Hcases as _ ->|].
    destruct complete; [|by injection Hcases as _ ->].
    destruct (wants_metadata e); [|by injection Hcases as _ ->].
    destruct (embed_metadata E _ _ _ _) as [[how|ex] σ3];
      by injection Hcases as _ ->.
  - destruct r as [| |uuid path album]; [apply Hnot; by left
                                        |apply Hnot; by right|].
    by apply download_media_item_tuple in Hrun as (_ & _ & _ & _ & _ & ? & _).
Qed.

Lemma download_requested (w : world) (es : list entry) :
  requested w `prefix_of` requested (download E w es).
Proof.
  revert w; induction es as [|e es IH]; intros w; simpl; [done|].
  pose proof (download_media_item_effects w e) as Heff.
  destruct (download_media_item E w e) as [r w1].
  destruct Heff as (_ & _ & Hpresent & Habsent & _).
  etrans; [|apply IH].
  assert (requested (record_outcome w1 r) = requested w1) as ->
    by (by destruct r).
  destruct (isfile (fs w) (e_path e)).
  - by destruct (Hpresent eq_refl) as [_ ->].
  - rewrite (Habsent eq_refl). by apply prefix_app_r.
Qed.

Lemma download_counts (w : world) (es : list entry) :
  length (media (download E w es)) + downloads w =
  length (media w) + downloads (download E w es).
Proof.
  revert w; induction es as [|e es IH]; intros w; simpl; [done|].
  pose proof (download_media_item_effects w e) as Heff.
  destruct (download_media_item E w e) as [r w1].
  destruct Heff as (Hmedia & _ & _ & _ & Hcount).
  specialize (IH (record_outcome w1 r)).
  destruct r as [| |uuid path album]; simpl in *.
  - rewrite Hmedia, Hcount in IH. lia.
  - rewrite Hmedia, Hcount in IH. lia.
  - rewrite length_app, Hmedia, Hcount in IH. simpl in IH. lia.
Qed.

End WorkerFacts.

(** X13.  The worker and the index.  A call of [download_media_item]
    never touches the [media] table; it sends no request when its target
    is a file and exactly one, to the URL of its task, otherwise; it
    counts a download exactly when it returns the tuple; and it removes
    no file and no directory. *)
Theorem worker_requests_once_and_writes_no_row (E : env) (w : world)
    (e : entry) :
  media (download_media_item E w e).2 = media w ∧
  grows (fs w) (fs (download_media_item E w e).2) ∧
  (isfile (fs w) (e_path e) = true →
     download_media_item E w e = (RFalse, w)) ∧
  (isfile (fs w) (e_path e) = false →
     requested (download_media_item E w e).2 = requested w ++ [e_url e]) ∧
  downloads (download_media_item E w e).2 =
    match (download_media_item E w e).1 with
    | RTuple _ _ _ => S (downloads w)
    | _ => downloads w
    end.
Proof.
  pose proof (download_media_item_effects E w e) as Heff.
  destruct (download_media_item E w e) as [r w'].
  destruct Heff as (? & ? & Hpresent & ? & ?).
  split_and!; [done | done | | done | done].
  intros Hfile. by destruct (Hpresent Hfile) as [-> ->].
Qed.

(** X14.  [download] counts what it records: over any batch, run in
    submission order, the rows added to the [media] table are as many as
    the downloads counted in [self.downloads]. *)
Theorem download_counts_what_it_records (E : env) (w : world)
    (entries : list entry) :
  length (media (download E w entries)) + downloads w =
  length (media w) + downloads (download E w entries).
Proof. apply download_counts. Qed.

(** X15.  [download] only adds: the rows of the table are kept in their
    order with the new rows after them, the log of requests is extended,
    files stay files, directories stay directories and no directory is
    created. *)
Theorem download_only_adds (E : env) (w : world) (entries : list entry) :
  media w `prefix_of` media (download E w entries) ∧
  requested w `prefix_of` requested (download E w entries) ∧
  grows (fs w) (fs (download E w entries)) ∧
  same_directories (fs w) (fs (download E w entries)) ∧
  downloads w ≤ downloads (download E w entries).
Proof.
  split_and!.
  - apply download_media_prefix.
  - apply download_requested.
  - apply download_grows.
  - intros p. apply grows_dir, download_grows.
  - apply download_counter.
Qed.

(** X16.  The worker resolves the name again after the request, but in a
    batch run in submission order this changes the name only when a
    directory has the name of the target: a returned tuple carries the
    path of the task exactly when nothing was at that path. *)
Theorem worker_renames_only_over_a_directory (E : env) (w w' : world)
    (e : entry) (uuid path : string) (album_uuid : option string) :
  download_media_item E w e = (RTuple uuid path album_uuid, w') →
  (fs w !! e_path e = None → path = e_path e) ∧
  (fs w !! e_path e = Some Dir → path ≠ e_path e) ∧
  (fs w !! e_path e = None ∨ fs w !! e_path e = Some Dir) ∧
  fs w !! path = None ∧ isfile (fs w') path = true.
Proof.
  intros Hrun.
  apply download_media_item_tuple in Hrun
    as (_ & _ & -> & Hnofile & Hfile & _ & _).
  pose proof (auto_filename_fresh (fs w) (e_path e) 0) as Hfresh.
  split_and!; [| | |done|done].
  - intros Hfree. by apply auto_filename_free.
  - intros Hdir Heq. rewrite Heq, Hdir in Hfresh. done.
  - unfold isfile in Hnofile.
    destruct (fs w !! e_path e) as [[]|]; [done | by right | by left].
Qed.

Lemma worker_renames_only_over_a_directory_witness :
  let w := set_fs (<["Library/a.jpg" := Dir]> (fs Sample.fresh))
             Sample.fresh in
  ∃ path w',
    download_media_item Sample.env_ok w (Sample.task "a" "a.jpg")
      = (RTuple "a" path None, w') ∧
    path ≠ "Library/a.jpg".
Proof.
  intros w.
  assert (download_media_item Sample.env_ok w (Sample.task "a" "a.jpg")
          = (RTuple "a" "Library/a (1).jpg" None,
             (download_media_item Sample.env_ok w
                (Sample.task "a" "a.jpg")).2)) as Hrun.
  { vm_compute. reflexivity. }
  eexists _, _. split; [exact Hrun|].
  refine (proj1 (proj2 (worker_renames_only_over_a_directory Sample.env_ok w
                          _ (Sample.task "a" "a.jpg") "a" _ None Hrun)) _).
  reflexivity.
Defined.

(** X17.  Two items of one batch whose targets coincide: when the batch
    is run in submission order and the first is downloaded to the free
    target, the second finds the file and returns [False] without a
    request, so the batch records the first item only and requests its
    URL only. *)
Theorem colliding_names_drop_the_second_item (E : env) (w w1 : world)
    (e1 e2 : entry) (uuid path : string) (album_uuid : option string) :
  e_path e2 = e_path e1 →
  fs w !! e_path e1 = None →
  download_media_item E w e1 = (RTuple uuid path album_uuid, w1) →
  outcomes E w [e1; e2] = [RTuple (e_uuid e1) (e_path e1) (e_album_uuid e1);
                           RFalse] ∧
  media (download E w [e1; e2]) =
    media w ++ [{| row_uuid := e_uuid e1; row_path := e_path e1;
                   row_album_uuid := e_album_uuid e1 |}] ∧
  requested (download E w [e1; e2]) = requested w ++ [e_url e1].
Proof.
  intros Hsame Hfree Hrun.
  pose proof (download_media_item_effects E w e1) as Heff.
  rewrite Hrun in Heff. destruct Heff as (Hmedia & _ & _ & Hreq & _).
  pose proof Hrun as Htuple.
  apply download_media_item_tuple in Htuple
    as (-> & -> & -> & Hnofile & Hfile & _ & _).
  rewrite (auto_filename_free _ _ Hfree) in *.
  assert (download_media_item E
            (insert_media_item w1 (e_uuid e1) (e_path e1) (e_album_uuid e1))
            e2 =
          (RFalse,
           insert_media_item w1 (e_uuid e1) (e_path e1) (e_album_uuid e1)))
    as Hsecond.
  { apply download_media_item_present. simpl. by rewrite Hsame. }
  simpl. rewrite Hrun. simpl. rewrite Hsecond. simpl.
  rewrite Hmedia, Hreq by done. done.
Qed.

Lemma colliding_names_drop_the_second_item_witness :
  outcomes Sample.env_ok Sample.fresh
    [Sample.task "a" "IMG_1.jpg"; Sample.task "b" "IMG_1.jpg"] =
    [RTuple "a" "Library/IMG_1.jpg" None; RFalse].
Proof.
  refine (proj1 (colliding_names_drop_the_second_item Sample.env_ok
                   Sample.fresh
                   (download_media_item Sample.env_ok Sample.fresh
                      (Sample.task "a" "IMG_1.jpg")).2
                   (Sample.task "a" "IMG_1.jpg") (Sample.task "b" "IMG_1.jpg")
                   "a" "Library/IMG_1.jpg" None _ _ _)).
  - reflexivity.
  - reflexivity.
  - vm_compute. reflexivity.
Defined.

(** X18.  The loop of [download] run in submission order is one of the
    schedules of the pool: for every archive and every list of
    collections there is a run of the pool machine, made of the batches
    of these collections and of worker and drain steps only, that ends
    with every outcome consumed and in the archive [archive] computes. *)
Theorem submission_order_is_a_schedule (E : env) (w : world)
    (cs : list collection) :
  ∃ trace m,
    run w trace m ∧ idle m ∧ m_world m = (archive E w cs).2 ∧
    ∀ E' c, Start E' c ∈ trace → c ∈ cs.
Proof.
  destruct (archive_steps E cs {| m_world := w; m_pool := [] |})
    as (trace & m & Hsteps & Hidle & Hworld & Hstarts); [constructor|].
  by exists trace, m.
Qed.

(** ** Names *)

(** X19.  [auto_filename] always returns, and what it returns is a free
    name: the path itself when nothing is there, and otherwise the path
    with [" (n)"] put in between the two slices [path[:i]] and [path[i:]]
    at the index [i] of the last ["."], for the least [n >= 1] whose name
    is free.  The two slices put together are the path, whatever the
    index. *)
Theorem auto_filename_finds_the_first_free_name (σ : filesystem)
    (path : string) :
  ∃ n,
    auto_filename σ path 0 = filename_candidate path n ∧
    σ !! auto_filename σ path 0 = None ∧
    (∀ k, k < n → is_Some (σ !! filename_candidate path k)) ∧
    (n = 0 ↔ σ !! path = None) ∧
    (0 < n →
       auto_filename σ path 0 =
         Py.slice_to path (Py.rfind "." path) +:+ " (" +:+ Py.str n +:+ ")"
           +:+ Py.slice_from path (Py.rfind "." path)) ∧
    Py.slice_to path (Py.rfind "." path)
      +:+ Py.slice_from path (Py.rfind "." path) = path.
Proof.
  destruct (auto_filename_least σ path 0) as (n & (_ & Hfree & Hocc) & Heq).
  exists n. unfold path_exists in Hfree, Hocc.
  split_and!; [done | apply auto_filename_fresh | | | | apply slice_join].
  - intros k Hk. specialize (Hocc k (conj (Nat.le_0_l k) Hk)).
    destruct (σ !! filename_candidate path k); [by eexists | done].
  - split.
    + intros ->. simpl in Hfree. by destruct (σ !! path).
    + intros Hnone. destruct n as [|n]; [done|].
      specialize (Hocc 0 (conj (Nat.le_0_l 0) (Nat.lt_0_succ n))).
      simpl in Hocc. by rewrite Hnone in Hocc.
  - intros Hpos. rewrite Heq. by destruct n as [|n]; [lia|].
Qed.

(** X20.  [auto_mkdir] and a refusing operating system: the function
    always returns; it asks [os.mkdir] for the first name that does not
    exist, and when that is refused (a missing parent, no permission) the
    error leaves the function with nothing created: no later candidate is
    tried. *)
Theorem auto_mkdir_gives_up_when_refused (abspath : string → string)
    (refuses : string → bool) (σ : filesystem) (path : string) :
  ∃ n,
    least_free (path_exists σ) (mkdir_candidate path) 0 n ∧
    (refuses (mkdir_candidate path n) = true →
       auto_mkdir abspath refuses σ path 0 =
         (Raise (OSError (mkdir_candidate path n)), σ)) ∧
    (refuses (mkdir_candidate path n) = false →
       auto_mkdir abspath refuses σ path 0 =
         (Ok (abspath (mkdir_candidate path n)),
          <[mkdir_candidate path n := Dir]> σ)).
Proof.
  destruct (auto_mkdir_least abspath refuses σ path 0) as (n & Hleast & Heq).
  exists n. split; [done|]. rewrite Heq.
  by split; intros ->.
Qed.

(** ** Writing the body *)

(** X21.  [write_response]: at a path that is a directory or that the
    operating system refuses, [open] raises and the file system is as it
    was.  Otherwise the file is created or truncated and holds the chunks
    that arrived, put together in their order, also when the stream
    breaks (the exception then leaves the function after the partial
    file is written); no other path is touched. *)
Theorem write_response_writes_what_arrived (E : env) (chunks : list string)
    (complete : bool) (σ : filesystem) (path : string) :
  (σ !! path = Some Dir ∨ os_refuses E path = true →
     write_response E chunks complete σ path = (Raise (OSError path), σ)) ∧
  (σ !! path ≠ Some Dir → os_refuses E path = false →
     ∃ σ',
       write_response E chunks complete σ path =
         (if complete then Ok () else Raise ConnectionError, σ') ∧
       σ' !! path = Some (File (foldr String.append "" chunks)) ∧
       ∀ p, p ≠ path → σ' !! p = σ !! p).
Proof.
  rewrite write_response_spec. split.
  - intros Hbad. by rewrite decide_True.
  - intros Hdir Hos. rewrite decide_False by (intros [?|?]; congruence).
    eexists. split; [done|]. split.
    + rewrite lookup_insert_eq. do 2 f_equal. unfold body_of.
      assert (∀ acc, foldl String.append acc chunks
                     = acc +:+ foldr String.append "" chunks) as Hfold.
      { induction chunks as [|c cs IH]; intros acc; simpl.
        - by rewrite string_app_nil_r.
        - by rewrite IH, string_app_assoc. }
      apply (Hfold "").
    + intros p Hp. by rewrite lookup_insert_ne.
Qed.

(** ** Items that have a row *)

(** X22.  For an item that has a row, [process_media_items] does not read
    ["filename"]: the item processes the same with the key removed, so a
    listing that no longer names the file does not stop the run. *)
Theorem indexed_item_needs_no_filename (E : env) (db : list media_row)
    (save_directory : string) (album_uuid : option string) (it : item)
    (id : string) (row : media_row) :
  it !! "id" = Some (JStr id) →
  select_media_item db id = Some row →
  process_media_item E db save_directory album_uuid (delete "filename" it) =
  process_media_item E db save_directory album_uuid it.
Proof.
  intros Hid Hrow. unfold process_media_item, getitem.
  rewrite (lookup_delete_ne it "filename" "id") by done.
  rewrite (lookup_delete_ne it "filename" "mimeType") by done.
  rewrite (lookup_delete_ne it "filename" "baseUrl") by done.
  rewrite (lookup_delete_ne it "filename" "mediaMetadata") by done.
  rewrite (lookup_delete_ne it "filename" "description") by done.
  rewrite Hid. simpl. by rewrite Hrow.
Qed.

Lemma indexed_item_needs_no_filename_witness :
  process_media_item Sample.env_ok
    [{| row_uuid := "a"; row_path := "Library/a.jpg";
        row_album_uuid := None |}]
    "Library" None (delete "filename" (Sample.photo "a" "a.jpg")) =
  process_media_item Sample.env_ok
    [{| row_uuid := "a"; row_path := "Library/a.jpg";
        row_album_uuid := None |}]
    "Library" None (Sample.photo "a" "a.jpg").
Proof.
  apply (indexed_item_needs_no_filename Sample.env_ok _ "Library" None
           (Sample.photo "a" "a.jpg") "a"
           {| row_uuid := "a"; row_path := "Library/a.jpg";
              row_album_uuid := None |}).
  - reflexivity.
  - reflexivity.
Defined.

(** ** A second run over the albums *)

Section SecondRun.

Variable E : env.
Variable abspath : string → string.
Variable directory : string.
Variable media_search : search_body → result page.
Variable fuel : nat.

(** [download_single_album] is the listing, then the directory, then the
    items. *)
Lemma download_single_album_listing (a : account) (album : item)
    (shared : bool) :
  download_single_album E abspath directory media_search fuel a album shared
  = match album_listing E media_search fuel album with
    | None => None
    | Some (Raise ex) => Some (Raise ex, a)
    | Some (Ok None) => Some (Ok (), a)
    | Some (Ok (Some (id, title, album_items))) =>
        match album_directory E abspath directory a id title shared with
        | (Raise ex, a1) => Some (Raise ex, a1)
        | (Ok album_path, a1) =>
            Some (process_and_download E a1 album_items album_path (Some id))
        end
    end.
Proof.
  unfold download_single_album, album_listing, album_title.
  destruct (negb _); [done|].
  destruct (as_str _) as [title0|]; [|done].
  destruct (getitem album "id" ≫= as_str) as [id|]; [|done].
  destruct (media_search _) as [request|]; [|done].
  destruct (page_is_empty request); [done|].
  by destruct (search_loop _ _ _ _ _) as [[album_items|]|].
Qed.

Lemma select_album_prefix (db db' : list album_row) (uuid : string) :
  db `prefix_of` db' → is_Some (select_album db uuid) →
  is_Some (select_album db' uuid).
Proof.
  intros [rest ->] [row Hrow]. exists row. unfold select_album in *.
  induction db as [|r db IH]; [done|]. simpl in *.
  destruct (String.eqb (a_uuid r) uuid); [done|]. by apply IH.
Qed.

(** The albums a run got through have their rows. *)
Lemma download_albums_records (album_list : list item) (a a' : account)
    (shared : bool) :
  download_albums E abspath directory media_search fuel a album_list shared
    = Some (Ok (), a') →
  ∀ album id title album_items,
    album ∈ album_list →
    album_listing E media_search fuel album
      = Some (Ok (Some (id, title, album_items))) →
    is_Some (select_album (acc_albums a') id).
Proof.
  revert a; induction album_list as [|album0 rest IH]; intros a Hrun
    album id title items Hin Hlisting.
  { by apply elem_of_nil in Hin. }
  simpl in Hrun.
  destruct (download_single_album _ _ _ _ _ a album0 shared)
    as [[[[]|ex] a1]|] eqn:Hone; [|done..].
  apply elem_of_cons in Hin as [->|Hin]; [|by eapply IH].
  pose proof (download_albums_extends _ _ _ _ _ _ _ _ _ _ Hrun)
    as (Hprefix & _).
  eapply select_album_prefix; [exact Hprefix|].
  rewrite download_single_album_listing, Hlisting in Hone.
  destruct (album_directory _ _ _ a id title shared)
    as [[path|ex] a0] eqn:Hdir; [|done].
  injection Hone as Hone.
  destruct (process_and_download_spec _ _ _ _ _ _ _ Hone) as (_ & -> & _).
  apply album_directory_ok in Hdir
    as [(row & Hrow & _ & ->)|(Hnone & dir & _ & _ & ->)]; [by eexists|].
  simpl. rewrite select_album_app, Hnone. simpl.
  rewrite String.eqb_refl. by eexists.
Qed.

(** A run over albums that all have their rows adds no album row and no
    directory. *)
Lemma download_albums_recorded (album_list : list item) (b b' : account)
    (shared : bool) (r : result unit) :
  (∀ album id title album_items,
     album ∈ album_list →
     album_listing E media_search fuel album
       = Some (Ok (Some (id, title, album_items))) →
     is_Some (select_album (acc_albums b) id)) →
  download_albums E abspath directory media_search fuel b album_list shared
    = Some (r, b') →
  acc_albums b' = acc_albums b ∧
  same_directories (fs (acc_world b)) (fs (acc_world b')).
Proof.
  revert b; induction album_list as [|album rest IH]; intros b Hknown Hrun.
  { simpl in Hrun. injection Hrun as _ <-. done. }
  simpl in Hrun.
  destruct (download_single_album _ _ _ _ _ b album shared)
    as [[r1 b1]|] eqn:Hone; [|done].
  assert (acc_albums b1 = acc_albums b ∧
          same_directories (fs (acc_world b)) (fs (acc_world b1)))
    as [Halbums Hdirs].
  { rewrite download_single_album_listing in Hone.
    destruct (album_listing E media_search fuel album)
      as [[[[[id title] items]|]|ex]|] eqn:Hlisting;
      [|by injection Hone as _ <-|by injection Hone as _ <-|done].
    destruct (Hknown album id title items) as [row Hrow]; [by left|done|].
    pose proof (album_directory_cases E abspath directory b id title shared)
      as Hcases.
    simpl in Hcases. rewrite Hrow in Hcases. rewrite Hcases in Hone.
    injection Hone as Hone.
    destruct (process_and_download_spec _ _ _ _ _ _ _ Hone)
      as (_ & Halbums & Hgrows).
    split; [done|]. intros p. by apply grows_dir. }
  destruct r1 as [[]|ex].
  - destruct (IH b1) as [Halbums' Hdirs']; [|done|].
    { intros album' id title items Hin Hlisting. rewrite Halbums.
      eapply Hknown; [by right | done]. }
    split; [congruence|]. intros p. by rewrite (Hdirs p).
  - by injection Hrun as _ <-.
Qed.

End SecondRun.

(** X23.  Albums are created once.  After a run over an album listing
    that came to its end, a second run over the same listing, with the
    same service, adds no album row and creates no directory, whatever
    happened to the archive's files and media rows in between: every
    album finds its row and is saved to the directory stored there. *)
Theorem albums_are_created_once (E : env) (abspath : string → string)
    (directory : string) (media_search : search_body → result page)
    (fuel : nat) (a a1 a2 : account) (album_list : list item)
    (shared : bool) (r : result unit) :
  download_albums E abspath directory media_search fuel a album_list shared
    = Some (Ok (), a1) →
  download_albums E abspath directory media_search fuel a1 album_list shared
    = Some (r, a2) →
  acc_albums a2 = acc_albums a1 ∧
  same_directories (fs (acc_world a1)) (fs (acc_world a2)).
Proof.
  intros Hfirst Hsecond.
  eapply download_albums_recorded; [|exact Hsecond].
  intros album id title items Hin Hlisting.
  by eapply download_albums_records.
Qed.

Lemma albums_are_created_once_witness :
  ∃ a1 r a2,
    download_albums Sample.env_ok id "arch" SampleAlbums.media_search 2
      SampleAlbums.start
      [SampleAlbums.trip; SampleAlbums.hidden; SampleAlbums.trip_again]
      false = Some (Ok (), a1) ∧
    download_albums Sample.env_ok id "arch" SampleAlbums.media_search 2
      a1 [SampleAlbums.trip; SampleAlbums.hidden; SampleAlbums.trip_again]
      false = Some (r, a2) ∧
    acc_albums a2 = acc_albums a1.
Proof.
  destruct (download_albums Sample.env_ok id "arch"
              SampleAlbums.media_search 2 SampleAlbums.start
              [SampleAlbums.trip; SampleAlbums.hidden;
               SampleAlbums.trip_again] false)
    as [[[[]|ex] a1]|] eqn:Hfirst.
  - destruct (download_albums Sample.env_ok id "arch"
                SampleAlbums.media_search 2 a1
                [SampleAlbums.trip; SampleAlbums.hidden;
                 SampleAlbums.trip_again] false)
      as [[r a2]|] eqn:Hsecond.
    + exists a1, r, a2. split; [reflexivity|]. split; [exact Hsecond|].
      exact (proj1 (albums_are_created_once Sample.env_ok id "arch"
                      SampleAlbums.media_search 2 SampleAlbums.start a1 a2
                      _ false r Hfirst Hsecond)).
    + exfalso.
      clear -Hfirst Hsecond. vm_compute in Hfirst.
      injection Hfirst as <-. vm_compute in Hsecond. discriminate Hsecond.
  - exfalso. clear -Hfirst. vm_compute in Hfirst. discriminate Hfirst.
  - exfalso. clear -Hfirst. vm_compute in Hfirst. discriminate Hfirst.
Defined.

(** X24.  A shared-albums response without ["sharedAlbums"] ends
    [download_all_shared_albums] before any album is looked at: the
    [KeyError] of the listing leaves the function with the archive and
    both tables as they were, also for the albums of the pages read
    before. *)
Theorem shared_albums_listing_error_archives_nothing (E : env)
    (abspath : string → string) (directory : string)
    (shared_albums_list : option string → result shared_albums_page)
    (media_search : search_body → result page) (fuel : nat) (a : account)
    (first : shared_albums_page) (rest : list page) :
  serves (paged shared_as_page shared_albums_list) None
    (shared_as_page first :: rest) →
  page_is_empty (shared_as_page first) = false →
  S (length rest) ≤ fuel →
  Exists (λ q, mediaItems q = None) (shared_as_page first :: rest) →
  download_all_shared_albums E abspath directory shared_albums_list
    media_search fuel a = Some (Raise (KeyError "sharedAlbums"), a).
Proof.
  intros Hs Hfirst Hfuel Hsome. unfold download_all_shared_albums.
  destruct (list_shared_albums_cases shared_albums_list first rest fuel
              Hs Hfirst Hfuel) as [_ Hraise].
  by rewrite (Hraise Hsome).
Qed.

Lemma shared_albums_listing_error_archives_nothing_witness :
  download_all_shared_albums Sample.env_ok id "arch"
    SampleAlbums.shared_albums_list SampleAlbums.media_search 2
    SampleAlbums.start
  = Some (Raise (KeyError "sharedAlbums"), SampleAlbums.start).
Proof.
  apply (shared_albums_listing_error_archives_nothing Sample.env_ok id
           "arch" SampleAlbums.shared_albums_list SampleAlbums.media_search
           2 SampleAlbums.start
           {| sp_sharedAlbums := Some [SampleAlbums.trip];
              sp_nextPageToken := Some "n" |}
           [{| mediaItems := None; nextPageToken := None |}]).
  - repeat split.
  - reflexivity.
  - simpl. lia.
  - apply Exists_cons_tl, Exists_cons_hd. reflexivity.
Defined.

(** X25.  The session counters steer nothing: two archives with the same
    files and the same [media] table, whatever their download counters
    and request logs, give the same outcomes for a batch and end with the
    same files and the same table. *)
Theorem counters_do_not_steer_the_batch (E : env) (w1 w2 : world)
    (entries : list entry) :
  same_store w1 w2 →
  outcomes E w1 entries = outcomes E w2 entries ∧
  same_store (download E w1 entries) (download E w2 entries).
Proof. apply download_same_store. Qed.

Lemma counters_do_not_steer_the_batch_witness :
  let w2 := {| fs := fs Sample.fresh; media := media Sample.fresh;
               downloads := 7; requested := ["https://photos/x=d"] |} in
  outcomes Sample.env_flaky Sample.fresh
    [Sample.task "a" "a.jpg"; Sample.task "cut" "c.jpg"] =
  outcomes Sample.env_flaky w2
    [Sample.task "a" "a.jpg"; Sample.task "cut" "c.jpg"].
Proof.
  intros w2.
  refine (proj1 (counters_do_not_steer_the_batch Sample.env_flaky
                   Sample.fresh w2 _ _)).
  split; reflexivity.
Defined.
